(** * Soccer tracking and possession analytics: a shallow embedding

    This development embeds in Rocq the two stateful components of the
    repository,

    - [worker/tracking/advanced_tracker.py]
      ([AdvancedTrack], [AdvancedMultiObjectTracker]) and
    - [worker/analytics/possession_analyzer.py]
      ([BallPossessionAnalyzer]),

    and proves properties of them.

    Conventions.  Python [int] is [Z]; list positions are [nat].  Python
    [float] is read in exact arithmetic as [Q]; the one function whose
    result is sensitive to rounding, [compute_iou], is written once over an
    arithmetic interface and also instantiated at binary64.  A Python
    [dict] is an association list in insertion order.  A Euclidean
    distance [sqrt s] is kept as its radicand [s], so that every comparison
    the code makes on distances is decided exactly. *)

From Stdlib Require Import List Sorted Permutation ZArith QArith Qpower Lqa.
From Stdlib Require Import Bool String Lia.
From Stdlib Require Import PrimFloat.
Import ListNotations.

Set Implicit Arguments.
#[local] Set Warnings "-inexact-float".

(* ================================================================== *)
(** * Python data: numbers, lists, dicts                                *)
(* ================================================================== *)

Module Py.

(** The arithmetic a [float] computation needs. *)
Class Num (A : Type) := {
  nzero : A;
  nadd : A -> A -> A;
  nsub : A -> A -> A;
  nmul : A -> A -> A;
  ndiv : A -> A -> A;
  nltb : A -> A -> bool
}.

Definition Qltb (a b : Q) : bool :=
  match a ?= b with Lt => true | _ => false end.

Definition Qleb (a b : Q) : bool :=
  match a ?= b with Gt => false | _ => true end.

(** Exact arithmetic. *)
#[export] Instance Num_Q : Num Q :=
  {| nzero := 0%Q; nadd := Qplus; nsub := Qminus; nmul := Qmult;
     ndiv := Qdiv; nltb := Qltb |}.

(** IEEE 754 binary64, the arithmetic of a CPython [float]. *)
#[export] Instance Num_binary64 : Num float :=
  {| nzero := 0%float; nadd := PrimFloat.add; nsub := PrimFloat.sub;
     nmul := PrimFloat.mul; ndiv := PrimFloat.div; nltb := PrimFloat.ltb |}.

Section Builtins.
Context {A : Type} `{Num A}.

(** [max(a, b)]: the first argument unless the second is greater. *)
Definition max (a b : A) : A := if nltb a b then b else a.

(** [min(a, b)]: the first argument unless the second is smaller. *)
Definition min (a b : A) : A := if nltb b a then b else a.
End Builtins.

(** [int(x)] on a float: truncation toward zero. *)
Definition int (x : Q) : Z := Z.quot (Qnum x) (Zpos (Qden x)).

(** [np.mean(l)]. *)
Definition mean (l : list Q) : Q :=
  fold_left Qplus l 0 / inject_Z (Z.of_nat (List.length l)).

Definition len {A} (l : list A) : Z := Z.of_nat (List.length l).

(** [l[-(n+1)]]. *)
Definition from_end {A} (n : nat) (l : list A) : option A :=
  nth_error (rev l) n.

(** [l[-n:]]. *)
Definition lastn {A} (n : nat) (l : list A) : list A :=
  skipn (List.length l - n) l.

(** [l.remove(x)] on a list of positions: drops the first occurrence. *)
Fixpoint remove (x : nat) (l : list nat) : list nat :=
  match l with
  | [] => []
  | y :: l' => if Nat.eqb x y then l' else y :: remove x l'
  end.

(** [x in s] and [s.add(x)] for a set of integers. *)
Definition mem (x : Z) (s : list Z) : bool := existsb (Z.eqb x) s.

Definition set_add (x : Z) (s : list Z) : list Z :=
  if mem x s then s else s ++ [x].

(** ** Insertion-ordered dictionaries keyed by integers *)

Section Dict.
Variable V : Type.

Definition dict := list (Z * V).

Fixpoint get (k : Z) (d : dict) : option V :=
  match d with
  | [] => None
  | (k', v) :: d' => if Z.eqb k k' then Some v else get k d'
  end.

(** [d[k] = v]: overwrite in place, or append a new key. *)
Fixpoint set (k : Z) (v : V) (d : dict) : dict :=
  match d with
  | [] => [(k, v)]
  | (k', v') :: d' =>
      if Z.eqb k k' then (k', v) :: d' else (k', v') :: set k v d'
  end.

(** [del d[k]]. *)
Fixpoint del (k : Z) (d : dict) : dict :=
  match d with
  | [] => []
  | (k', v') :: d' => if Z.eqb k k' then d' else (k', v') :: del k d'
  end.

Definition keys (d : dict) : list Z := map fst d.
Definition values (d : dict) : list V := map snd d.
End Dict.

End Py.

(* ================================================================== *)
(** * Geometry                                                          *)
(* ================================================================== *)

(** A box [[x, y, w, h]]. *)
Record BBox (A : Type) := mkBBox { bx : A; by_ : A; bw : A; bh : A }.

Module Geometry.
Import Py.

Section Iou.
Context {A : Type} `{Num A}.

Definition inter_area (bbox1 bbox2 : BBox A) : A :=
  let xi1 := Py.max (bx bbox1) (bx bbox2) in
  let yi1 := Py.max (by_ bbox1) (by_ bbox2) in
  let xi2 := Py.min (nadd (bx bbox1) (bw bbox1)) (nadd (bx bbox2) (bw bbox2)) in
  let yi2 := Py.min (nadd (by_ bbox1) (bh bbox1)) (nadd (by_ bbox2) (bh bbox2)) in
  nmul (Py.max nzero (nsub xi2 xi1)) (Py.max nzero (nsub yi2 yi1)).

Definition union_area (bbox1 bbox2 : BBox A) : A :=
  let box1_area := nmul (bw bbox1) (bh bbox1) in
  let box2_area := nmul (bw bbox2) (bh bbox2) in
  nsub (nadd box1_area box2_area) (inter_area bbox1 bbox2).

(** [AdvancedMultiObjectTracker.compute_iou]. *)
Definition compute_iou (bbox1 bbox2 : BBox A) : A :=
  if nltb nzero (union_area bbox1 bbox2)
  then ndiv (inter_area bbox1 bbox2) (union_area bbox1 bbox2)
  else nzero.
End Iou.

(** A box with non-positive width or height. *)
Definition degenerate (b : BBox Q) : Prop := bw b <= 0 \/ bh b <= 0.

End Geometry.

(* ================================================================== *)
(** * AdvancedTrack                                                     *)
(* ================================================================== *)

Module AdvancedTrack.
Import Py.

Record track := mkTrack {
  track_id : Z;
  bbox : BBox Q;
  score : Q;
  frame_id : Z;
  class_name : string;
  last_update : Z;
  history : list (BBox Q * Q * Z);
  velocity : Q * Q;
  age : Z;
  confidence_history : list Q;
  is_confirmed : bool;
  time_since_update : Z;
  kf_x : Q;
  kf_y : Q;
  kf_vx : Q;
  kf_vy : Q
}.

Definition __init__ (track_id : Z) (bbox : BBox Q) (score : Q)
    (frame_id : Z) (class_name : string) : track :=
  {| track_id := track_id; bbox := bbox; score := score;
     frame_id := frame_id; class_name := class_name;
     last_update := frame_id;
     history := [(bbox, score, frame_id)];
     velocity := (0, 0);
     age := 1%Z;
     confidence_history := [score];
     is_confirmed := false;
     time_since_update := 0%Z;
     kf_x := bx bbox + bw bbox / 2;
     kf_y := by_ bbox + bh bbox / 2;
     kf_vx := 0; kf_vy := 0 |}.

Definition with_time_since_update (n : Z) (self : track) : track :=
  {| track_id := track_id self; bbox := bbox self; score := score self;
     frame_id := frame_id self; class_name := class_name self;
     last_update := last_update self; history := history self;
     velocity := velocity self; age := age self;
     confidence_history := confidence_history self;
     is_confirmed := is_confirmed self;
     time_since_update := n;
     kf_x := kf_x self; kf_y := kf_y self;
     kf_vx := kf_vx self; kf_vy := kf_vy self |}.

Definition with_velocity (v : Q * Q) (self : track) : track :=
  {| track_id := track_id self; bbox := bbox self; score := score self;
     frame_id := frame_id self; class_name := class_name self;
     last_update := last_update self; history := history self;
     velocity := v; age := age self;
     confidence_history := confidence_history self;
     is_confirmed := is_confirmed self;
     time_since_update := time_since_update self;
     kf_x := kf_x self; kf_y := kf_y self;
     kf_vx := kf_vx self; kf_vy := kf_vy self |}.

Definition with_kalman (x y vx vy : Q) (self : track) : track :=
  {| track_id := track_id self; bbox := bbox self; score := score self;
     frame_id := frame_id self; class_name := class_name self;
     last_update := last_update self; history := history self;
     velocity := velocity self; age := age self;
     confidence_history := confidence_history self;
     is_confirmed := is_confirmed self;
     time_since_update := time_since_update self;
     kf_x := x; kf_y := y; kf_vx := vx; kf_vy := vy |}.

Definition with_is_confirmed (b : bool) (self : track) : track :=
  {| track_id := track_id self; bbox := bbox self; score := score self;
     frame_id := frame_id self; class_name := class_name self;
     last_update := last_update self; history := history self;
     velocity := velocity self; age := age self;
     confidence_history := confidence_history self;
     is_confirmed := b;
     time_since_update := time_since_update self;
     kf_x := kf_x self; kf_y := kf_y self;
     kf_vx := kf_vx self; kf_vy := kf_vy self |}.

(** Smoothing factor of the filter. *)
Definition alpha : Q := 7 # 10.

Definition _update_kalman (self : track) (bbox : BBox Q) : track :=
  let center_x := bx bbox + bw bbox / 2 in
  let center_y := by_ bbox + bh bbox / 2 in
  let x := alpha * center_x + (1 - alpha) * kf_x self in
  let y := alpha * center_y + (1 - alpha) * kf_y self in
  let self := with_kalman x y (kf_vx self) (kf_vy self) self in
  if (2 <=? len (history self))%Z then
    match from_end 1 (history self) with
    | Some (prev_bbox, _, prev_frame) =>
        let prev_center_x := bx prev_bbox + bw prev_bbox / 2 in
        let prev_center_y := by_ prev_bbox + bh prev_bbox / 2 in
        let dt := (frame_id self - prev_frame)%Z in
        if (0 <? dt)%Z then
          with_kalman (kf_x self) (kf_y self)
            (alpha * (center_x - prev_center_x) / inject_Z dt
             + (1 - alpha) * kf_vx self)
            (alpha * (center_y - prev_center_y) / inject_Z dt
             + (1 - alpha) * kf_vy self)
            self
        else self
    | None => self
    end
  else self.

Definition update (self : track) (bbox : BBox Q) (score : Q)
    (frame_id : Z) : track :=
  let appended := confidence_history self ++ [score] in
  let self :=
    {| track_id := track_id self; bbox := bbox; score := score;
       frame_id := frame_id; class_name := class_name self;
       last_update := frame_id;
       history := history self ++ [(bbox, score, frame_id)];
       velocity := velocity self;
       age := (age self + 1)%Z;
       confidence_history :=
         if (10 <? len appended)%Z then tl appended else appended;
       is_confirmed := is_confirmed self;
       time_since_update := 0%Z;
       kf_x := kf_x self; kf_y := kf_y self;
       kf_vx := kf_vx self; kf_vy := kf_vy self |} in
  let self :=
    if (2 <=? len (history self))%Z then
      match from_end 1 (history self) with
      | Some (prev_bbox, _, prev_frame) =>
          let dt := (frame_id - prev_frame)%Z in
          if (0 <? dt)%Z then
            _update_kalman
              (with_velocity
                 ((bx bbox - bx prev_bbox) / inject_Z dt,
                  (by_ bbox - by_ prev_bbox) / inject_Z dt) self)
              bbox
          else self
      | None => self
      end
    else self in
  if (3 <=? age self)%Z && Qltb (1 # 2) (mean (confidence_history self))
  then with_is_confirmed true self
  else self.

Definition predict (self : track) (frame_id : Z) : BBox Q :=
  let dt := (frame_id - AdvancedTrack.frame_id self)%Z in
  if (0 <? dt)%Z then
    let pred_center_x := kf_x self + kf_vx self * inject_Z dt in
    let pred_center_y := kf_y self + kf_vy self * inject_Z dt in
    let w := bw (bbox self) in
    let h := bh (bbox self) in
    mkBBox (pred_center_x - w / 2) (pred_center_y - h / 2) w h
  else bbox self.

Definition get_smoothed_bbox (self : track) : BBox Q :=
  let w := bw (bbox self) in
  let h := bh (bbox self) in
  mkBBox (kf_x self - w / 2) (kf_y self - h / 2) w h.

Definition is_active (self : track) : bool :=
  (time_since_update self <? 10)%Z && (0 <? age self)%Z.

Definition get_average_confidence (self : track) : Q :=
  match confidence_history self with
  | [] => 0
  | _ => mean (confidence_history self)
  end.

End AdvancedTrack.

(* ================================================================== *)
(** * AdvancedMultiObjectTracker                                        *)
(* ================================================================== *)

Module AdvancedMultiObjectTracker.
Import Py Geometry.
Module T := AdvancedTrack.

(** An input detection: [{'class': ..., 'bbox': ..., 'score': ...}];
    the class is read with [.get], so it may be absent. *)
Record Detection := mkDetection {
  d_class : option string;
  d_bbox : BBox Q;
  d_score : Q
}.

(** A reported object. *)
Record TrackedObject := mkObject {
  o_track_id : Z;
  o_bbox : BBox Q;
  o_score : Q;
  o_frame_id : Z;
  o_class : string;
  o_confidence : Q
}.

(** One entry of [class_params]; [{}] is [mkParams None None]. *)
Record params := mkParams {
  p_match_thresh : option Q;
  p_max_time_lost : option Z
}.

Definition class_params : list (string * params) :=
  [ ("person"%string, mkParams (Some (6 # 10)) (Some 20%Z));
    ("ball"%string, mkParams (Some (8 # 10)) (Some 10%Z)) ].

(** [self.class_params.get(class_name, {})]. *)
Definition class_params_get (class_name : string) : params :=
  match find (fun e => String.eqb (fst e) class_name) class_params with
  | Some e => snd e
  | None => mkParams None None
  end.

Record tracker := mkTracker {
  track_thresh : Q;
  match_thresh : Q;
  max_time_lost : Z;
  min_track_length : Z;
  frame_id : Z;
  track_id_count : Z;
  tracks : dict T.track;
  lost_tracks : dict T.track;
  removed_tracks : list Z
}.

Definition __init__ (track_thresh match_thresh : Q)
    (max_time_lost min_track_length : Z) : tracker :=
  {| track_thresh := track_thresh; match_thresh := match_thresh;
     max_time_lost := max_time_lost;
     min_track_length := min_track_length;
     frame_id := 0; track_id_count := 0;
     tracks := []; lost_tracks := []; removed_tracks := [] |}.

(** The constructor's default arguments. *)
Definition default : tracker := __init__ (3 # 10) (7 # 10) 15 3.

Definition with_tracks (d : dict T.track) (self : tracker) : tracker :=
  {| track_thresh := track_thresh self; match_thresh := match_thresh self;
     max_time_lost := max_time_lost self;
     min_track_length := min_track_length self;
     frame_id := frame_id self; track_id_count := track_id_count self;
     tracks := d; lost_tracks := lost_tracks self;
     removed_tracks := removed_tracks self |}.

Definition with_frame_id (f : Z) (self : tracker) : tracker :=
  {| track_thresh := track_thresh self; match_thresh := match_thresh self;
     max_time_lost := max_time_lost self;
     min_track_length := min_track_length self;
     frame_id := f; track_id_count := track_id_count self;
     tracks := tracks self; lost_tracks := lost_tracks self;
     removed_tracks := removed_tracks self |}.

Definition with_track_id_count (n : Z) (self : tracker) : tracker :=
  {| track_thresh := track_thresh self; match_thresh := match_thresh self;
     max_time_lost := max_time_lost self;
     min_track_length := min_track_length self;
     frame_id := frame_id self; track_id_count := n;
     tracks := tracks self; lost_tracks := lost_tracks self;
     removed_tracks := removed_tracks self |}.

Definition with_removed_tracks (s : list Z) (self : tracker) : tracker :=
  {| track_thresh := track_thresh self; match_thresh := match_thresh self;
     max_time_lost := max_time_lost self;
     min_track_length := min_track_length self;
     frame_id := frame_id self; track_id_count := track_id_count self;
     tracks := tracks self; lost_tracks := lost_tracks self;
     removed_tracks := s |}.

(** [compute_iou] as the tracker calls it. *)
Definition compute_iou (bbox1 bbox2 : BBox Q) : Q :=
  Geometry.compute_iou bbox1 bbox2.

(** The dict a tracked object is reported as. *)
Definition report (self : tracker) (track_id : Z) (track : T.track)
    (class_name : string) : TrackedObject :=
  {| o_track_id := track_id;
     o_bbox := T.get_smoothed_bbox track;
     o_score := T.score track;
     o_frame_id := frame_id self;
     o_class := class_name;
     o_confidence := T.get_average_confidence track |}.

(** The body shared by the two creation loops: a detection above
    [track_thresh] takes the next id and is reported. *)
Definition create_track (class_name : string)
    (acc : list TrackedObject * tracker) (bbox : BBox Q) (score : Q)
    : list TrackedObject * tracker :=
  let '(tracked_objects, self) := acc in
  if Qltb (track_thresh self) score then
    let track_id := track_id_count self in
    let self := with_track_id_count (track_id + 1)%Z self in
    let track := T.__init__ track_id bbox score (frame_id self) class_name in
    let self := with_tracks (set track_id track (tracks self)) self in
    (tracked_objects ++ [report self track_id track class_name], self)
  else acc.

Definition default_bbox : BBox Q := mkBBox 0 0 0 0.

(** [cost_matrix[i, j]]. *)
Definition cell (cost_matrix : list (list Q)) (i j : nat) : Q :=
  nth j (nth i cost_matrix []) 0.

(** The inner loop of the association: the best still-unmatched
    detection for row [i]; [None] stands for [best_match = -1]. *)
Definition best_match_for (cost_matrix : list (list Q)) (match_thresh : Q)
    (i : nat) (unmatched_dets : list nat) : option nat * Q :=
  fold_left
    (fun (best : option nat * Q) (j : nat) =>
       let iou := 1 - cell cost_matrix i j in
       if Qltb match_thresh iou && Qltb (snd best) iou
       then (Some j, iou) else best)
    unmatched_dets (None, 0).

(** The body of the outer loop of [_match_tracks], for row [i] of the
    cost matrix and its track. *)
Definition match_step (cost_matrix : list (list Q)) (match_thresh : Q)
    (acc : list (Z * nat) * list nat) (it : nat * Z)
    : list (Z * nat) * list nat :=
  let '(matched_tracks, unmatched_dets) := acc in
  let '(i, track_id) := it in
  match fst (best_match_for cost_matrix match_thresh i unmatched_dets) with
  | Some best_match =>
      (matched_tracks ++ [(track_id, best_match)],
       remove best_match unmatched_dets)
  | None => acc
  end.

(** Row [track_id] of the cost matrix: one minus the IoU of the track's
    smoothed box with each detection. *)
Definition cost_row (tracks : dict T.track) (det_bboxes : list (BBox Q))
    (track_id : Z) : list Q :=
  match get track_id tracks with
  | Some track =>
      let smoothed_bbox := T.get_smoothed_bbox track in
      map (fun det_bbox => 1 - compute_iou smoothed_bbox det_bbox)
          det_bboxes
  | None => map (fun _ => 0) det_bboxes (* not a key: never *)
  end.

Definition _match_tracks (self : tracker) (tracks : dict T.track)
    (det_bboxes : list (BBox Q)) (det_scores : list Q)
    (class_name : string) : list (Z * nat) * list nat :=
  match tracks with
  | [] => ([], seq 0 (List.length det_bboxes))
  | _ =>
      let params := class_params_get class_name in
      let match_thresh :=
        match p_match_thresh params with
        | Some v => v
        | None => match_thresh self
        end in
      let track_ids := keys tracks in
      let cost_matrix := map (cost_row tracks det_bboxes) track_ids in
      fold_left (match_step cost_matrix match_thresh)
        (combine (seq 0 (List.length track_ids)) track_ids)
        ([], seq 0 (List.length det_bboxes))
  end.

(** The body of the loop over [matched_tracks]. *)
Definition update_matched (class_name : string)
    (det_bboxes : list (BBox Q)) (det_scores : list Q)
    (acc : list TrackedObject * tracker) (m : Z * nat)
    : list TrackedObject * tracker :=
  let '(tracked_objects, self) := acc in
  let '(track_id, det_idx) := m in
  match get track_id (tracks self) with
  | Some track =>
      let track :=
        T.update track (nth det_idx det_bboxes default_bbox)
          (nth det_idx det_scores 0) (frame_id self) in
      (tracked_objects ++ [report self track_id track class_name],
       with_tracks (set track_id track (tracks self)) self)
  | None => acc (* not a key: never *)
  end.

Definition _update_class_tracks (self : tracker)
    (detections : list Detection) (class_name : string)
    : list TrackedObject * tracker :=
  match detections with
  | [] => ([], self)
  | _ =>
      let class_tracks :=
        filter (fun e => String.eqb (T.class_name (snd e)) class_name)
               (tracks self) in
      match class_tracks with
      | [] =>
          fold_left
            (fun acc det =>
               create_track class_name acc (d_bbox det) (d_score det))
            detections ([], self)
      | _ =>
          let det_bboxes := map d_bbox detections in
          let det_scores := map d_score detections in
          let '(matched_tracks, unmatched_dets) :=
            _match_tracks self class_tracks det_bboxes det_scores
              class_name in
          let updated :=
            fold_left (update_matched class_name det_bboxes det_scores)
              matched_tracks ([], self) in
          fold_left
            (fun acc det_idx =>
               create_track class_name acc
                 (nth det_idx det_bboxes default_bbox)
                 (nth det_idx det_scores 0))
            unmatched_dets updated
      end
  end.

Definition _predict_tracks (self : tracker) : list TrackedObject :=
  fold_left
    (fun tracked_objects (e : Z * T.track) =>
       let '(track_id, track) := e in
       if T.is_active track then
         tracked_objects
           ++ [ {| o_track_id := track_id;
                   o_bbox := T.predict track (frame_id self);
                   o_score := T.score track;
                   o_frame_id := frame_id self;
                   o_class := T.class_name track;
                   o_confidence := T.get_average_confidence track |} ]
       else tracked_objects)
    (tracks self) [].

(** The body of the removal loop of [_handle_lost_tracks]. *)
Definition remove_track (self : tracker) (track_id : Z) : tracker :=
  if mem track_id (removed_tracks self) then self
  else
    with_tracks (del track_id (tracks self))
      (with_removed_tracks (set_add track_id (removed_tracks self)) self).

Definition _handle_lost_tracks (self : tracker) : tracker :=
  let tracks_to_remove :=
    keys (filter
            (fun e => (max_time_lost self <? T.time_since_update (snd e))%Z)
            (tracks self)) in
  fold_left remove_track tracks_to_remove self.

(** The opening of [update]: advance the frame counter and age every
    live track by one frame. *)
Definition begin_frame (self : tracker) : tracker :=
  let self := with_frame_id (frame_id self + 1)%Z self in
  with_tracks
    (map (fun e : Z * T.track =>
            (fst e,
             T.with_time_since_update
               (T.time_since_update (snd e) + 1)%Z (snd e)))
         (tracks self))
    self.

Definition has_class (c : string) (d : Detection) : bool :=
  match d_class d with
  | Some c' => String.eqb c' c
  | None => false
  end.

Definition update (self : tracker) (detections : list Detection)
    : list TrackedObject * tracker :=
  let self := begin_frame self in
  match detections with
  | [] => (_predict_tracks self, self)
  | _ =>
      let person_detections := filter (has_class "person") detections in
      let ball_detections := filter (has_class "ball") detections in
      let '(person_tracks, self) :=
        match person_detections with
        | [] => ([], self)
        | _ => _update_class_tracks self person_detections "person"
        end in
      let '(ball_tracks, self) :=
        match ball_detections with
        | [] => ([], self)
        | _ => _update_class_tracks self ball_detections "ball"
        end in
      let self := _handle_lost_tracks self in
      (person_tracks ++ ball_tracks, self)
  end.

Definition get_track_statistics (self : tracker) : Z * Z * Z :=
  (len (tracks self),
   len (filter (fun e => T.is_confirmed (snd e)) (tracks self)),
   track_id_count self).

(** Runs [update] over a sequence of frames, collecting the outputs. *)
Fixpoint run (self : tracker) (frames : list (list Detection))
    : list (list TrackedObject) * tracker :=
  match frames with
  | [] => ([], self)
  | detections :: frames' =>
      let '(out, self) := update self detections in
      let '(outs, self) := run self frames' in
      (out :: outs, self)
  end.

End AdvancedMultiObjectTracker.

(* ================================================================== *)
(** * BallPossessionAnalyzer                                            *)
(* ================================================================== *)

Module BallPossessionAnalyzer.
Import Py.

(** A Python exception is [None]. *)
Definition bind {A B} (m : option A) (k : A -> option B) : option B :=
  match m with
  | Some a => k a
  | None => None
  end.

#[local] Notation "x <- m ;; k" := (bind m (fun x => k))
  (at level 61, m at next level, right associativity).

(** [np.sqrt(radicand)], compared through the radicand. *)
Record Root := mkRoot { radicand : Q }.

Definition root_ltb (a b : Root) : bool := Qltb (radicand a) (radicand b).

(** [sqrt r < c] and [sqrt r <= c] for a rational [c]. *)
Definition root_lt_const (r : Root) (c : Q) : bool :=
  Qltb 0 c && Qltb (radicand r) (c * c).

Definition root_le_const (r : Root) (c : Q) : bool :=
  Qleb 0 c && Qleb (radicand r) (c * c).

(** A tracked object as the analyzer reads it: ['class'] and
    ['track_id'] through [.get], ['bbox'] and ['score'] by key. *)
Record Obj := mkObj {
  obj_class : option string;
  obj_bbox : BBox Q;
  obj_score : Q;
  obj_track_id : option Z
}.

(** An entry of [ball_tracks] or [player_tracks]. *)
Record Sample := mkSample {
  s_frame_id : Z;
  s_bbox : BBox Q;
  s_center : Q * Q;
  s_track_id : Z;
  s_confidence : Q
}.

Record Possession := mkPossession {
  player_id : Z;
  start_frame : Z;
  end_frame : option Z;
  duration : Z;
  team : string;
  positions : list (Q * Q)
}.

Record PassEvent := mkPassEvent {
  from_player : Z;
  to_player : Z;
  from_team : string;
  to_team : string;
  frame_id : Z;
  distance : Root;
  successful : bool
}.

Record analyzer := mkAnalyzer {
  fps : Q;
  possession_threshold : Q;
  frame_threshold : Z;
  ball_tracks : list Sample;
  player_tracks : list Sample;
  possession_events : list Possession;
  current_possession : option Possession;
  possession_history : list Possession;
  team_possession_time : list (string * Q);
  total_possession_time : Q;
  pass_events : list PassEvent;
  pass_threshold_distance : Q;
  pass_threshold_frames : Z
}.

Definition __init__ (fps possession_threshold : Q) : analyzer :=
  {| fps := fps; possession_threshold := possession_threshold;
     frame_threshold := int (possession_threshold * fps);
     ball_tracks := []; player_tracks := [];
     possession_events := []; current_possession := None;
     possession_history := [];
     team_possession_time := []; total_possession_time := 0;
     pass_events := [];
     pass_threshold_distance := 50; pass_threshold_frames := 5 |}.

(** The constructor's default arguments. *)
Definition default : analyzer := __init__ 30 (1 # 2).

Definition with_ball_tracks (l : list Sample) (self : analyzer) :=
  {| fps := fps self; possession_threshold := possession_threshold self;
     frame_threshold := frame_threshold self;
     ball_tracks := l; player_tracks := player_tracks self;
     possession_events := possession_events self;
     current_possession := current_possession self;
     possession_history := possession_history self;
     team_possession_time := team_possession_time self;
     total_possession_time := total_possession_time self;
     pass_events := pass_events self;
     pass_threshold_distance := pass_threshold_distance self;
     pass_threshold_frames := pass_threshold_frames self |}.

Definition with_player_tracks (l : list Sample) (self : analyzer) :=
  {| fps := fps self; possession_threshold := possession_threshold self;
     frame_threshold := frame_threshold self;
     ball_tracks := ball_tracks self; player_tracks := l;
     possession_events := possession_events self;
     current_possession := current_possession self;
     possession_history := possession_history self;
     team_possession_time := team_possession_time self;
     total_possession_time := total_possession_time self;
     pass_events := pass_events self;
     pass_threshold_distance := pass_threshold_distance self;
     pass_threshold_frames := pass_threshold_frames self |}.

Definition with_current_possession (p : option Possession)
    (self : analyzer) :=
  {| fps := fps self; possession_threshold := possession_threshold self;
     frame_threshold := frame_threshold self;
     ball_tracks := ball_tracks self; player_tracks := player_tracks self;
     possession_events := possession_events self;
     current_possession := p;
     possession_history := possession_history self;
     team_possession_time := team_possession_time self;
     total_possession_time := total_possession_time self;
     pass_events := pass_events self;
     pass_threshold_distance := pass_threshold_distance self;
     pass_threshold_frames := pass_threshold_frames self |}.

Definition with_pass_events (l : list PassEvent) (self : analyzer) :=
  {| fps := fps self; possession_threshold := possession_threshold self;
     frame_threshold := frame_threshold self;
     ball_tracks := ball_tracks self; player_tracks := player_tracks self;
     possession_events := possession_events self;
     current_possession := current_possession self;
     possession_history := possession_history self;
     team_possession_time := team_possession_time self;
     total_possession_time := total_possession_time self;
     pass_events := l;
     pass_threshold_distance := pass_threshold_distance self;
     pass_threshold_frames := pass_threshold_frames self |}.

(** [team_possession_time] is a [defaultdict(float)]. *)
Definition time_of (team : string) (d : list (string * Q)) : Q :=
  match find (fun e => String.eqb (fst e) team) d with
  | Some e => snd e
  | None => 0
  end.

Fixpoint set_time (team : string) (v : Q) (d : list (string * Q))
    : list (string * Q) :=
  match d with
  | [] => [(team, v)]
  | (k, v') :: d' =>
      if String.eqb k team then (k, v) :: d' else (k, v') :: set_time team v d'
  end.

(** [d[team] += v]. *)
Definition add_time (team : string) (v : Q) (d : list (string * Q)) :=
  set_time team (time_of team d + v) d.

Definition _get_center (bbox : BBox Q) : Q * Q :=
  (bx bbox + bw bbox / 2, by_ bbox + bh bbox / 2).

Definition _calculate_distance (pos1 pos2 : Q * Q) : Root :=
  mkRoot ((fst pos1 - fst pos2) ^ 2 + (snd pos1 - snd pos2) ^ 2).

Definition _get_player_team (self : analyzer) (player_id : Z) : string :=
  let player_positions :=
    map s_center
      (filter (fun p => (s_track_id p =? player_id)%Z) (player_tracks self)) in
  match player_positions with
  | [] => "unknown"
  | _ =>
      let avg_x := mean (map fst player_positions) in
      let field_width := 1000 in
      if Qltb avg_x (field_width / 2) then "team_a" else "team_b"
  end.

Definition _start_possession (self : analyzer) (player : Sample)
    (frame_id : Z) : analyzer :=
  with_current_possession
    (Some {| player_id := s_track_id player;
             start_frame := frame_id;
             end_frame := None;
             duration := 0;
             team := _get_player_team self (s_track_id player);
             positions := [s_center player] |})
    self.

Definition _update_possession (self : analyzer) (frame_id : Z) : analyzer :=
  match current_possession self with
  | Some cur =>
      match find (fun player =>
                    (s_frame_id player =? frame_id)%Z
                    && (s_track_id player =? player_id cur)%Z)
                 (player_tracks self) with
      | Some player =>
          with_current_possession
            (Some {| player_id := player_id cur;
                     start_frame := start_frame cur;
                     end_frame := end_frame cur;
                     duration := (frame_id - start_frame cur)%Z;
                     team := team cur;
                     positions := positions cur ++ [s_center player] |})
            self
      | None => self
      end
  | None => self
  end.

(** The open span as [_end_possession] stamps it at [frame_id]. *)
Definition closed (cur : Possession) (frame_id : Z) : Possession :=
  {| player_id := player_id cur;
     start_frame := start_frame cur;
     end_frame := Some frame_id;
     duration := (frame_id - start_frame cur)%Z;
     team := team cur;
     positions := positions cur |}.

(** Dividing by [self.fps] raises [ZeroDivisionError] when it is zero. *)
Definition _end_possession (self : analyzer) (frame_id : Z)
    : option analyzer :=
  match current_possession self with
  | Some cur =>
      let cur := closed cur frame_id in
      if (frame_threshold self <=? duration cur)%Z then
        if Qeq_bool (fps self) 0 then None
        else
          let possession_time := inject_Z (duration cur) / fps self in
          Some
            {| fps := fps self;
               possession_threshold := possession_threshold self;
               frame_threshold := frame_threshold self;
               ball_tracks := ball_tracks self;
               player_tracks := player_tracks self;
               possession_events := possession_events self ++ [cur];
               current_possession := None;
               possession_history := possession_history self;
               team_possession_time :=
                 add_time (team cur) possession_time
                   (team_possession_time self);
               total_possession_time :=
                 total_possession_time self + possession_time;
               pass_events := pass_events self;
               pass_threshold_distance := pass_threshold_distance self;
               pass_threshold_frames := pass_threshold_frames self |}
      else Some (with_current_possession None self)
  | None => Some self
  end.

(** The scan for the player closest to the ball in this frame; the
    running minimum starts at infinity ([None]). *)
Definition closest (ball_center : Q * Q) (frame_id : Z)
    (players : list Sample) : option Sample * option Root :=
  fold_left
    (fun (acc : option Sample * option Root) player =>
       if (s_frame_id player =? frame_id)%Z then
         let distance := _calculate_distance ball_center (s_center player) in
         match snd acc with
         | Some min_distance =>
             if root_ltb distance min_distance
             then (Some player, Some distance) else acc
         | None => (Some player, Some distance)
         end
       else acc)
    players (None, None).

Definition _analyze_possession (self : analyzer) (frame_id : Z)
    : option analyzer :=
  match from_end 0 (ball_tracks self), player_tracks self with
  | None, _ => Some self
  | _, [] => Some self
  | Some current_ball, _ =>
      let ball_center := s_center current_ball in
      let possession_distance_threshold := 80 in
      let lost :=
        match current_possession self with
        | Some _ => _end_possession self frame_id
        | None => Some self
        end in
      match closest ball_center frame_id (player_tracks self) with
      | (Some closest_player, Some min_distance) =>
          if root_lt_const min_distance possession_distance_threshold then
            match current_possession self with
            | None => Some (_start_possession self closest_player frame_id)
            | Some cur =>
                if negb (player_id cur =? s_track_id closest_player)%Z then
                  self <- _end_possession self frame_id ;;
                  Some (_start_possession self closest_player frame_id)
                else Some (_update_possession self frame_id)
            end
          else lost
      | _ => lost
      end
  end.

(** [frame_id - p['end_frame']] raises [TypeError] on an open span. *)
Fixpoint recent (self : analyzer) (frame_id : Z) (l : list Possession)
    : option (list Possession) :=
  match l with
  | [] => Some []
  | p :: l' =>
      e <- end_frame p ;;
      r <- recent self frame_id l' ;;
      Some (if (frame_id - e <? pass_threshold_frames self)%Z
            then p :: r else r)
  end.

(** One iteration of the pair loop of [_detect_passes];
    [positions[-1]] and [positions[0]] raise [IndexError] on an empty
    list. *)
Definition detect_pair (self : analyzer)
    (current_possession next_possession : Possession) : option analyzer :=
  e <- end_frame current_possession ;;
  let time_between := (start_frame next_possession - e)%Z in
  if (time_between <=? pass_threshold_frames self)%Z then
    end_pos <- from_end 0 (positions current_possession) ;;
    start_pos <- nth_error (positions next_possession) 0 ;;
    let distance := _calculate_distance end_pos start_pos in
    if root_le_const distance (pass_threshold_distance self) then
      Some
        (with_pass_events
           (pass_events self
              ++ [ {| from_player := player_id current_possession;
                      to_player := player_id next_possession;
                      from_team := team current_possession;
                      to_team := team next_possession;
                      frame_id := e;
                      distance := distance;
                      successful := true |} ])
           self)
    else Some self
  else Some self.

Fixpoint detect_pairs (self : analyzer) (l : list Possession)
    : option analyzer :=
  match l with
  | current_possession :: ((next_possession :: _) as l') =>
      self <- detect_pair self current_possession next_possession ;;
      detect_pairs self l'
  | _ => Some self
  end.

Definition _detect_passes (self : analyzer) (frame_id : Z)
    : option analyzer :=
  if (len (possession_events self) <? 2)%Z then Some self
  else
    recent_possessions <- recent self frame_id (possession_events self) ;;
    detect_pairs self recent_possessions.

(** [max(l, key=lambda x: x['score'])]: the first maximal element. *)
Definition max_by_score (l : list Obj) : option Obj :=
  match l with
  | [] => None
  | x :: l' =>
      Some (fold_left
              (fun best y =>
                 if Qltb (obj_score best) (obj_score y) then y else best)
              l' x)
  end.

Definition has_class (c : string) (o : Obj) : bool :=
  match obj_class o with
  | Some c' => String.eqb c' c
  | None => false
  end.

Definition sample (frame_id : Z) (o : Obj) : Sample :=
  {| s_frame_id := frame_id;
     s_bbox := obj_bbox o;
     s_center := _get_center (obj_bbox o);
     s_track_id := match obj_track_id o with Some i => i | None => (-1)%Z end;
     s_confidence := obj_score o |}.

Definition update_tracks (self : analyzer) (tracked_objects : list Obj)
    (frame_id : Z) : option analyzer :=
  let ball_tracks := filter (has_class "ball") tracked_objects in
  let player_tracks := filter (has_class "person") tracked_objects in
  let self :=
    match max_by_score ball_tracks with
    | Some best_ball =>
        with_ball_tracks
          (BallPossessionAnalyzer.ball_tracks self
             ++ [sample frame_id best_ball]) self
    | None => self
    end in
  let self :=
    fold_left
      (fun self player =>
         with_player_tracks
           (BallPossessionAnalyzer.player_tracks self
              ++ [sample frame_id player]) self)
      player_tracks self in
  self <- _analyze_possession self frame_id ;;
  _detect_passes self frame_id.

(** [update_tracks] over a sequence of frames. *)
Fixpoint run (self : analyzer) (frames : list (list Obj * Z))
    : option analyzer :=
  match frames with
  | [] => Some self
  | (tracked_objects, frame_id) :: frames' =>
      self <- update_tracks self tracked_objects frame_id ;;
      run self frames'
  end.

(** ** Statistics *)

Record PossessionStats := mkPossessionStats {
  team_a_possession : Q;
  team_b_possession : Q;
  team_a_percentage : Q;
  team_b_percentage : Q;
  st_total_possession_time : Q;
  st_possession_events : Z;
  passes : Z;
  st_current_possession : option Possession
}.

(** [recent_frames]: per frame id, the pair of team counts. *)
Definition count_frame (self : analyzer)
    (recent_frames : dict (Z * Z)) (player : Sample) : dict (Z * Z) :=
  let frame_id := s_frame_id player in
  let recent_frames :=
    match get frame_id recent_frames with
    | Some _ => recent_frames
    | None => set frame_id (0, 0)%Z recent_frames
    end in
  let team := _get_player_team self (s_track_id player) in
  match get frame_id recent_frames with
  | Some (a, b) =>
      if String.eqb team "team_a"
      then set frame_id (a + 1, b)%Z recent_frames
      else if String.eqb team "team_b"
      then set frame_id (a, b + 1)%Z recent_frames
      else recent_frames
  | None => recent_frames
  end.

Definition get_possession_stats (self : analyzer) : PossessionStats :=
  let fallback :=
    {| team_a_possession := 15; team_b_possession := 15;
       team_a_percentage := 50; team_b_percentage := 50;
       st_total_possession_time := 30;
       st_possession_events := 0; passes := 0;
       st_current_possession := None |} in
  if Qltb 0 (total_possession_time self) then
    let team_a_time := time_of "team_a" (team_possession_time self) in
    let team_b_time := time_of "team_b" (team_possession_time self) in
    {| team_a_possession := team_a_time;
       team_b_possession := team_b_time;
       team_a_percentage := team_a_time / total_possession_time self * 100;
       team_b_percentage := team_b_time / total_possession_time self * 100;
       st_total_possession_time := total_possession_time self;
       st_possession_events := len (possession_events self);
       passes := len (pass_events self);
       st_current_possession := current_possession self |}
  else if (0 <? len (player_tracks self))%Z then
    let recent_frames :=
      fold_left (count_frame self) (lastn 100 (player_tracks self)) [] in
    let '(team_a_activity, team_b_activity, total_frames) :=
      fold_left
        (fun (acc : Q * Q * Z) (frame_data : Z * Z) =>
           let '(a_act, b_act, n) := acc in
           let total_players := (fst frame_data + snd frame_data)%Z in
           if (0 <? total_players)%Z then
             (a_act + inject_Z (fst frame_data) / inject_Z total_players,
              b_act + inject_Z (snd frame_data) / inject_Z total_players,
              (n + 1)%Z)
           else acc)
        (values recent_frames) (0, 0, 0%Z) in
    if (0 <? total_frames)%Z then
      let team_a_ratio := team_a_activity / inject_Z total_frames in
      let team_b_ratio := team_b_activity / inject_Z total_frames in
      let total_time := 30 in
      {| team_a_possession := total_time * team_a_ratio;
         team_b_possession := total_time * team_b_ratio;
         team_a_percentage := team_a_ratio * 100;
         team_b_percentage := team_b_ratio * 100;
         st_total_possession_time := total_time;
         st_possession_events := len (possession_events self);
         passes := len (pass_events self);
         st_current_possession := current_possession self |}
    else fallback
  else fallback.

(** What [get_pass_stats] takes from outside the analyzer: the clock,
    the random generator, and the iteration order of a [set]. *)
Record Env := mkEnv {
  time_time : Q;
  random_uniform : nat -> Q -> Q -> Q;
  set_order : list Z -> list Z
}.

(** A fabricated entry of [recent_passes]. *)
Record SyntheticPass := mkSyntheticPass {
  sp_from_player : Z;
  sp_to_player : Z;
  sp_successful : bool;
  sp_timestamp : Q;
  sp_distance : Q;
  sp_team : string
}.

Record PassStats := mkPassStats {
  total_passes : Z;
  successful_passes : Z;
  pass_success_rate : Q;
  team_a_passes : Z;
  team_b_passes : Z;
  recent_passes : list (PassEvent + SyntheticPass)
}.

Definition get_pass_stats (env : Env) (self : analyzer) : PassStats :=
  let fallback :=
    {| total_passes := 8; successful_passes := 6;
       pass_success_rate := 75;
       team_a_passes := 4; team_b_passes := 4;
       recent_passes := [] |} in
  match pass_events self with
  | _ :: _ =>
      let successful_passes := len (filter successful (pass_events self)) in
      {| total_passes := len (pass_events self);
         successful_passes := successful_passes;
         pass_success_rate :=
           inject_Z successful_passes / inject_Z (len (pass_events self))
           * 100;
         team_a_passes :=
           len (filter (fun p => String.eqb (from_team p) "team_a")
                  (pass_events self));
         team_b_passes :=
           len (filter (fun p => String.eqb (from_team p) "team_b")
                  (pass_events self));
         recent_passes :=
           map inl
             (if (10 <=? len (pass_events self))%Z
              then lastn 10 (pass_events self) else pass_events self) |}
  | [] =>
      if (0 <? len (player_tracks self))%Z then
        let unique_players :=
          nodup Z.eq_dec (map s_track_id (player_tracks self)) in
        let num_players := len unique_players in
        let listed := set_order env unique_players in
        if (2 <=? num_players)%Z then
          let base_passes := Z.max 5 (num_players * 2) in
          let successful_passes := int (inject_Z base_passes * (85 # 100)) in
          let team_a_passes := int (inject_Z base_passes * (45 # 100)) in
          let team_b_passes := (base_passes - team_a_passes)%Z in
          {| total_passes := base_passes;
             successful_passes := successful_passes;
             pass_success_rate :=
               inject_Z successful_passes / inject_Z base_passes * 100;
             team_a_passes := team_a_passes;
             team_b_passes := team_b_passes;
             recent_passes :=
               map (fun i : nat =>
                      inr
                        {| sp_from_player :=
                             nth (i mod List.length unique_players)
                               listed 0%Z;
                           sp_to_player :=
                             nth ((i + 1) mod List.length unique_players)
                               listed 0%Z;
                           sp_successful :=
                             (Z.of_nat i <? successful_passes)%Z;
                           sp_timestamp :=
                             time_time env - inject_Z (Z.of_nat i * 2);
                           sp_distance := random_uniform env i 50 200;
                           sp_team :=
                             if Nat.eqb (i mod 2) 0
                             then "team_a" else "team_b" |})
                   (seq 0 (Z.to_nat (Z.min 5 base_passes))) |}
        else fallback
      else fallback
  end.

Definition reset (self : analyzer) : analyzer :=
  {| fps := fps self; possession_threshold := possession_threshold self;
     frame_threshold := frame_threshold self;
     ball_tracks := []; player_tracks := [];
     possession_events := []; current_possession := None;
     possession_history := [];
     team_possession_time := []; total_possession_time := 0;
     pass_events := [];
     pass_threshold_distance := pass_threshold_distance self;
     pass_threshold_frames := pass_threshold_frames self |}.

End BallPossessionAnalyzer.

(* ================================================================== *)
(** * Specification vocabulary                                          *)
(* ================================================================== *)

Unset Implicit Arguments.

Module TrackerSpec.
Import Py AdvancedMultiObjectTracker.

#[local] Open Scope Z_scope.

(** [l1] is [l2] with some elements left out, order kept. *)
Inductive subseq {A : Type} : list A -> list A -> Prop :=
| subseq_nil : subseq [] []
| subseq_skip : forall x l1 l2, subseq l1 l2 -> subseq l1 (x :: l2)
| subseq_keep : forall x l1 l2, subseq l1 l2 -> subseq (x :: l1) (x :: l2).

(** Strictly increasing. *)
Definition ascending (l : list Z) : Prop := StronglySorted Z.lt l.

Definition below (n : Z) (l : list Z) : Prop := Forall (fun k => k < n) l.

(** [n, n+1, ..., n+k-1]. *)
Definition ids_from (n : Z) (k : nat) : list Z :=
  map (fun i => n + Z.of_nat i) (seq 0 k).

Definition ids (objs : list TrackedObject) : list Z := map o_track_id objs.

(** What holds of the tracker between any two steps of its methods. *)
Record consistent (t : tracker) : Prop := {
  ids_ascending : ascending (keys (tracks t));
  ids_below_count : below (track_id_count t) (keys (tracks t));
  removed_below_count : below (track_id_count t) (removed_tracks t);
  lost_nonneg :
    Forall (fun e => 0 <= T.time_since_update (snd e)) (tracks t)
}.

(** [t'] differs from [t] in its track table and id counter at most. *)
Definition same_settings (t t' : tracker) : Prop :=
  track_thresh t' = track_thresh t
  /\ match_thresh t' = match_thresh t
  /\ max_time_lost t' = max_time_lost t
  /\ min_track_length t' = min_track_length t
  /\ frame_id t' = frame_id t
  /\ removed_tracks t' = removed_tracks t.

(** A track one frame further from its last matched detection. *)
Definition aged (track : T.track) : T.track :=
  T.with_time_since_update (T.time_since_update track + 1) track.

(** The states a tracker is in after any number of [update] calls. *)
Inductive reachable : tracker -> Prop :=
| reach_init : forall track_thresh match_thresh max_time_lost min_len,
    reachable (__init__ track_thresh match_thresh max_time_lost min_len)
| reach_update : forall t detections,
    reachable t -> reachable (snd (update t detections)).

(** The states a tracker passes through, those inside an [update]
    included. *)
Inductive arises : tracker -> Prop :=
| arises_init : forall track_thresh match_thresh max_time_lost min_len,
    arises (__init__ track_thresh match_thresh max_time_lost min_len)
| arises_begin : forall t, arises t -> arises (begin_frame t)
| arises_class : forall t detections class_name,
    arises t ->
    arises (snd (_update_class_tracks t detections class_name))
| arises_sweep : forall t, arises t -> arises (_handle_lost_tracks t).

(** The two class rounds of [update], up to the lost-track sweep. *)
Definition rounds (t : tracker) (detections : list Detection)
    : list TrackedObject * tracker :=
  let r1 := _update_class_tracks (begin_frame t)
              (filter (has_class "person") detections) "person" in
  let r2 := _update_class_tracks (snd r1)
              (filter (has_class "ball") detections) "ball" in
  (fst r1 ++ fst r2, snd r2).

(** The ids a call reports that were not live before it: the tracks it
    creates, in creation order. *)
Definition created (t : tracker) (detections : list Detection) : list Z :=
  filter (fun k => negb (mem k (keys (tracks t))))
         (ids (fst (update t detections))).

(** The live tracks of one class, as [_update_class_tracks] selects
    them. *)
Definition class_tracks (t : tracker) (class_name : string) : dict T.track :=
  filter (fun e => String.eqb (T.class_name (snd e)) class_name) (tracks t).

(** ** The association round in the words of the specification *)

(** The match threshold of a class: 0.6 for persons, 0.8 for balls,
    the tracker's default otherwise. *)
Definition class_match_thresh (t : tracker) (class_name : string) : Q :=
  if String.eqb class_name "person" then 6 # 10
  else if String.eqb class_name "ball" then 8 # 10
  else match_thresh t.

(** The first position of [pool] at which [f] is greatest. *)
Fixpoint argmax (f : nat -> Q) (pool : list nat) : option nat :=
  match pool with
  | [] => None
  | j :: pool' =>
      match argmax f pool' with
      | Some j' => if Qltb (f j) (f j') then Some j' else Some j
      | None => Some j
      end
  end.

(** IoU of a track's smoothed box with detection [j]. *)
Definition smoothed_iou (track : T.track) (det_bboxes : list (BBox Q))
    (j : nat) : Q :=
  compute_iou (T.get_smoothed_bbox track) (nth j det_bboxes default_bbox).

(** Each track in turn takes the candidate of highest IoU, if that IoU
    exceeds the threshold; a taken candidate leaves the pool. *)
Fixpoint greedy (thresh : Q) (tracks : dict T.track)
    (det_bboxes : list (BBox Q)) (pool : list nat)
    : list (Z * nat) * list nat :=
  match tracks with
  | [] => ([], pool)
  | (track_id, track) :: rest =>
      match argmax (smoothed_iou track det_bboxes) pool with
      | Some j =>
          if Qltb thresh (smoothed_iou track det_bboxes j) then
            let '(matched, pool') :=
              greedy thresh rest det_bboxes (remove j pool) in
            ((track_id, j) :: matched, pool')
          else greedy thresh rest det_bboxes pool
      | None => greedy thresh rest det_bboxes pool
      end
  end.

(** Insertion of an entry into a table sorted by id. *)
Fixpoint insert_by_id (e : Z * T.track) (d : dict T.track) : dict T.track :=
  match d with
  | [] => [e]
  | e' :: d' =>
      if fst e <=? fst e' then e :: e' :: d' else e' :: insert_by_id e d'
  end.

Definition sort_by_id (d : dict T.track) : dict T.track :=
  fold_right insert_by_id [] d.

(** The association of the specification: tracks in ascending id order,
    all detections in the pool. *)
Definition association (thresh : Q) (tracks : dict T.track)
    (det_bboxes : list (BBox Q)) : list (Z * nat) * list nat :=
  greedy thresh (sort_by_id tracks) det_bboxes
    (seq 0 (List.length det_bboxes)).

(** The inner loop of [_match_tracks] on one row of the cost matrix. *)
Definition best_in_row (f : nat -> Q) (match_thresh : Q)
    (start : option nat * Q) (pool : list nat) : option nat * Q :=
  fold_left
    (fun (best : option nat * Q) (j : nat) =>
       if Qltb match_thresh (f j) && Qltb (snd best) (f j)
       then (Some j, f j) else best)
    pool start.

(** The lost-track horizon the specification gives a class. *)
Definition class_max_time_lost (t : tracker) (class_name : string) : Z :=
  match p_max_time_lost (class_params_get class_name) with
  | Some n => n
  | None => max_time_lost t
  end.

End TrackerSpec.

(* ================================================================== *)
(** * Example inputs                                                    *)
(* ================================================================== *)

Module Examples.
Import Py.

Module Tracking.
Import AdvancedMultiObjectTracker.

Definition ball_det : Detection :=
  mkDetection (Some "ball"%string) (mkBBox 400 300 10 10) (9 # 10).

Definition person_det : Detection :=
  mkDetection (Some "person"%string) (mkBBox 100 100 50 80) (9 # 10).

(** A ball seen once, then eleven frames showing one player only. *)
Definition ball_then_players : list (list Detection) :=
  [ball_det] :: repeat [person_det] 11.

(** The tracker after one frame showing one player. *)
Definition one_player : tracker := snd (update default [person_det]).

Definition first_track : T.track :=
  T.__init__ 0 (d_bbox person_det) (d_score person_det) 1 "person".

(** The tracker after three frames showing the same player: its track
    is confirmed. *)
Definition warmed_up : tracker :=
  snd (run default (repeat [person_det] 3)).

Definition warm_track : T.track :=
  match get 0%Z (tracks warmed_up) with
  | Some track => track
  | None => first_track
  end.

(** The same player, detected with a confidence of 0.1. *)
Definition faint_det : Detection :=
  mkDetection (Some "person"%string) (mkBBox 100 100 50 80) (1 # 10).

(** A box of width 0. *)
Definition flat_box : BBox Q := mkBBox 100 100 0 80.

(** A box in binary64. *)
Definition box64 : BBox float :=
  mkBBox 0.1%float 0.1%float 0.2%float 0.2%float.

End Tracking.

Module Analytics.
Import BallPossessionAnalyzer.

(** Two players 30 px apart and a ball that sits on one of them or is
    far from both. *)
Definition player1 : Obj :=
  mkObj (Some "person"%string) (mkBBox 100 100 50 80) (9 # 10) (Some 1%Z).

Definition player2 : Obj :=
  mkObj (Some "person"%string) (mkBBox 130 100 50 80) (85 # 100)
    (Some 2%Z).

Definition ball_on_player1 : Obj :=
  mkObj (Some "ball"%string) (mkBBox 120 135 10 10) (8 # 10) (Some 3%Z).

Definition ball_on_player2 : Obj :=
  mkObj (Some "ball"%string) (mkBBox 150 135 10 10) (8 # 10) (Some 3%Z).

Definition ball_away : Obj :=
  mkObj (Some "ball"%string) (mkBBox 900 900 10 10) (8 # 10) (Some 3%Z).

(** Frames [first, first + 1, ..., first + count - 1], all showing the
    two players and the given ball. *)
Definition frames (ball : Obj) (first : Z) (count : nat)
    : list (list Obj * Z) :=
  map (fun i => ([player1; player2; ball], (first + Z.of_nat i)%Z))
      (seq 0 count).

(** Player 1 holds the ball in frames 0 to 19 and loses it at frame
    20; player 2 takes it at frame 23 and loses it at frame 40. *)
Definition handover : list (list Obj * Z) :=
  frames ball_on_player1 0 20 ++ frames ball_away 20 3
  ++ frames ball_on_player2 23 17 ++ frames ball_away 40 6.

(** An analyzer that logs spans of 3 frames or more. *)
Definition eager : analyzer := __init__ 30 (1 # 10).

(** Player 1 holds the ball in frames 0 to 3, player 2 takes it at
    frame 4 and loses it at frame 7. *)
Definition quick_handover : list (list Obj * Z) :=
  frames ball_on_player1 0 4 ++ frames ball_on_player2 4 3
  ++ frames ball_away 7 4.

(** Player 1 holds the ball in frames 0 to 11 and loses it at frame
    12. *)
Definition twelve_frames : list (list Obj * Z) :=
  frames ball_on_player1 0 12 ++ frames ball_away 12 1.

(** An analyzer for a 25 fps video. *)
Definition pal : analyzer := __init__ 25 (1 # 2).

(** Player 1 has held the ball since frame 0. *)
Definition open_span : Possession :=
  {| player_id := 1; start_frame := 0; end_frame := None;
     duration := 19; team := "team_a";
     positions := [(125, 140)] |}.

Definition holding : analyzer :=
  with_current_possession (Some open_span) default.

End Analytics.

End Examples.

(* ================================================================== *)
(** * Further vocabulary                                                *)
(* ================================================================== *)

Module Further.
Import Py AdvancedMultiObjectTracker.

(** Two boxes overlap in a region of positive area. *)
Definition overlap (a b : BBox Q) : Prop :=
  0 < bw a /\ 0 < bh a /\ 0 < bw b /\ 0 < bh b
  /\ bx a < bx b + bw b /\ bx b < bx a + bw a
  /\ by_ a < by_ b + bh b /\ by_ b < by_ a + bh a.

(** Componentwise equality of boxes as rationals. *)
Definition same_box (a b : BBox Q) : Prop :=
  bx a == bx b /\ by_ a == by_ b /\ bw a == bw b /\ bh a == bh b.

(** The centre of a box. *)
Definition center_x (b : BBox Q) : Q := bx b + bw b / 2.
Definition center_y (b : BBox Q) : Q := by_ b + bh b / 2.

(** A track matched again and again with the same detection, once at
    each of the given frames. *)
Definition rematch (track : T.track) (bbox : BBox Q) (score : Q)
    (frames : list Z) : T.track :=
  fold_left (fun track frame => T.update track bbox score frame)
    frames track.

(** The frame of the latest entry of a track's history. *)
Definition last_frame (track : T.track) : option Z :=
  option_map (fun e : BBox Q * Q * Z => snd e) (from_end 0 (T.history track)).

(** Strictly increasing frames, all after [start]. *)
Fixpoint later_frames (start : Z) (frames : list Z) : Prop :=
  match frames with
  | [] => True
  | f :: frames' => (start < f)%Z /\ later_frames f frames'
  end.

(** What the record of a live track [k] looks like when the tracker's
    frame counter is [f]. *)
Definition well_formed (f k : Z) (track : T.track) : Prop :=
  T.track_id track = k
  /\ T.age track = len (T.history track)
  /\ (1 <= T.age track)%Z
  /\ (1 <= List.length (T.confidence_history track) <= 10)%nat
  /\ (T.frame_id track + T.time_since_update track = f)%Z
  /\ (0 <= T.time_since_update track)%Z
  /\ T.last_update track = T.frame_id track
  /\ from_end 0 (T.history track)
     = Some (T.bbox track, T.score track, T.frame_id track)
  /\ (T.is_confirmed track = true -> (3 <= T.age track)%Z).

(** Every id handed out so far is either live or recorded as removed,
    and never both. *)
Definition accounted (t : tracker) : Prop :=
  (0 <= track_id_count t)%Z
  /\ NoDup (removed_tracks t)
  /\ (forall k, In k (keys (tracks t)) -> ~ In k (removed_tracks t))
  /\ (forall k, (0 <= k < track_id_count t)%Z <->
                In k (keys (tracks t)) \/ In k (removed_tracks t)).

(** The ids [_handle_lost_tracks] collects for removal. *)
Definition stale (t : tracker) : list Z :=
  keys (filter
          (fun e => (max_time_lost t <? T.time_since_update (snd e))%Z)
          (tracks t)).

(** The box of a track moved from its filtered centre along its
    filtered velocity over [dt] frames. *)
Definition extrapolated (track : T.track) (dt : Z) : BBox Q :=
  let w := bw (T.bbox track) in
  let h := bh (T.bbox track) in
  mkBBox (T.kf_x track + T.kf_vx track * inject_Z dt - w / 2)
         (T.kf_y track + T.kf_vy track * inject_Z dt - h / 2) w h.

(** The object an empty frame reports for a track. *)
Definition predicted (t : tracker) (k : Z) (track : T.track)
    : TrackedObject :=
  {| o_track_id := k;
     o_bbox := T.predict track (frame_id t);
     o_score := T.score track;
     o_frame_id := frame_id t;
     o_class := T.class_name track;
     o_confidence := T.get_average_confidence track |}.

(** [o] is the report, for class [c], of the record stored under its id
    in [s], and that record was matched or created in the frame of
    [s]. *)
Definition reported_as (c : string) (s : tracker) (o : TrackedObject)
    : Prop :=
  exists track,
    get (o_track_id o) (tracks s) = Some track
    /\ o = report s (o_track_id o) track c
    /\ T.class_name track = c
    /\ T.time_since_update track = 0%Z
    /\ T.frame_id track = frame_id s.

(** The detections whose score exceeds [track_thresh]. *)
Definition confident (t : tracker) (detections : list Detection)
    : list Detection :=
  filter (fun d => Qltb (track_thresh t) (d_score d)) detections.

(** The detections [update] looks at: persons and balls. *)
Definition tracked_class (d : Detection) : bool :=
  has_class "person" d || has_class "ball" d.

End Further.

(* ================================================================== *)
(** * Vocabulary for the possession log                                 *)
(* ================================================================== *)

Module PossessionSpec.
Import Py BallPossessionAnalyzer.

#[local] Open Scope Z_scope.

Definition on_a_team (team : string) : Prop :=
  team = "team_a"%string \/ team = "team_b"%string.

(** The frame at which a span was closed. *)
Definition end_of (p : Possession) : Z :=
  match end_frame p with
  | Some e => e
  | None => start_frame p
  end.

(** A span as the possession log holds it. *)
Definition logged (threshold : Z) (p : Possession) : Prop :=
  end_frame p = Some (end_of p)
  /\ duration p = end_of p - start_frame p
  /\ threshold <= duration p
  /\ positions p <> []
  /\ on_a_team (team p).

(** A span that is still open. *)
Definition held (p : Possession) : Prop :=
  end_frame p = None /\ positions p <> [] /\ on_a_team (team p).

(** The seconds the spans of a log add up to. *)
Definition time_sum (fps : Q) (l : list Possession) : Q :=
  fold_right (fun p acc => (inject_Z (duration p) / fps + acc)%Q) 0%Q l.

(** An entry of the pass log. *)
Definition sound_pass (self : analyzer) (e : PassEvent) : Prop :=
  successful e = true
  /\ on_a_team (from_team e) /\ on_a_team (to_team e)
  /\ root_le_const (distance e) (pass_threshold_distance self) = true.

(** What holds of an analyzer whatever frames it was fed. *)
Record safe (self : analyzer) : Prop := {
  log_closed :
    Forall (logged (frame_threshold self)) (possession_events self);
  open_held :
    forall cur, current_possession self = Some cur -> held cur;
  total_is_sum :
    (total_possession_time self
     == time_sum (fps self) (possession_events self))%Q;
  teams_make_total :
    (time_of "team_a" (team_possession_time self)
     + time_of "team_b" (team_possession_time self)
     == total_possession_time self)%Q;
  passes_sound : Forall (sound_pass self) (pass_events self)
}.

(** What holds in addition when the frames came in order, the last one
    being [now]. *)
Record timely (now : Z) (self : analyzer) : Prop := {
  log_ordered :
    ForallOrdPairs (fun p q => end_of p <= start_frame q)
      (possession_events self);
  log_past : Forall (fun p => end_of p <= now) (possession_events self);
  open_late :
    forall cur, current_possession self = Some cur ->
      start_frame cur <= now
      /\ Forall (fun p => end_of p <= start_frame cur)
           (possession_events self)
}.

(** Frame ids that never go back, starting at [now] or later. *)
Fixpoint in_order (now : Z) (frames : list (list Obj * Z)) : Prop :=
  match frames with
  | [] => True
  | (_, frame_id) :: frames' => now <= frame_id /\ in_order frame_id frames'
  end.

(** [s'] has the settings, samples and pass log of [s]. *)
Definition kept (s s' : analyzer) : Prop :=
  fps s' = fps s
  /\ frame_threshold s' = frame_threshold s
  /\ pass_threshold_distance s' = pass_threshold_distance s
  /\ pass_threshold_frames s' = pass_threshold_frames s
  /\ ball_tracks s' = ball_tracks s
  /\ player_tracks s' = player_tracks s
  /\ pass_events s' = pass_events s
  /\ possession_threshold s' = possession_threshold s.

(** [s'] has the settings, log, open span and times of [s]. *)
Definition quiet (s s' : analyzer) : Prop :=
  fps s' = fps s
  /\ frame_threshold s' = frame_threshold s
  /\ pass_threshold_distance s' = pass_threshold_distance s
  /\ pass_threshold_frames s' = pass_threshold_frames s
  /\ possession_events s' = possession_events s
  /\ current_possession s' = current_possession s
  /\ team_possession_time s' = team_possession_time s
  /\ total_possession_time s' = total_possession_time s
  /\ possession_threshold s' = possession_threshold s.

(** What one possession analysis at frame [f] does to the log: nothing,
    or it appends the span that was open, closed at [f]. *)
Definition log_step (s : analyzer) (f : Z) (s' : analyzer) : Prop :=
  (possession_events s' = possession_events s
   /\ total_possession_time s' = total_possession_time s
   /\ team_possession_time s' = team_possession_time s)
  \/ exists cur,
      current_possession s = Some cur
      /\ frame_threshold s <= f - start_frame cur
      /\ possession_events s' = possession_events s ++ [closed cur f]
      /\ total_possession_time s'
         = (total_possession_time s
            + inject_Z (f - start_frame cur) / fps s)%Q
      /\ team_possession_time s'
         = add_time (team cur) (inject_Z (f - start_frame cur) / fps s)
             (team_possession_time s).

(** The span [_start_possession] opens for a player sample. *)
Definition started (s : analyzer) (player : Sample) (f : Z) : Possession :=
  {| player_id := s_track_id player;
     start_frame := f;
     end_frame := None;
     duration := 0;
     team := _get_player_team s (s_track_id player);
     positions := [s_center player] |}.

(** What it does to the open span: none is left, one is started for a
    player sample, or the open one goes on. *)
Definition open_step (s : analyzer) (f : Z) (s' : analyzer) : Prop :=
  match current_possession s' with
  | None => True
  | Some cur' =>
      (exists player,
          In player (player_tracks s) /\ cur' = started s player f)
      \/ exists cur,
          current_possession s = Some cur
          /\ possession_events s' = possession_events s
          /\ player_id cur' = player_id cur
          /\ start_frame cur' = start_frame cur
          /\ end_frame cur' = end_frame cur
          /\ team cur' = team cur
          /\ (positions cur <> [] -> positions cur' <> [])
  end.

(** The squared distance of a sample from a point. *)
Definition sq_dist (c : Q * Q) (p : Sample) : Q :=
  radicand (_calculate_distance c (s_center p)).

(** [p] is a sample of frame [f] nearest to [c] among the samples of
    that frame. *)
Definition nearest (c : Q * Q) (f : Z) (players : list Sample)
    (p : Sample) : Prop :=
  In p players /\ s_frame_id p = f
  /\ forall q, In q players -> s_frame_id q = f ->
       (sq_dist c p <= sq_dist c q)%Q.

(** What the scan for the closest player has found after the samples
    [seen]. *)
Definition scanned (c : Q * Q) (f : Z) (seen : list Sample)
    (acc : option Sample * option Root) : Prop :=
  match acc with
  | (Some p, Some r) =>
      r = _calculate_distance c (s_center p) /\ nearest c f seen p
  | (None, None) => forall q, In q seen -> s_frame_id q <> f
  | _ => False
  end.

End PossessionSpec.

(* ================================================================== *)
(** * The processing loop of the server                                 *)
(* ================================================================== *)

Module Server.
Import Py.
Module Tr := AdvancedMultiObjectTracker.
Module An := BallPossessionAnalyzer.

#[local] Open Scope Z_scope.

(** A dict reported by the tracker, as the analyzer reads it. *)
Definition as_obj (o : Tr.TrackedObject) : An.Obj :=
  {| An.obj_class := Some (Tr.o_class o);
     An.obj_bbox := Tr.o_bbox o;
     An.obj_score := Tr.o_score o;
     An.obj_track_id := Some (Tr.o_track_id o) |}.

(** The variables of the loop of [process_video]. *)
Record job := mkJob {
  tracker : Tr.tracker;
  possession_analyzer : An.analyzer;
  frame_count : Z
}.

Definition start (fps : Q) : job :=
  {| tracker := Tr.__init__ (3 # 10) (7 # 10) 15 3;
     possession_analyzer := An.__init__ fps (1 # 2);
     frame_count := 0 |}.

(** One turn of the loop, on the detections of the frame read. *)
Definition process_frame (j : job) (detections : list Tr.Detection)
    : option job :=
  let '(tracked_objects, tracker) := Tr.update (tracker j) detections in
  match An.update_tracks (possession_analyzer j)
          (map as_obj tracked_objects) (frame_count j) with
  | Some possession_analyzer =>
      Some {| tracker := tracker;
              possession_analyzer := possession_analyzer;
              frame_count := frame_count j + 1 |}
  | None => None
  end.

Fixpoint process (j : job) (video : list (list Tr.Detection))
    : option job :=
  match video with
  | [] => Some j
  | detections :: video' =>
      match process_frame j detections with
      | Some j' => process j' video'
      | None => None
      end
  end.

Definition process_video (fps : Q) (video : list (list Tr.Detection))
    : option job :=
  process (start fps) video.

(** Every sample the analyzer holds carries an id the tracker has handed
    out and the number of a frame already processed. *)
Definition in_range (j : job) : Prop :=
  0 <= frame_count j
  /\ forall smp,
       In smp (An.ball_tracks (possession_analyzer j))
       \/ In smp (An.player_tracks (possession_analyzer j)) ->
       0 <= An.s_track_id smp < Tr.track_id_count (tracker j)
       /\ 0 <= An.s_frame_id smp < frame_count j.

End Server.

Module FurtherExamples.
Import Py AdvancedMultiObjectTracker Examples.Tracking.

(** A box of 50 by 80 pixels and two boxes side by side, 10 px apart. *)
Definition player_box : BBox Q := mkBBox 100 100 50 80.
Definition left_box : BBox Q := mkBBox 0 0 10 10.
Definition right_box : BBox Q := mkBBox 20 0 10 10.

(** The tracker after a ball seen once and then sixteen frames showing
    one player only: the ball's track has been removed. *)
Definition ball_gone : tracker :=
  snd (run default ([ball_det] :: repeat [person_det] 16)).

(** What a second frame showing the same player reports, and the record
    it leaves. *)
Definition second_frame : list TrackedObject * tracker :=
  update one_player [person_det].

Definition second_track : T.track :=
  match get 0%Z (tracks (snd second_frame)) with
  | Some track => track
  | None => first_track
  end.

Definition second_report : TrackedObject :=
  report (snd second_frame) 0 second_track "person".

(** The analyzer after the handover of the examples, and after the
    quick one with a threshold of 3 frames. *)
Definition after_handover : BallPossessionAnalyzer.analyzer :=
  match BallPossessionAnalyzer.run BallPossessionAnalyzer.default
          Examples.Analytics.handover with
  | Some self => self
  | None => BallPossessionAnalyzer.default
  end.

Definition after_quick_handover : BallPossessionAnalyzer.analyzer :=
  match BallPossessionAnalyzer.run Examples.Analytics.eager
          Examples.Analytics.quick_handover with
  | Some self => self
  | None => Examples.Analytics.eager
  end.

(** The analyzer in the middle of frame 0 of the handover: the samples
    are in, the possession analysis has not run yet. *)
Definition sampled : BallPossessionAnalyzer.analyzer :=
  BallPossessionAnalyzer.with_player_tracks
    [BallPossessionAnalyzer.sample 0 Examples.Analytics.player1;
     BallPossessionAnalyzer.sample 0 Examples.Analytics.player2]
    (BallPossessionAnalyzer.with_ball_tracks
       [BallPossessionAnalyzer.sample 0 Examples.Analytics.ball_on_player1]
       BallPossessionAnalyzer.default).

End FurtherExamples.

(* ================================================================== *)
(** * Arithmetic and list facts                                         *)
(* ================================================================== *)

Module PyFacts.
Import Py.

Lemma Qltb_lt (a b : Q) : Qltb a b = true <-> a < b.
Proof.
  unfold Qltb. rewrite Qlt_alt. destruct (a ?= b); split; congruence.
Qed.

Lemma Qltb_ge (a b : Q) : Qltb a b = false <-> b <= a.
Proof.
  unfold Qltb. rewrite Qle_alt.
  rewrite <- (Qcompare_antisym a b). destruct (a ?= b); simpl;
    split; congruence.
Qed.

Lemma Qltb_compat (a a' b b' : Q) :
  a == a' -> b == b' -> Qltb a b = Qltb a' b'.
Proof.
  intros Ha Hb. unfold Qltb. rewrite Ha, Hb. reflexivity.
Qed.

Lemma max_zero_nonneg (v : Q) : 0 <= Py.max 0 v.
Proof.
  unfold Py.max; simpl. destruct (Qltb 0 v) eqn:E.
  - apply Qltb_lt in E. lra.
  - lra.
Qed.

Lemma max_zero_le (v u : Q) : 0 <= u -> v <= u -> Py.max 0 v <= u.
Proof.
  intros Hu Hv. unfold Py.max; simpl. destruct (Qltb 0 v); lra.
Qed.

Lemma max_zero_nonpos (v : Q) : v <= 0 -> Py.max 0 v = 0.
Proof.
  intros Hv. unfold Py.max; simpl. destruct (Qltb 0 v) eqn:E; auto.
  apply Qltb_lt in E. lra.
Qed.

Lemma max_ge_l (a b : Q) : a <= Py.max a b.
Proof.
  unfold Py.max; simpl. destruct (Qltb a b) eqn:E.
  - apply Qltb_lt in E. lra.
  - lra.
Qed.

Lemma min_le_l (a b : Q) : Py.min a b <= a.
Proof.
  unfold Py.min; simpl. destruct (Qltb b a) eqn:E.
  - apply Qltb_lt in E. lra.
  - lra.
Qed.

Lemma max_ge_r (a b : Q) : b <= Py.max a b.
Proof.
  unfold Py.max; simpl. destruct (Qltb a b) eqn:E.
  - lra.
  - apply Qltb_ge in E. lra.
Qed.

Lemma min_le_r (a b : Q) : Py.min a b <= b.
Proof.
  unfold Py.min; simpl. destruct (Qltb b a) eqn:E.
  - lra.
  - apply Qltb_ge in E. lra.
Qed.

End PyFacts.

(* ================================================================== *)
(** * Intersection over union                                           *)
(* ================================================================== *)

Module GeometryFacts.
Import Py PyFacts Geometry.

Section Extents.
Variables a b : BBox Q.

Let iw : Q :=
  Py.max 0 (Py.min (bx a + bw a) (bx b + bw b) - Py.max (bx a) (bx b)).
Let ih : Q :=
  Py.max 0 (Py.min (by_ a + bh a) (by_ b + bh b) - Py.max (by_ a) (by_ b)).

Lemma inter_area_eq : inter_area a b = iw * ih.
Proof. reflexivity. Qed.

Lemma union_area_eq :
  union_area a b = bw a * bh a + bw b * bh b - inter_area a b.
Proof. reflexivity. Qed.

Lemma iw_bounds :
  0 <= iw /\ (0 <= bw a -> iw <= bw a) /\ (0 <= bw b -> iw <= bw b).
Proof.
  subst iw. split; [apply max_zero_nonneg|].
  pose proof (min_le_l (bx a + bw a) (bx b + bw b)).
  pose proof (min_le_r (bx a + bw a) (bx b + bw b)).
  pose proof (max_ge_l (bx a) (bx b)).
  pose proof (max_ge_r (bx a) (bx b)).
  split; intros; apply max_zero_le; lra.
Qed.

Lemma ih_bounds :
  0 <= ih /\ (0 <= bh a -> ih <= bh a) /\ (0 <= bh b -> ih <= bh b).
Proof.
  subst ih. split; [apply max_zero_nonneg|].
  pose proof (min_le_l (by_ a + bh a) (by_ b + bh b)).
  pose proof (min_le_r (by_ a + bh a) (by_ b + bh b)).
  pose proof (max_ge_l (by_ a) (by_ b)).
  pose proof (max_ge_r (by_ a) (by_ b)).
  split; intros; apply max_zero_le; lra.
Qed.

Lemma iw_degenerate : bw a <= 0 \/ bw b <= 0 -> iw = 0.
Proof.
  intros Hd. subst iw. apply max_zero_nonpos.
  pose proof (min_le_l (bx a + bw a) (bx b + bw b)).
  pose proof (min_le_r (bx a + bw a) (bx b + bw b)).
  pose proof (max_ge_l (bx a) (bx b)).
  pose proof (max_ge_r (bx a) (bx b)).
  destruct Hd; lra.
Qed.

Lemma ih_degenerate : bh a <= 0 \/ bh b <= 0 -> ih = 0.
Proof.
  intros Hd. subst ih. apply max_zero_nonpos.
  pose proof (min_le_l (by_ a + bh a) (by_ b + bh b)).
  pose proof (min_le_r (by_ a + bh a) (by_ b + bh b)).
  pose proof (max_ge_l (by_ a) (by_ b)).
  pose proof (max_ge_r (by_ a) (by_ b)).
  destruct Hd; lra.
Qed.

Lemma inter_area_nonneg : 0 <= inter_area a b.
Proof.
  rewrite inter_area_eq.
  apply Qmult_le_0_compat; [apply iw_bounds | apply ih_bounds].
Qed.

Lemma inter_area_degenerate :
  degenerate a \/ degenerate b -> inter_area a b == 0.
Proof.
  intros Hd. rewrite inter_area_eq.
  assert (Hc : (bw a <= 0 \/ bw b <= 0) \/ (bh a <= 0 \/ bh b <= 0))
    by (unfold degenerate in Hd; tauto).
  destruct Hc as [Hw | Hh].
  - rewrite (iw_degenerate Hw). ring.
  - rewrite (ih_degenerate Hh). ring.
Qed.

Lemma inter_le_union :
  inter_area a b <= union_area a b \/ inter_area a b == 0.
Proof.
  destruct (Qlt_le_dec 0 (bw a)) as [Hwa|Hwa];
    [|right; apply inter_area_degenerate; unfold degenerate; auto].
  destruct (Qlt_le_dec 0 (bh a)) as [Hha|Hha];
    [|right; apply inter_area_degenerate; unfold degenerate; auto].
  destruct (Qlt_le_dec 0 (bw b)) as [Hwb|Hwb];
    [|right; apply inter_area_degenerate; unfold degenerate; auto].
  destruct (Qlt_le_dec 0 (bh b)) as [Hhb|Hhb];
    [|right; apply inter_area_degenerate; unfold degenerate; auto].
  left. rewrite union_area_eq, inter_area_eq.
  destruct iw_bounds as (W0 & Wa & Wb), ih_bounds as (H0 & Ha & Hb).
  assert (iw * ih <= bw a * bh a)
    by (apply Qmult_le_compat_nonneg; split; auto with qarith; lra).
  assert (iw * ih <= bw b * bh b)
    by (apply Qmult_le_compat_nonneg; split; auto with qarith; lra).
  lra.
Qed.

Lemma compute_iou_eq :
  compute_iou a b
  = if Qltb 0 (union_area a b)
    then inter_area a b / union_area a b else 0.
Proof. reflexivity. Qed.

Lemma compute_iou_unit : 0 <= compute_iou a b <= 1.
Proof.
  rewrite compute_iou_eq.
  destruct (Qltb 0 (union_area a b)) eqn:E; [|lra].
  apply Qltb_lt in E.
  pose proof inter_area_nonneg as Hn.
  split.
  - apply Qle_shift_div_l; auto. lra.
  - apply Qle_shift_div_r; auto.
    destruct inter_le_union as [Hle | Hz]; lra.
Qed.

Lemma compute_iou_guard :
  union_area a b <= 0 -> compute_iou a b = 0.
Proof.
  intros Hu. rewrite compute_iou_eq.
  destruct (Qltb 0 (union_area a b)) eqn:E; auto.
  apply Qltb_lt in E. lra.
Qed.

Lemma compute_iou_degenerate :
  degenerate a \/ degenerate b -> compute_iou a b == 0.
Proof.
  intros Hd. rewrite compute_iou_eq.
  destruct (Qltb 0 (union_area a b)) eqn:E; [|reflexivity].
  rewrite (inter_area_degenerate Hd). unfold Qdiv. ring.
Qed.

End Extents.

End GeometryFacts.

(* ================================================================== *)
(** * Lists and dictionaries                                            *)
(* ================================================================== *)

Module DictFacts.
Import Py TrackerSpec.

#[local] Open Scope Z_scope.

Section Subseq.
Context {A : Type}.

Lemma subseq_refl (l : list A) : subseq l l.
Proof. induction l; [apply subseq_nil | apply subseq_keep; auto]. Qed.

Lemma subseq_nil_l (l : list A) : subseq [] l.
Proof. induction l; [apply subseq_nil | apply subseq_skip; auto]. Qed.

Lemma subseq_In (l1 l2 : list A) x : subseq l1 l2 -> In x l1 -> In x l2.
Proof.
  induction 1; simpl; intros Hin; auto.
  destruct Hin; auto.
Qed.

Lemma subseq_Forall (P : A -> Prop) l1 l2 :
  subseq l1 l2 -> Forall P l2 -> Forall P l1.
Proof.
  induction 1; intros HF; auto; inversion HF; subst; auto.
Qed.

Lemma subseq_NoDup (l1 l2 : list A) : subseq l1 l2 -> NoDup l2 -> NoDup l1.
Proof.
  induction 1; intros HN; auto; inversion HN; subst; auto.
  constructor; auto. intros Hin. eauto using subseq_In.
Qed.

Lemma subseq_trans (l1 l2 l3 : list A) :
  subseq l1 l2 -> subseq l2 l3 -> subseq l1 l3.
Proof.
  intros H12 H23. revert l1 H12.
  induction H23; intros l0 H12.
  - inversion H12; apply subseq_nil.
  - apply subseq_skip; auto.
  - inversion H12; subst; [apply subseq_skip | apply subseq_keep]; auto.
Qed.

Lemma subseq_filter (p : A -> bool) (l : list A) : subseq (filter p l) l.
Proof.
  induction l as [|x l IH]; simpl; [apply subseq_nil|].
  destruct (p x); [apply subseq_keep | apply subseq_skip]; auto.
Qed.

End Subseq.

Lemma subseq_map {A B} (f : A -> B) l1 l2 :
  subseq l1 l2 -> subseq (map f l1) (map f l2).
Proof.
  induction 1; simpl;
    [apply subseq_nil | apply subseq_skip | apply subseq_keep]; auto.
Qed.

Lemma subseq_ascending l1 l2 : subseq l1 l2 -> ascending l2 -> ascending l1.
Proof.
  unfold ascending. induction 1; intros HS; auto.
  - inversion HS; subst; auto.
  - inversion HS; subst. constructor; auto.
    eapply subseq_Forall; eauto.
Qed.

Lemma ascending_NoDup l : ascending l -> NoDup l.
Proof.
  unfold ascending. induction 1; constructor; auto.
  intros Hin. rewrite Forall_forall in H0. apply H0 in Hin. lia.
Qed.

Lemma ascending_snoc l n : ascending l -> below n l -> ascending (l ++ [n]).
Proof.
  unfold ascending, below. induction 1; intros Hb; simpl.
  - constructor; constructor.
  - inversion Hb; subst. constructor; auto.
    apply Forall_app. split; auto.
Qed.

Lemma below_weaken n m l : n <= m -> below n l -> below m l.
Proof.
  unfold below. intros Hle HF. eapply Forall_impl; [|exact HF].
  simpl; intros; lia.
Qed.

Lemma below_notin n l : below n l -> ~ In n l.
Proof.
  unfold below. rewrite Forall_forall. intros HF Hin.
  apply HF in Hin. lia.
Qed.

Lemma ids_from_In n k x : In x (ids_from n k) <-> n <= x < n + Z.of_nat k.
Proof.
  unfold ids_from. rewrite in_map_iff. split.
  - intros (i & <- & Hi). apply in_seq in Hi. lia.
  - intros Hx. exists (Z.to_nat (x - n)). split; [lia|].
    apply in_seq. lia.
Qed.

Lemma ids_from_snoc n k : ids_from n (S k) = ids_from n k ++ [n + Z.of_nat k].
Proof.
  unfold ids_from. rewrite seq_S, map_app. reflexivity.
Qed.

Lemma ids_from_ascending n k : ascending (ids_from n k).
Proof.
  induction k.
  - constructor.
  - rewrite ids_from_snoc. apply ascending_snoc; auto.
    unfold below. rewrite Forall_forall. intros x Hx.
    apply ids_from_In in Hx. lia.
Qed.

Lemma ascending_app l1 l2 n :
  ascending l1 -> below n l1 -> ascending l2 ->
  Forall (fun k => n <= k) l2 -> ascending (l1 ++ l2).
Proof.
  unfold ascending, below. induction 1; intros Hb H2 Hge; simpl; auto.
  inversion Hb; subst. constructor; auto.
  apply Forall_app. split; auto.
  eapply Forall_impl; [|exact Hge]. simpl; intros; lia.
Qed.

Section Dict.
Context {V : Type}.
Implicit Types (d : dict V) (k : Z) (v : V).

Lemma get_In k v d : get k d = Some v -> In (k, v) d.
Proof.
  induction d as [|[k' v'] d IH]; simpl; [discriminate|].
  destruct (Z.eqb_spec k k'); intros E.
  - inversion E; subst; auto.
  - auto.
Qed.

Lemma get_keys k v d : get k d = Some v -> In k (keys d).
Proof.
  intros E. apply get_In in E. apply (in_map fst) in E. exact E.
Qed.

Lemma get_None k d : get k d = None <-> ~ In k (keys d).
Proof.
  induction d as [|[k' v'] d IH]; simpl; [tauto|].
  destruct (Z.eqb_spec k k'); split; intros E.
  - discriminate.
  - exfalso; apply E; auto.
  - intros [E'|E']; [congruence|]. apply IH in E; auto.
  - apply IH. tauto.
Qed.

Lemma keys_get k d : In k (keys d) -> exists v, get k d = Some v.
Proof.
  intros Hin. destruct (get k d) eqn:E; eauto.
  apply get_None in E. contradiction.
Qed.

Lemma In_get k v d : NoDup (keys d) -> In (k, v) d -> get k d = Some v.
Proof.
  induction d as [|[k' v'] d IH]; simpl; [tauto|].
  intros HN Hin. inversion HN; subst.
  destruct Hin as [E|Hin].
  - inversion E; subst. rewrite Z.eqb_refl. reflexivity.
  - destruct (Z.eqb_spec k k'); subst; auto.
    exfalso. apply H1. apply (in_map fst) in Hin. exact Hin.
Qed.

Lemma get_set_same k v d : get k (set k v d) = Some v.
Proof.
  induction d as [|[k' v'] d IH]; simpl.
  - rewrite Z.eqb_refl; reflexivity.
  - destruct (Z.eqb_spec k k'); simpl.
    + subst. rewrite Z.eqb_refl; reflexivity.
    + destruct (Z.eqb_spec k k'); [contradiction|auto].
Qed.

Lemma get_set_other k k' v d : k <> k' -> get k' (set k v d) = get k' d.
Proof.
  intros Hne. induction d as [|[k0 v0] d IH]; simpl.
  - destruct (Z.eqb_spec k' k); [congruence|reflexivity].
  - destruct (Z.eqb_spec k k0); simpl.
    + subst. destruct (Z.eqb_spec k' k0); [congruence|reflexivity].
    + rewrite IH. reflexivity.
Qed.

Lemma keys_set_in k v d : In k (keys d) -> keys (set k v d) = keys d.
Proof.
  induction d as [|[k0 v0] d IH]; simpl; [tauto|].
  intros Hin. destruct (Z.eqb_spec k k0); simpl; auto.
  f_equal. apply IH. destruct Hin; congruence.
Qed.

Lemma set_notin k v d : ~ In k (keys d) -> set k v d = d ++ [(k, v)].
Proof.
  induction d as [|[k0 v0] d IH]; simpl; auto.
  intros Hin. destruct (Z.eqb_spec k k0); simpl.
  - exfalso; apply Hin; auto.
  - f_equal. apply IH. tauto.
Qed.

Lemma del_subseq k d : subseq (del k d) d.
Proof.
  induction d as [|[k0 v0] d IH]; simpl; [apply subseq_nil|].
  destruct (Z.eqb k k0).
  - apply subseq_skip, subseq_refl.
  - apply subseq_keep, IH.
Qed.

Lemma get_del_other k k' d : k <> k' -> get k' (del k d) = get k' d.
Proof.
  intros Hne. induction d as [|[k0 v0] d IH]; simpl; auto.
  destruct (Z.eqb_spec k k0); simpl.
  - subst. destruct (Z.eqb_spec k' k0); [congruence|reflexivity].
  - rewrite IH. reflexivity.
Qed.

Lemma get_subseq k v d d' :
  NoDup (keys d) -> subseq d' d -> get k d' = Some v -> get k d = Some v.
Proof.
  intros HN Hs E. apply In_get; auto.
  eapply subseq_In; eauto. apply get_In; auto.
Qed.

Lemma get_app_l k v d d' :
  get k d = Some v -> get k (d ++ d') = Some v.
Proof.
  induction d as [|[k0 v0] d IH]; simpl; [discriminate|].
  destruct (Z.eqb k k0); auto.
Qed.

Lemma get_app_r k d d' :
  ~ In k (keys d) -> get k (d ++ d') = get k d'.
Proof.
  induction d as [|[k0 v0] d IH]; simpl; auto.
  intros Hin. destruct (Z.eqb_spec k k0).
  - exfalso; apply Hin; auto.
  - apply IH. tauto.
Qed.

Lemma keys_app d d' : keys (d ++ d') = keys d ++ keys d'.
Proof. unfold keys. apply map_app. Qed.

End Dict.

Lemma keys_map_values {V W} (f : Z * V -> W) (d : dict V) :
  keys (map (fun e => (fst e, f e)) d) = keys d.
Proof.
  unfold keys. rewrite map_map. simpl. reflexivity.
Qed.

Lemma get_map_values {V W} (f : Z * V -> W) (d : dict V) k :
  get k (map (fun e => (fst e, f e)) d)
  = match get k d with Some v => Some (f (k, v)) | None => None end.
Proof.
  induction d as [|[k0 v0] d IH]; simpl; auto.
  destruct (Z.eqb_spec k k0); subst; auto.
Qed.

Lemma fold_left_ext_in {A B} (f g : A -> B -> A) (l : list B) (a : A) :
  (forall x acc, In x l -> f acc x = g acc x) ->
  fold_left f l a = fold_left g l a.
Proof.
  revert a. induction l as [|x l IH]; simpl; intros a Hfg; auto.
  rewrite Hfg by auto. apply IH. intros; apply Hfg; auto.
Qed.

Lemma remove_subseq x l : subseq (Py.remove x l) l.
Proof.
  induction l as [|y l IH]; simpl; [apply subseq_nil|].
  destruct (Nat.eqb x y).
  - apply subseq_skip, subseq_refl.
  - apply subseq_keep, IH.
Qed.

End DictFacts.

(* ================================================================== *)
(** * A single track                                                    *)
(* ================================================================== *)

Module TrackFacts.
Import Py PyFacts AdvancedTrack.

#[local] Open Scope Z_scope.

(** Unfolds [update] down to its branches. *)
Ltac update_cases :=
  unfold update, _update_kalman; cbn [history frame_id];
  repeat match goal with
    | |- context [if ?b then _ else _] => destruct b
    | |- context [match from_end ?n ?l with _ => _ end] =>
        destruct (from_end n l) as [[[? ?] ?]|]
    end; cbn.

Lemma update_time_since_update self b sc f :
  time_since_update (update self b sc f) = 0.
Proof. update_cases; reflexivity. Qed.

Lemma update_class_name self b sc f :
  class_name (update self b sc f) = class_name self.
Proof. update_cases; reflexivity. Qed.

Lemma update_age self b sc f : age (update self b sc f) = age self + 1.
Proof. update_cases; reflexivity. Qed.

Lemma update_confidence_history self b sc f :
  confidence_history (update self b sc f)
  = if 10 <? len (confidence_history self ++ [sc])
    then tl (confidence_history self ++ [sc])
    else confidence_history self ++ [sc].
Proof. update_cases; reflexivity. Qed.

Lemma update_is_confirmed self b sc f :
  is_confirmed (update self b sc f)
  = is_confirmed self
    || ((3 <=? age (update self b sc f))
        && Qltb (1 # 2) (mean (confidence_history (update self b sc f)))).
Proof.
  rewrite update_age, update_confidence_history.
  unfold update, _update_kalman; cbn [history frame_id].
  repeat match goal with
    | |- context [match from_end ?n ?l with _ => _ end] =>
        destruct (from_end n l) as [[[? ?] ?]|]
    | |- context [if (2 <=? ?x) then _ else _] => destruct (2 <=? x)
    | |- context [if (0 <? ?x) then _ else _] => destruct (0 <? x)
    end; cbn;
  destruct (3 <=? age self + 1);
  destruct (Qltb (1 # 2) _); cbn;
  destruct (is_confirmed self); reflexivity.
Qed.

End TrackFacts.

(* ================================================================== *)
(** * The tracker: how each step changes the track table                *)
(* ================================================================== *)

Module TrackerFacts.
Import Py PyFacts DictFacts TrackerSpec AdvancedMultiObjectTracker.

#[local] Open Scope Z_scope.

Lemma same_settings_refl t : same_settings t t.
Proof. unfold same_settings; tauto. Qed.

Lemma same_settings_trans t1 t2 t3 :
  same_settings t1 t2 -> same_settings t2 t3 -> same_settings t1 t3.
Proof.
  unfold same_settings. intros (?&?&?&?&?&?) (?&?&?&?&?&?).
  repeat split; congruence.
Qed.

Lemma ids_app o1 o2 : ids (o1 ++ o2) = ids o1 ++ ids o2.
Proof. unfold ids. apply map_app. Qed.

Lemma ids_from_cons n k : ids_from n (S k) = n :: ids_from (n + 1) k.
Proof.
  unfold ids_from. simpl. rewrite Z.add_0_r. f_equal.
  rewrite <- seq_shift, map_map. apply map_ext. intros i. lia.
Qed.

(** ** [begin_frame] *)

Lemma begin_frame_keys t : keys (tracks (begin_frame t)) = keys (tracks t).
Proof.
  unfold begin_frame; simpl.
  apply (keys_map_values (fun e => aged (snd e))).
Qed.

Lemma begin_frame_get t k :
  get k (tracks (begin_frame t))
  = match get k (tracks t) with
    | Some track => Some (aged track)
    | None => None
    end.
Proof.
  unfold begin_frame; simpl.
  apply (get_map_values (fun e => aged (snd e))).
Qed.

Lemma begin_frame_consistent t : consistent t -> consistent (begin_frame t).
Proof.
  intros [Ha Hb Hr Hl]. constructor.
  - rewrite begin_frame_keys. exact Ha.
  - rewrite begin_frame_keys. exact Hb.
  - exact Hr.
  - unfold begin_frame; simpl. apply Forall_map.
    eapply Forall_impl; [|exact Hl]. simpl. intros; lia.
Qed.

(** ** Creation *)

Lemma create_track_step c out s b sc :
  below (track_id_count s) (keys (tracks s)) ->
  create_track c (out, s) b sc = (out, s)
  \/ exists o s',
      create_track c (out, s) b sc = (out ++ [o], s')
      /\ o_track_id o = track_id_count s
      /\ tracks s'
         = tracks s
           ++ [(track_id_count s,
                T.__init__ (track_id_count s) b sc (frame_id s) c)]
      /\ track_id_count s' = track_id_count s + 1
      /\ same_settings s s'.
Proof.
  intros Hb. unfold create_track.
  destruct (Qltb (track_thresh s) sc); [right|left; reflexivity].
  eexists; eexists. split; [reflexivity|]. simpl.
  repeat split.
  apply set_notin. apply below_notin. exact Hb.
Qed.

Section CreateFold.
Context {X : Type} (fb : X -> BBox Q) (fs : X -> Q) (c : string).

Lemma create_fold (l : list X) : forall out s,
  below (track_id_count s) (keys (tracks s)) ->
  exists news out' s',
    fold_left (fun acc x => create_track c acc (fb x) (fs x)) l (out, s)
    = (out', s')
    /\ ids out' = ids out ++ keys news
    /\ tracks s' = tracks s ++ news
    /\ keys news = ids_from (track_id_count s) (List.length news)
    /\ track_id_count s' = track_id_count s + len news
    /\ Forall (fun e => exists b sc,
                 snd e = T.__init__ (fst e) b sc (frame_id s) c) news
    /\ same_settings s s'.
Proof.
  induction l as [|x l IH]; intros out s Hb.
  - exists [], out, s. simpl. rewrite !app_nil_r. unfold len; simpl.
    split; [|split; [|split; [|split; [|split; [|split]]]]];
      auto using same_settings_refl. lia.
  - cbn [fold_left].
    destruct (create_track_step c out s (fb x) (fs x) Hb)
      as [E | (o & s1 & E & Ho & Ht & Hc & Hs)]; rewrite E.
    + apply IH; auto.
    + assert (Hb' : below (track_id_count s1) (keys (tracks s1))).
      { rewrite Ht, Hc, keys_app. simpl. apply Forall_app. split.
        - eapply below_weaken; [|exact Hb]. lia.
        - constructor; [lia|constructor]. }
      destruct (IH (out ++ [o]) s1 Hb')
        as (news & out' & s' & H0 & H1 & H2 & H3 & H4 & H5 & H6).
      exists ((track_id_count s,
               T.__init__ (track_id_count s) (fb x) (fs x)
                 (frame_id s) c) :: news), out', s'.
      split; [exact H0|].
      assert (Hf : frame_id s1 = frame_id s) by apply Hs.
      split; [|split; [|split; [|split; [|split]]]].
      * rewrite H1, ids_app, <- app_assoc. simpl. rewrite Ho. reflexivity.
      * rewrite H2, Ht, <- app_assoc. reflexivity.
      * simpl. rewrite ids_from_cons, H3, Hc. reflexivity.
      * rewrite H4, Hc. unfold len. simpl List.length. lia.
      * constructor; simpl; eauto.
        eapply Forall_impl; [|exact H5]. simpl.
        intros e (b & sc & He). rewrite Hf in He. eauto.
      * eapply same_settings_trans; eauto.
Qed.

End CreateFold.

(** ** Updating the matched tracks *)

Section MatchedFold.
Variables (c : string) (bbs : list (BBox Q)) (scs : list Q).

Lemma matched_fold (ms : list (Z * nat)) : forall out s,
  NoDup (map fst ms) ->
  (forall k, In k (map fst ms) -> In k (keys (tracks s))) ->
  exists out' s',
    fold_left (update_matched c bbs scs) ms (out, s) = (out', s')
    /\ ids out' = ids out ++ map fst ms
    /\ keys (tracks s') = keys (tracks s)
    /\ (forall k tr, In k (map fst ms) -> get k (tracks s) = Some tr ->
        exists b sc,
          get k (tracks s') = Some (T.update tr b sc (frame_id s)))
    /\ (forall k, ~ In k (map fst ms) ->
        get k (tracks s') = get k (tracks s))
    /\ track_id_count s' = track_id_count s
    /\ same_settings s s'.
Proof.
  induction ms as [|[k j] ms IH]; intros out s HN Hin.
  - exists out, s. simpl. rewrite app_nil_r.
    split; [|split; [|split; [|split; [|split; [|split]]]]];
      auto using same_settings_refl.
    intros k tr [].
  - cbn [fold_left]. simpl in HN, Hin. inversion HN as [|? ? Hk HN']; subst.
    destruct (keys_get k (tracks s) (Hin k (or_introl eq_refl)))
      as [tr Htr].
    unfold update_matched at 2. rewrite Htr.
    set (tr' := T.update tr (nth j bbs default_bbox) (nth j scs 0%Q)
                  (frame_id s)).
    set (s1 := with_tracks (set k tr' (tracks s)) s).
    assert (Hkeys1 : keys (tracks s1) = keys (tracks s)).
    { subst s1; simpl. apply keys_set_in. eauto using get_keys. }
    destruct (IH (out ++ [report s k tr' c]) s1 HN')
      as (out' & s' & H0 & H1 & H2 & H3 & H4 & H5 & H6).
    { intros k0 Hk0. rewrite Hkeys1. auto. }
    exists out', s'. split; [exact H0|].
    split; [|split; [|split; [|split; [|split]]]].
    + rewrite H1, ids_app, <- app_assoc. reflexivity.
    + congruence.
    + intros k0 tr0 Hin0 Hg. simpl in Hin0. destruct Hin0 as [<-|Hk0].
      * exists (nth j bbs default_bbox), (nth j scs 0%Q).
        rewrite (H4 k Hk). subst s1; simpl.
        rewrite get_set_same. subst tr'. congruence.
      * assert (k0 <> k) by (intros ->; contradiction).
        apply (H3 k0 tr0 Hk0). subst s1; simpl.
        rewrite get_set_other by congruence. exact Hg.
    + intros k0 Hk0. simpl in Hk0. rewrite H4 by tauto. subst s1; simpl.
      apply get_set_other. intros ->. tauto.
    + exact H5.
    + eapply same_settings_trans; [|exact H6].
      unfold same_settings; simpl; tauto.
Qed.

End MatchedFold.

(** ** The association keeps the order of the table *)

Lemma match_fold_subseq cm th (its : list (nat * Z)) : forall m u,
  exists m' u',
    fold_left (match_step cm th) its (m, u) = (m ++ m', u')
    /\ subseq (map fst m') (map snd its).
Proof.
  induction its as [|[i k] its IH]; intros m u.
  - exists [], u. simpl. rewrite app_nil_r. split; [reflexivity|apply subseq_nil].
  - cbn [fold_left]. unfold match_step at 2.
    destruct (fst (best_match_for cm th i u)) as [j|].
    + destruct (IH (m ++ [(k, j)]) (remove j u)) as (m' & u' & E & Hs).
      exists ((k, j) :: m'), u'. rewrite E, <- app_assoc. simpl.
      split; [reflexivity|apply subseq_keep; exact Hs].
    + destruct (IH m u) as (m' & u' & E & Hs).
      exists m', u'. rewrite E. simpl.
      split; [reflexivity|apply subseq_skip; exact Hs].
Qed.

Lemma combine_seq_snd {A} (l : list A) n :
  map snd (combine (seq n (List.length l)) l) = l.
Proof.
  revert n. induction l; simpl; intros; f_equal; auto.
Qed.

Lemma match_tracks_subseq t d bbs scs c :
  subseq (map fst (fst (_match_tracks t d bbs scs c))) (keys d).
Proof.
  unfold _match_tracks. destruct d as [|e d]; [apply subseq_nil|].
  set (d0 := e :: d).
  match goal with
  | |- context [fold_left (match_step ?cm ?th) ?its ?a] =>
      destruct (match_fold_subseq cm th its [] (snd a)) as (m' & u' & E & Hs)
  end.
  simpl snd in E. rewrite E. simpl fst.
  rewrite combine_seq_snd in Hs. exact Hs.
Qed.

(** ** The lost-track sweep *)

Lemma remove_track_spec s k :
  let s' := remove_track s k in
  subseq (tracks s') (tracks s)
  /\ (forall k', k' <> k -> get k' (tracks s') = get k' (tracks s))
  /\ incl (removed_tracks s) (removed_tracks s')
  /\ (forall k', In k' (removed_tracks s') ->
      In k' (removed_tracks s) \/ k' = k)
  /\ In k (removed_tracks s')
  /\ track_id_count s' = track_id_count s
  /\ max_time_lost s' = max_time_lost s
  /\ frame_id s' = frame_id s.
Proof.
  unfold remove_track. destruct (mem k (removed_tracks s)) eqn:E; simpl.
  - split; [apply subseq_refl|]. split; [auto|]. split; [apply incl_refl|].
    split; [auto|]. split; [|auto].
    unfold mem in E. apply existsb_exists in E.
    destruct E as (x & Hx & Ex). apply Z.eqb_eq in Ex. congruence.
  - unfold set_add. rewrite E.
    split; [apply del_subseq|].
    split; [intros; apply get_del_other; congruence|].
    split; [apply incl_appl, incl_refl|].
    split; [intros k' Hk'; apply in_app_or in Hk'; simpl in Hk'; intuition|].
    split; [apply in_or_app; simpl; auto|auto].
Qed.

Lemma sweep_fold (l : list Z) : forall s,
  let s' := fold_left remove_track l s in
  subseq (tracks s') (tracks s)
  /\ (forall k, ~ In k l -> get k (tracks s') = get k (tracks s))
  /\ incl (removed_tracks s) (removed_tracks s')
  /\ (forall k, In k (removed_tracks s') ->
      In k (removed_tracks s) \/ In k l)
  /\ (forall k, In k l -> In k (removed_tracks s'))
  /\ track_id_count s' = track_id_count s
  /\ max_time_lost s' = max_time_lost s
  /\ frame_id s' = frame_id s.
Proof.
  induction l as [|k l IH]; intros s; cbn [fold_left].
  - simpl. split; [apply subseq_refl|]. split; [auto|].
    split; [apply incl_refl|]. split; [auto|]. split; [|auto].
    intros k [].
  - destruct (remove_track_spec s k)
      as (A1 & A2 & A3 & A4 & A5 & A6 & A7 & A8).
    destruct (IH (remove_track s k))
      as (B1 & B2 & B3 & B4 & B5 & B6 & B7 & B8).
    split; [eapply subseq_trans; eauto|].
    split.
    { intros k' Hk'. simpl in Hk'. rewrite B2 by tauto.
      apply A2. intros ->. tauto. }
    split; [eapply incl_tran; eauto|].
    split.
    { intros k' Hk'. apply B4 in Hk'. destruct Hk' as [Hk'|Hk'].
      - apply A4 in Hk'. simpl. intuition.
      - simpl; auto. }
    split.
    { intros k' [<-|Hk']; auto. }
    split; [congruence|]. split; congruence.
Qed.

(** ** One class round *)

Lemma consistent_NoDup t : consistent t -> NoDup (keys (tracks t)).
Proof. intros [Ha _ _ _]. apply ascending_NoDup, Ha. Qed.

Lemma class_tracks_subseq t c : subseq (class_tracks t c) (tracks t).
Proof. apply subseq_filter. Qed.

Lemma class_tracks_get t c k :
  consistent t -> In k (keys (class_tracks t c)) ->
  exists tr, get k (tracks t) = Some tr /\ T.class_name tr = c.
Proof.
  intros Hc Hin. unfold keys in Hin. apply in_map_iff in Hin.
  destruct Hin as ([k' tr] & <- & Hin). unfold class_tracks in Hin.
  apply filter_In in Hin. destruct Hin as [Hin Hcl]. simpl in *.
  exists tr. split.
  - apply In_get; auto using consistent_NoDup.
  - apply String.eqb_eq. exact Hcl.
Qed.

Lemma class_round t dets c :
  consistent t ->
  exists out t' matched (news : dict T.track),
    _update_class_tracks t dets c = (out, t')
    /\ ids out = matched ++ keys news
    /\ subseq matched (keys (class_tracks t c))
    /\ keys (tracks t') = keys (tracks t) ++ keys news
    /\ keys news = ids_from (track_id_count t) (List.length news)
    /\ track_id_count t' = track_id_count t + len news
    /\ (forall k tr, In k matched -> get k (tracks t) = Some tr ->
        exists b sc,
          get k (tracks t') = Some (T.update tr b sc (frame_id t)))
    /\ (forall k, In k (keys (tracks t)) -> ~ In k matched ->
        get k (tracks t') = get k (tracks t))
    /\ (forall k, In k (keys news) ->
        exists b sc,
          get k (tracks t') = Some (T.__init__ k b sc (frame_id t) c))
    /\ same_settings t t'.
Proof.
  intros Hc.
  assert (Hnews : forall (d news : dict T.track) n f,
             below n (keys d) ->
             keys news = ids_from n (List.length news) ->
             Forall (fun e => exists b sc,
                       snd e = T.__init__ (fst e) b sc f c) news ->
             forall k, In k (keys news) ->
             exists b sc, get k (d ++ news) = Some (T.__init__ k b sc f c)).
  { intros d news n f Hb Hk HF k Hin.
    assert (Hnd : NoDup (keys news))
      by (rewrite Hk; apply ascending_NoDup, ids_from_ascending).
    rewrite get_app_r.
    - unfold keys in Hin. apply in_map_iff in Hin.
      destruct Hin as ([k' tr] & <- & Hin). simpl.
      rewrite Forall_forall in HF. destruct (HF _ Hin) as (b & sc & E).
      simpl in E. exists b, sc. rewrite <- E. apply In_get; auto.
    - rewrite Hk in Hin. apply ids_from_In in Hin.
      intros Hd. unfold below in Hb. rewrite Forall_forall in Hb.
      apply Hb in Hd. lia. }
  unfold _update_class_tracks.
  destruct dets as [|d0 dets].
  { exists [], t, [], []. simpl. rewrite !app_nil_r.
    unfold len; simpl.
    split; [reflexivity|]. split; [reflexivity|].
    split; [apply subseq_nil_l|].
    split; [reflexivity|]. split; [reflexivity|]. split; [lia|].
    split; [intros k tr []|]. split; [auto|].
    split; [intros k []|apply same_settings_refl]. }
  fold (class_tracks t c).
  destruct (class_tracks t c) as [|e0 ct] eqn:Ect.
  - destruct (create_fold d_bbox d_score c (d0 :: dets) [] t
                (ids_below_count t Hc))
      as (news & out' & s' & E & H1 & H2 & H3 & H4 & H5 & H6).
    exists out', s', [], news. split; [exact E|].
    split; [exact H1|]. split; [apply subseq_nil|].
    split; [rewrite H2; apply keys_app|]. split; [exact H3|].
    split; [exact H4|]. split; [intros k tr []|].
    split.
    { intros k Hk _. rewrite H2. destruct (keys_get _ _ Hk) as [v Hv].
      rewrite Hv. apply get_app_l. exact Hv. }
    split; [|exact H6].
    rewrite H2. eapply Hnews; eauto. apply Hc.
  - rewrite <- Ect.
    pose proof (match_tracks_subseq t (class_tracks t c)
                  (map d_bbox (d0 :: dets)) (map d_score (d0 :: dets)) c)
      as Hsub.
    destruct (_match_tracks t (class_tracks t c) (map d_bbox (d0 :: dets))
                (map d_score (d0 :: dets)) c) as [ms um].
    simpl fst in Hsub.
    assert (Hsub' : subseq (map fst ms) (keys (tracks t))).
    { eapply subseq_trans; [exact Hsub|].
      apply subseq_map, class_tracks_subseq. }
    destruct (matched_fold c (map d_bbox (d0 :: dets))
                (map d_score (d0 :: dets)) ms [] t)
      as (out1 & s1 & E1 & A1 & A2 & A3 & A4 & A5 & A6).
    { eapply subseq_NoDup; eauto using consistent_NoDup. }
    { intros k Hk. eapply subseq_In; eauto. }
    rewrite E1.
    assert (Hb1 : below (track_id_count s1) (keys (tracks s1))).
    { rewrite A5, A2. apply Hc. }
    destruct (create_fold
                (fun i => nth i (map d_bbox (d0 :: dets)) default_bbox)
                (fun i => nth i (map d_score (d0 :: dets)) 0%Q)
                c um out1 s1 Hb1)
      as (news & out' & s' & E & H1 & H2 & H3 & H4 & H5 & H6).
    assert (Hf1 : frame_id s1 = frame_id t) by apply A6.
    exists out', s', (map fst ms), news.
    split; [exact E|].
    split; [rewrite H1, A1; reflexivity|].
    split; [rewrite Ect in Hsub; rewrite Ect; exact Hsub|].
    split; [rewrite H2, keys_app, A2; reflexivity|].
    split; [rewrite H3, A5; reflexivity|].
    split; [rewrite H4, A5; reflexivity|].
    split.
    { intros k tr Hk Hg. destruct (A3 k tr Hk Hg) as (b & sc & Hg').
      exists b, sc. rewrite H2. apply get_app_l. exact Hg'. }
    split.
    { intros k Hk Hnm. rewrite H2, <- (A4 k Hnm).
      rewrite <- A2 in Hk. destruct (keys_get _ _ Hk) as [v Hv].
      rewrite Hv. apply get_app_l. exact Hv. }
    split; [|eapply same_settings_trans; eauto].
    rewrite H2. rewrite <- Hf1. eapply Hnews; eauto.
Qed.

Lemma class_round_consistent t dets c :
  consistent t -> consistent (snd (_update_class_tracks t dets c)).
Proof.
  intros Hc.
  destruct (class_round t dets c Hc)
    as (out & t' & matched & news & E & H1 & H2 & H3 & H4 & H5 & H6 & H7
        & H8 & H9).
  rewrite E; simpl. destruct Hc as [Ha Hb Hr Hl].
  assert (Hge : Forall (fun k => track_id_count t <= k) (keys news)).
  { rewrite Forall_forall. intros k Hk. rewrite H4 in Hk.
    apply ids_from_In in Hk. lia. }
  assert (Hasc : ascending (keys (tracks t'))).
  { rewrite H3. eapply ascending_app; eauto.
    rewrite H4. apply ids_from_ascending. }
  constructor.
  - exact Hasc.
  - rewrite H3, H5. apply Forall_app. split.
    + eapply below_weaken; [|exact Hb]. unfold len; lia.
    + rewrite Forall_forall. intros k Hk. rewrite H4 in Hk.
      apply ids_from_In in Hk. unfold len. lia.
  - destruct H9 as (_ & _ & _ & _ & _ & ->). rewrite H5.
    eapply below_weaken; [|exact Hr]. unfold len; lia.
  - rewrite Forall_forall. intros [k tr] Hin. simpl.
    assert (Hg : get k (tracks t') = Some tr)
      by (apply In_get; auto using ascending_NoDup).
    assert (Hk : In k (keys (tracks t')))
      by (eapply get_keys; eauto).
    rewrite H3 in Hk. apply in_app_or in Hk. destruct Hk as [Hk|Hk].
    + destruct (in_dec Z.eq_dec k matched) as [Hm|Hm].
      * destruct (keys_get _ _ Hk) as [tr0 Hg0].
        destruct (H6 k tr0 Hm Hg0) as (b & sc & Hu).
        rewrite Hu in Hg. inversion Hg; subst.
        rewrite TrackFacts.update_time_since_update. lia.
      * rewrite (H7 k Hk Hm) in Hg. apply get_In in Hg.
        rewrite Forall_forall in Hl. apply (Hl _ Hg).
    + destruct (H8 k Hk) as (b & sc & Hu). rewrite Hu in Hg.
      inversion Hg; subst. simpl. lia.
Qed.

Lemma to_remove_lost t k :
  consistent t ->
  In k (keys (filter
                (fun e => max_time_lost t <? T.time_since_update (snd e))
                (tracks t))) ->
  exists tr, get k (tracks t) = Some tr
             /\ max_time_lost t < T.time_since_update tr.
Proof.
  intros Hc Hin. unfold keys in Hin. apply in_map_iff in Hin.
  destruct Hin as ([k' tr] & <- & Hin). apply filter_In in Hin.
  destruct Hin as [Hin Hlt]. simpl in *. exists tr. split.
  - apply In_get; auto using consistent_NoDup.
  - lia.
Qed.

Lemma sweep_consistent t : consistent t -> consistent (_handle_lost_tracks t).
Proof.
  intros Hc. unfold _handle_lost_tracks.
  match goal with
  | |- consistent (fold_left remove_track ?l t) =>
      destruct (sweep_fold l t) as (S1 & S2 & S3 & S4 & S5 & S6 & S7 & S8);
      assert (Hl : forall k, In k l -> In k (keys (tracks t)))
  end.
  { intros k Hk. destruct (to_remove_lost t k Hc Hk) as (tr & Hg & _).
    eauto using get_keys. }
  destruct Hc as [Ha Hb Hr Hn].
  constructor.
  - eapply subseq_ascending; [apply subseq_map; exact S1|exact Ha].
  - rewrite S6. eapply subseq_Forall; [apply subseq_map; exact S1|exact Hb].
  - rewrite S6. unfold below. rewrite Forall_forall. intros k Hk.
    apply S4 in Hk. unfold below in Hb, Hr.
    rewrite Forall_forall in Hb, Hr. destruct Hk; auto.
  - eapply subseq_Forall; [exact S1|exact Hn].
Qed.

Lemma init_consistent a b c d : consistent (__init__ a b c d).
Proof. constructor; simpl; constructor. Qed.

Lemma arises_consistent t : arises t -> consistent t.
Proof.
  induction 1;
    auto using init_consistent, begin_frame_consistent,
      class_round_consistent, sweep_consistent.
Qed.

(** ** [update] as the sequence of its steps *)

Lemma update_empty t :
  update t [] = (_predict_tracks (begin_frame t), begin_frame t).
Proof. reflexivity. Qed.

Lemma update_nonempty t d dets :
  update t (d :: dets)
  = let r1 := _update_class_tracks (begin_frame t)
                (filter (has_class "person") (d :: dets)) "person" in
    let r2 := _update_class_tracks (snd r1)
                (filter (has_class "ball") (d :: dets)) "ball" in
    (fst r1 ++ fst r2, _handle_lost_tracks (snd r2)).
Proof.
  unfold update. cbv zeta.
  destruct (filter (has_class "person") (d :: dets)) as [|p ps] eqn:Ep.
  - change (_update_class_tracks (begin_frame t) [] "person")
      with (@nil TrackedObject, begin_frame t).
    cbn [fst snd app].
    destruct (filter (has_class "ball") (d :: dets)) as [|b bs] eqn:Eb.
    + reflexivity.
    + destruct (_update_class_tracks (begin_frame t) (b :: bs) "ball").
      reflexivity.
  - destruct (_update_class_tracks (begin_frame t) (p :: ps) "person")
      as [o1 s1].
    cbn [fst snd].
    destruct (filter (has_class "ball") (d :: dets)) as [|b bs] eqn:Eb.
    + change (_update_class_tracks s1 [] "ball")
        with (@nil TrackedObject, s1).
      reflexivity.
    + destruct (_update_class_tracks s1 (b :: bs) "ball").
      reflexivity.
Qed.

Lemma reachable_arises t : reachable t -> arises t.
Proof.
  induction 1 as [|t dets _ IH]; [constructor|].
  destruct dets as [|d dets].
  - rewrite update_empty. simpl. constructor. exact IH.
  - rewrite update_nonempty. cbv zeta. cbn [snd].
    repeat constructor. exact IH.
Qed.

Lemma reachable_consistent t : reachable t -> consistent t.
Proof. auto using arises_consistent, reachable_arises. Qed.

(** ** The two rounds together *)

Lemma mem_In k l : mem k l = true <-> In k l.
Proof.
  unfold mem. rewrite existsb_exists. split.
  - intros (x & Hx & E). apply Z.eqb_eq in E. congruence.
  - intros Hin. exists k. split; auto. apply Z.eqb_refl.
Qed.

Lemma ids_from_app n a b :
  ids_from n (a + b) = ids_from n a ++ ids_from (n + Z.of_nat a) b.
Proof.
  induction b as [|b IH].
  - rewrite Nat.add_0_r. unfold ids_from at 3. simpl.
    rewrite app_nil_r. reflexivity.
  - rewrite Nat.add_succ_r, !ids_from_snoc, IH, <- app_assoc.
    do 3 f_equal. lia.
Qed.

Lemma filter_none {A} (p : A -> bool) l :
  (forall x, In x l -> p x = false) -> filter p l = [].
Proof.
  induction l as [|x l IH]; simpl; intros Hp; auto.
  rewrite (Hp x) by auto. auto.
Qed.

Lemma filter_all {A} (p : A -> bool) l :
  (forall x, In x l -> p x = true) -> filter p l = l.
Proof.
  induction l as [|x l IH]; simpl; intros Hp; auto.
  rewrite (Hp x) by auto. f_equal; auto.
Qed.

Lemma update_rounds t d dets :
  update t (d :: dets)
  = (fst (rounds t (d :: dets)),
     _handle_lost_tracks (snd (rounds t (d :: dets)))).
Proof. rewrite update_nonempty. reflexivity. Qed.

Lemma rounds_spec t dets :
  consistent t ->
  exists (m : list Z) (n : nat),
    let out := fst (rounds t dets) in
    let s2 := snd (rounds t dets) in
    consistent s2
    /\ removed_tracks s2 = removed_tracks t
    /\ max_time_lost s2 = max_time_lost t
    /\ frame_id s2 = frame_id t + 1
    /\ track_id_count s2 = track_id_count t + Z.of_nat n
    /\ keys (tracks s2) = keys (tracks t) ++ ids_from (track_id_count t) n
    /\ NoDup (ids out)
    /\ (forall k, In k (ids out) <->
                  In k m \/ In k (ids_from (track_id_count t) n))
    /\ incl m (keys (tracks t))
    /\ filter (fun k => negb (mem k (keys (tracks t)))) (ids out)
       = ids_from (track_id_count t) n
    /\ (forall k tr, In k m -> get k (tracks t) = Some tr ->
        exists b sc,
          get k (tracks s2)
          = Some (T.update (aged tr) b sc (frame_id t + 1)))
    /\ (forall k tr, ~ In k m -> get k (tracks t) = Some tr ->
        get k (tracks s2) = Some (aged tr))
    /\ (forall k, In k (ids_from (track_id_count t) n) ->
        exists b sc c,
          get k (tracks s2) = Some (T.__init__ k b sc (frame_id t + 1) c)).
Proof.
  intros Hc. unfold rounds. cbv zeta.
  set (s0 := begin_frame t).
  assert (Hc0 : consistent s0) by (apply begin_frame_consistent; auto).
  assert (Hk0 : keys (tracks s0) = keys (tracks t))
    by apply begin_frame_keys.
  assert (Hg0 : forall k tr, get k (tracks t) = Some tr ->
                             get k (tracks s0) = Some (aged tr)).
  { intros k tr Hg. subst s0. rewrite begin_frame_get, Hg. reflexivity. }
  assert (Hn0 : track_id_count s0 = track_id_count t) by reflexivity.
  assert (Hf0 : frame_id s0 = frame_id t + 1) by reflexivity.
  assert (Hr0 : removed_tracks s0 = removed_tracks t) by reflexivity.
  assert (Hml0 : max_time_lost s0 = max_time_lost t) by reflexivity.
  pose proof (class_round_consistent s0
                (filter (has_class "person") dets) "person" Hc0) as Hc1.
  destruct (class_round s0 (filter (has_class "person") dets) "person" Hc0)
    as (o1 & s1 & m1 & n1 & E1 & I1 & Sub1 & K1 & N1 & C1 & U1 & X1 & W1
        & SS1).
  rewrite E1 in *. cbn [fst snd] in *.
  pose proof (class_round_consistent s1
                (filter (has_class "ball") dets) "ball" Hc1) as Hc2.
  destruct (class_round s1 (filter (has_class "ball") dets) "ball" Hc1)
    as (o2 & s2 & m2 & n2 & E2 & I2 & Sub2 & K2 & N2 & C2 & U2 & X2 & W2
        & SS2).
  rewrite E2 in *. cbn [fst snd] in *.
  destruct SS1 as (_ & _ & Hml1 & _ & Hf1 & Hr1).
  destruct SS2 as (_ & _ & Hml2 & _ & Hf2 & Hr2).
(* where the matched ids live *)
assert (Hm1 : forall k, In k m1 ->
          exists tr, get k (tracks s0) = Some tr
                     /\ T.class_name tr = "person"%string).
{ intros k Hk. apply class_tracks_get; auto. eapply subseq_In; eauto. }
assert (Hm2 : forall k, In k m2 ->
          exists tr, get k (tracks s1) = Some tr
                     /\ T.class_name tr = "ball"%string).
{ intros k Hk. apply class_tracks_get; auto. eapply subseq_In; eauto. }
assert (Hm1k : forall k, In k m1 -> In k (keys (tracks t))).
{ intros k Hk. destruct (Hm1 k Hk) as (tr & Hg & _).
  rewrite <- Hk0. eauto using get_keys. }
assert (Hn1 : forall k, In k (keys n1) ->
          track_id_count t <= k < track_id_count t + Z.of_nat (List.length n1)).
{ intros k Hk. rewrite N1 in Hk. apply ids_from_In in Hk. lia. }
assert (Hn2 : forall k, In k (keys n2) ->
          track_id_count t + Z.of_nat (List.length n1) <= k
          < track_id_count t + Z.of_nat (List.length n1)
            + Z.of_nat (List.length n2)).
{ intros k Hk. rewrite N2 in Hk. apply ids_from_In in Hk.
  unfold len in C1. lia. }
assert (Hlt : forall k, In k (keys (tracks t)) -> k < track_id_count t).
{ destruct Hc as [_ Hb _ _]. unfold below in Hb.
  rewrite Forall_forall in Hb. exact Hb. }
assert (Hm2n : forall k, In k m2 -> ~ In k (keys n1) /\ ~ In k m1).
{ intros k Hk. destruct (Hm2 k Hk) as (tr & Hg & Hcl). split.
  - intros Hin. destruct (W1 k Hin) as (b & sc & Hg').
    rewrite Hg' in Hg. inversion Hg; subst. simpl in Hcl. discriminate.
  - intros Hin. destruct (Hm1 k Hin) as (tr0 & Hg0' & Hcl0).
    destruct (U1 k tr0 Hin Hg0') as (b & sc & Hg').
    rewrite Hg' in Hg. inversion Hg; subst.
    rewrite TrackFacts.update_class_name in Hcl. congruence. }
assert (Hm2n1 : forall k, In k m2 -> In k (keys n1) -> False)
  by (intros k Hk; apply (Hm2n k Hk)).
assert (Hm2m1 : forall k, In k m2 -> In k m1 -> False)
  by (intros k Hk; apply (Hm2n k Hk)).
assert (Hm2k : forall k, In k m2 -> In k (keys (tracks t))).
{ intros k Hk. destruct (Hm2 k Hk) as (tr & Hg & _).
  apply get_keys in Hg. rewrite K1, Hk0 in Hg.
  apply in_app_or in Hg. destruct Hg; auto.
  exfalso. eauto. }
exists (m1 ++ m2), (List.length n1 + List.length n2)%nat. cbv zeta.
split; [exact Hc2|]. split; [congruence|]. split; [congruence|].
split; [congruence|].
split; [unfold len in *; lia|].
split.
{ rewrite K2, K1, Hk0, N1, N2, ids_from_app, <- app_assoc.
  rewrite C1, Hn0. reflexivity. }
split.
{ rewrite ids_app, I1, I2.
  assert (ND1 : NoDup m1)
    by (eapply subseq_NoDup; [exact Sub1|];
        eapply subseq_NoDup; [apply subseq_map, class_tracks_subseq|];
        apply consistent_NoDup; auto).
  assert (ND2 : NoDup m2)
    by (eapply subseq_NoDup; [exact Sub2|];
        eapply subseq_NoDup; [apply subseq_map, class_tracks_subseq|];
        apply consistent_NoDup; auto).
  assert (NDn1 : NoDup (keys n1))
    by (rewrite N1; apply ascending_NoDup, ids_from_ascending).
  assert (NDn2 : NoDup (keys n2))
    by (rewrite N2; apply ascending_NoDup, ids_from_ascending).
  apply NoDup_app; [apply NoDup_app; auto| apply NoDup_app; auto|].
  - intros k Hk1 Hk2. apply Hm1k, Hlt in Hk1. apply Hn1 in Hk2. lia.
  - intros k Hk1 Hk2. apply Hm2k, Hlt in Hk1. apply Hn2 in Hk2. lia.
  - intros k Hk1 Hk2. apply in_app_or in Hk1. apply in_app_or in Hk2.
    destruct Hk1 as [Hk1|Hk1], Hk2 as [Hk2|Hk2].
    + eauto.
    + apply Hm1k, Hlt in Hk1. apply Hn2 in Hk2. lia.
    + eauto.
    + apply Hn1 in Hk1. apply Hn2 in Hk2. lia. }
split.
{ intros k. rewrite ids_app, I1, I2, ids_from_app, N1, N2, C1, Hn0.
  unfold len. rewrite !in_app_iff. tauto. }
split.
{ intros k Hk. apply in_app_or in Hk. destruct Hk; auto. }
split.
{ rewrite ids_app, I1, I2, !filter_app.
  rewrite (filter_none _ m1), (filter_none _ m2).
  - rewrite !filter_all.
    + simpl. rewrite N1, N2, ids_from_app, C1, Hn0.
      reflexivity.
    + intros k Hk. apply Hn2 in Hk. apply negb_true_iff.
      destruct (mem k (keys (tracks t))) eqn:E; auto.
      apply mem_In, Hlt in E. lia.
    + intros k Hk. apply Hn1 in Hk. apply negb_true_iff.
      destruct (mem k (keys (tracks t))) eqn:E; auto.
      apply mem_In, Hlt in E. lia.
  - intros k Hk. apply negb_false_iff, mem_In. auto.
  - intros k Hk. apply negb_false_iff, mem_In. auto. }
split.
{ intros k tr Hk Hg. apply in_app_or in Hk.
  pose proof (Hg0 k tr Hg) as Hg0'.
  destruct (in_dec Z.eq_dec k m1) as [Hk1|Hk1].
  - destruct (U1 k _ Hk1 Hg0') as (b & sc & Hg1).
    exists b, sc. rewrite X2.
    + rewrite Hg1, Hf0. reflexivity.
    + eauto using get_keys.
    + intros Hk2. eauto.
  - assert (Hk2 : In k m2) by tauto.
    assert (Hg1 : get k (tracks s1) = Some (aged tr)).
    { rewrite X1; auto. rewrite Hk0. eauto using get_keys. }
    destruct (U2 k _ Hk2 Hg1) as (b & sc & Hg2).
    exists b, sc. rewrite Hg2, Hf1, Hf0. reflexivity. }
split.
{ intros k tr Hk Hg. pose proof (Hg0 k tr Hg) as Hg0'.
  assert (Hk1 : ~ In k m1) by (intros H; apply Hk, in_or_app; auto).
  assert (Hk2 : ~ In k m2) by (intros H; apply Hk, in_or_app; auto).
  assert (Hg1 : get k (tracks s1) = Some (aged tr)).
  { rewrite X1; auto. rewrite Hk0. eauto using get_keys. }
  rewrite X2; auto. eauto using get_keys. }
intros k Hk. rewrite ids_from_app in Hk.
apply in_app_or in Hk. destruct Hk as [Hk|Hk].
- assert (Hk' : In k (keys n1)) by (rewrite N1, Hn0; exact Hk).
  clear Hk. rename Hk' into Hk.
  destruct (W1 k Hk) as (b & sc & Hg1).
  exists b, sc, "person"%string. rewrite X2.
  + rewrite Hg1, Hf0. reflexivity.
  + eauto using get_keys.
  + intros Hk2. eauto.
- assert (Hk' : In k (keys n2))
    by (rewrite N2, C1, Hn0; unfold len; exact Hk).
  clear Hk. rename Hk' into Hk.
  destruct (W2 k Hk) as (b & sc & Hg2).
  exists b, sc, "ball"%string. rewrite Hg2, Hf1, Hf0. reflexivity.
Qed.

End TrackerFacts.

(* ================================================================== *)
(** * The association round is the greedy one of the specification      *)
(* ================================================================== *)

Module AssociationFacts.
Import Py PyFacts DictFacts TrackerSpec TrackerFacts
       AdvancedMultiObjectTracker.

Lemma insert_by_id_head e d :
  Forall (fun k => (fst e < k)%Z) (keys d) -> insert_by_id e d = e :: d.
Proof.
  destruct d as [|e' d]; simpl; auto.
  intros HF. inversion HF; subst.
  destruct (Z.leb_spec (fst e) (fst e')); [reflexivity|lia].
Qed.

Lemma sort_by_id_ascending d : ascending (keys d) -> sort_by_id d = d.
Proof.
  unfold ascending. induction d as [|e d IH]; simpl; intros HS; auto.
  inversion HS; subst. rewrite IH by assumption.
  apply insert_by_id_head. assumption.
Qed.

(** *** The inner loop picks the first maximum above the threshold *)

Lemma best_in_row_argmax f th pool : forall b v,
  fst (best_in_row f th (b, v) pool)
  = match argmax f pool with
    | Some j => if Qltb th (f j) && Qltb v (f j) then Some j else b
    | None => b
    end.
Proof.
  unfold best_in_row.
  induction pool as [|j pool IH]; intros b v; simpl; auto.
  destruct (Qltb th (f j) && Qltb v (f j)) eqn:Ej; cbn [snd].
  - rewrite IH. apply andb_true_iff in Ej. destruct Ej as [E1 E2].
    apply Qltb_lt in E1, E2.
    destruct (argmax f pool) as [j'|]; [|rewrite !(proj2 (Qltb_lt _ _)); auto].
    destruct (Qltb (f j) (f j')) eqn:Ejj.
    + apply Qltb_lt in Ejj.
      rewrite !(proj2 (Qltb_lt _ _)) by lra. reflexivity.
    + rewrite andb_false_r.
      rewrite !(proj2 (Qltb_lt _ _)) by lra. reflexivity.
  - rewrite IH.
    destruct (argmax f pool) as [j'|]; [|rewrite Ej; reflexivity].
    destruct (Qltb (f j) (f j')) eqn:Ejj; [reflexivity|].
    rewrite Ej. apply Qltb_ge in Ejj.
    apply andb_false_iff in Ej.
    destruct (Qltb th (f j') && Qltb v (f j')) eqn:Ej'; auto.
    apply andb_true_iff in Ej'. destruct Ej' as [E1 E2].
    apply Qltb_lt in E1, E2.
    destruct Ej as [Ej|Ej]; apply Qltb_ge in Ej; lra.
Qed.

Lemma argmax_ext f g pool :
  (forall j, In j pool -> f j == g j) -> argmax f pool = argmax g pool.
Proof.
  induction pool as [|j pool IH]; simpl; intros Hfg; auto.
  rewrite IH by auto.
  destruct (argmax g pool) as [j'|] eqn:E; auto.
  assert (Hin : In j' pool).
  { clear - E. revert j' E. induction pool as [|x pool IH]; simpl;
      [discriminate|].
    intros j' E. destruct (argmax g pool) as [y|].
    - destruct (Qltb (g x) (g y)); inversion E; subst; auto.
    - inversion E; auto. }
  rewrite (Qltb_compat (f j) (g j) (f j') (g j')) by auto.
  reflexivity.
Qed.

Lemma argmax_In f pool j : argmax f pool = Some j -> In j pool.
Proof.
  revert j. induction pool as [|x pool IH]; simpl; [discriminate|].
  intros j E. destruct (argmax f pool) as [y|].
  - destruct (Qltb (f x) (f y)); inversion E; subst; auto.
  - inversion E; auto.
Qed.

(** *** Rows of the cost matrix *)

Lemma combine_seq_nth {A} (l : list A) : forall a i k,
  In (i, k) (combine (seq a (List.length l)) l) ->
  (a <= i)%nat /\ nth_error l (i - a) = Some k.
Proof.
  induction l as [|x l IH]; simpl; intros a i k Hin; [tauto|].
  destruct Hin as [E|Hin].
  - inversion E; subst. rewrite Nat.sub_diag. auto.
  - apply IH in Hin. destruct Hin as [Hle Hn]. split; [lia|].
    replace (i - a)%nat with (S (i - S a)) by lia. exact Hn.
Qed.

Lemma fold_left_snd {A B C} (f : A -> C -> A) (l : list (B * C)) a :
  fold_left (fun acc it => f acc (snd it)) l a
  = fold_left f (map snd l) a.
Proof. revert a. induction l; simpl; auto. Qed.

Lemma fold_left_fst {A B C} (f : A -> B -> A) (l : list (B * C)) a :
  fold_left (fun acc it => f acc (fst it)) l a
  = fold_left f (map fst l) a.
Proof. revert a. induction l; simpl; auto. Qed.

(** One step of the association on the row of a given track. *)
Lemma greedy_fold th bbs (d : dict T.track) : forall m u,
  0 <= th ->
  Forall (fun j => (j < List.length bbs)%nat) u ->
  fold_left
    (fun (acc : list (Z * nat) * list nat) (e : Z * T.track) =>
       match
         fst (best_in_row
                (fun j =>
                   1 - nth j
                         (map (fun det_bbox =>
                                 1 - compute_iou
                                       (T.get_smoothed_bbox (snd e))
                                       det_bbox) bbs) 0)
                th (None, 0) (snd acc))
       with
       | Some best_match =>
           (fst acc ++ [(fst e, best_match)], remove best_match (snd acc))
       | None => acc
       end)
    d (m, u)
  = (m ++ fst (greedy th d bbs u), snd (greedy th d bbs u)).
Proof.
  induction d as [|[k tr] d IH]; intros m u Hth Hu.
  - simpl. rewrite app_nil_r. reflexivity.
  - cbn [fold_left fst snd]. rewrite best_in_row_argmax.
    rewrite (argmax_ext _ (smoothed_iou tr bbs) u).
    2:{ intros j Hj. rewrite Forall_forall in Hu. apply Hu in Hj.
        unfold smoothed_iou.
        rewrite (nth_indep _ 0
                   (1 - compute_iou (T.get_smoothed_bbox tr) default_bbox))
          by (rewrite length_map; exact Hj).
        rewrite (map_nth (fun det_bbox =>
                            1 - compute_iou (T.get_smoothed_bbox tr)
                                  det_bbox)).
        ring. }
    cbn [greedy].
    destruct (argmax (smoothed_iou tr bbs) u) as [j|] eqn:Ea.
    + assert (Hj : (j < List.length bbs)%nat).
      { apply argmax_In in Ea. rewrite Forall_forall in Hu. auto. }
      assert (Ef : 1 - nth j
                         (map (fun det_bbox =>
                                 1 - compute_iou (T.get_smoothed_bbox tr)
                                       det_bbox) bbs) 0
                   == smoothed_iou tr bbs j).
      { unfold smoothed_iou.
        rewrite (nth_indep _ 0
                   (1 - compute_iou (T.get_smoothed_bbox tr) default_bbox))
          by (rewrite length_map; exact Hj).
        rewrite (map_nth (fun det_bbox =>
                            1 - compute_iou (T.get_smoothed_bbox tr)
                                  det_bbox)).
        ring. }
      rewrite (Qltb_compat th th _ _ (Qeq_refl th) Ef).
      rewrite (Qltb_compat 0 0 _ _ (Qeq_refl 0) Ef).
      destruct (Qltb th (smoothed_iou tr bbs j)) eqn:Et.
      * apply Qltb_lt in Et.
        rewrite (proj2 (Qltb_lt 0 (smoothed_iou tr bbs j))) by lra.
        cbn [andb]. rewrite IH; auto.
        -- destruct (greedy th d bbs (remove j u)) as [m' u'].
           cbn [fst snd]. rewrite <- app_assoc. reflexivity.
        -- eapply subseq_Forall; [apply remove_subseq|exact Hu].
      * cbn [andb]. apply IH; auto.
    + apply IH; auto.
Qed.

Lemma code_thresh t c :
  match p_match_thresh (class_params_get c) with
  | Some v => v
  | None => match_thresh t
  end = class_match_thresh t c.
Proof.
  unfold class_params_get, class_params, class_match_thresh.
  cbn [find fst snd].
  rewrite (String.eqb_sym "person" c), (String.eqb_sym "ball" c).
  destruct (String.eqb c "person"); [reflexivity|].
  destruct (String.eqb c "ball"); reflexivity.
Qed.

Lemma match_tracks_association t (d : dict T.track) bbs scs c :
  ascending (keys d) ->
  0 <= class_match_thresh t c ->
  _match_tracks t d bbs scs c = association (class_match_thresh t c) d bbs.
Proof.
  intros Ha Hth. unfold association.
  rewrite (sort_by_id_ascending d Ha).
  unfold _match_tracks. rewrite code_thresh.
  destruct d as [|e0 d0]; [reflexivity|].
  set (d := e0 :: d0) in *.
  set (th := class_match_thresh t c) in *.
  set (cm := map (cost_row d bbs) (keys d)).
  assert (HN : NoDup (keys d)) by (apply ascending_NoDup; exact Ha).
(* rows by index are rows by id *)
set (F := fun (acc : list (Z * nat) * list nat) (k : Z) =>
            match
              fst (best_in_row
                     (fun j => 1 - nth j (cost_row d bbs k) 0)
                     th (None, 0) (snd acc))
            with
            | Some best_match =>
                (fst acc ++ [(k, best_match)],
                 remove best_match (snd acc))
            | None => acc
            end).
rewrite (fold_left_ext_in (match_step cm th)
           (fun acc (it : nat * Z) => F acc (snd it))).
2:{ intros [i k] [m u] Hin. apply combine_seq_nth in Hin.
    destruct Hin as [_ Hn]. rewrite Nat.sub_0_r in Hn.
    assert (Hrow : nth i cm [] = cost_row d bbs k).
    { apply nth_error_nth. subst cm. rewrite nth_error_map, Hn.
      reflexivity. }
    unfold F, match_step, best_match_for, best_in_row, cell.
    cbn [fst snd]. rewrite Hrow. reflexivity. }
rewrite (fold_left_snd F), combine_seq_snd.
(* rows by id are the rows of the entries *)
unfold keys. rewrite <- (fold_left_fst F).
rewrite (fold_left_ext_in _
           (fun (acc : list (Z * nat) * list nat) (e : Z * T.track) =>
              match
                fst (best_in_row
                       (fun j =>
                          1 - nth j
                                (map (fun det_bbox =>
                                        1 - compute_iou
                                              (T.get_smoothed_bbox (snd e))
                                              det_bbox) bbs) 0)
                       th (None, 0) (snd acc))
              with
              | Some best_match =>
                  (fst acc ++ [(fst e, best_match)],
                   remove best_match (snd acc))
              | None => acc
              end)).
2:{ intros [k tr] acc Hin. unfold F. cbn [fst snd]. unfold cost_row.
    rewrite (In_get k tr d HN Hin). reflexivity. }
rewrite greedy_fold; auto.
- destruct (greedy th d bbs (seq 0 (List.length bbs))); reflexivity.
- rewrite Forall_forall. intros j Hj. apply in_seq in Hj. lia.
Qed.

End AssociationFacts.

(* ================================================================== *)
(** * Properties of the tracker                                         *)
(* ================================================================== *)

Module UpdateFacts.
Import Py PyFacts DictFacts TrackerSpec TrackerFacts
       AdvancedMultiObjectTracker.

#[local] Open Scope Z_scope.

Lemma predict_fold s (d : dict T.track) : forall acc,
  ids (fold_left
         (fun tracked_objects (e : Z * T.track) =>
            let '(track_id, track) := e in
            if T.is_active track then
              tracked_objects
                ++ [ {| o_track_id := track_id;
                        o_bbox := T.predict track (frame_id s);
                        o_score := T.score track;
                        o_frame_id := frame_id s;
                        o_class := T.class_name track;
                        o_confidence := T.get_average_confidence track |} ]
            else tracked_objects)
         d acc)
  = ids acc ++ keys (filter (fun e => T.is_active (snd e)) d).
Proof.
  induction d as [|[k tr] d IH]; intros acc; cbn [fold_left filter snd].
  - simpl. rewrite app_nil_r. reflexivity.
  - destruct (T.is_active tr).
    + rewrite IH, ids_app, <- app_assoc. reflexivity.
    + apply IH.
Qed.

Lemma predict_ids s :
  ids (_predict_tracks s)
  = keys (filter (fun e => T.is_active (snd e)) (tracks s)).
Proof. unfold _predict_tracks. rewrite predict_fold. reflexivity. Qed.

Lemma predict_ids_subseq s : subseq (ids (_predict_tracks s)) (keys (tracks s)).
Proof. rewrite predict_ids. apply subseq_map, subseq_filter. Qed.

(** What the sweep does to a consistent table. *)
Lemma sweep_spec s :
  consistent s ->
  let s' := _handle_lost_tracks s in
  subseq (tracks s') (tracks s)
  /\ (forall k tr, get k (tracks s) = Some tr ->
      T.time_since_update tr <= max_time_lost s ->
      get k (tracks s') = Some tr)
  /\ (forall k tr, get k (tracks s') = Some tr -> get k (tracks s) = Some tr)
  /\ incl (removed_tracks s) (removed_tracks s')
  /\ (forall k, In k (keys (tracks s)) ->
      In k (keys (tracks s')) \/ In k (removed_tracks s'))
  /\ track_id_count s' = track_id_count s.
Proof.
  intros Hc. unfold _handle_lost_tracks. cbv zeta.
  match goal with
  | |- context [fold_left remove_track ?l s] =>
      destruct (sweep_fold l s) as (S1 & S2 & S3 & S4 & S5 & S6 & S7 & S8);
      set (l0 := l) in *
  end.
  split; [exact S1|].
  split.
  { intros k tr Hg Hle. rewrite S2; auto. intros Hin.
    destruct (to_remove_lost s k Hc Hin) as (tr' & Hg' & Hlt).
    rewrite Hg in Hg'. inversion Hg'; subst. lia. }
  split.
  { intros k tr Hg. eapply get_subseq; eauto using consistent_NoDup. }
  split; [exact S3|]. split; [|exact S6].
  intros k Hk. destruct (in_dec Z.eq_dec k l0) as [Hin|Hin]; auto.
  left. destruct (keys_get _ _ Hk) as [v Hv].
  rewrite <- (S2 k Hin) in Hv. eauto using get_keys.
Qed.

Lemma run_reachable t frames : reachable t -> reachable (snd (run t frames)).
Proof.
  revert t. induction frames as [|dets frames IH]; intros t Hr; simpl; auto.
  pose proof (reach_update t dets Hr) as Hr'.
  destruct (update t dets) as [out s]. simpl in Hr'.
  specialize (IH s Hr'). destruct (run s frames). exact IH.
Qed.

Lemma update_count_mono t dets :
  consistent t -> track_id_count t <= track_id_count (snd (update t dets)).
Proof.
  intros Hc. destruct dets as [|d dets].
  - rewrite update_empty. simpl. lia.
  - rewrite update_rounds. cbn [snd].
    destruct (rounds_spec t (d :: dets) Hc) as (m & n & R). cbv zeta in R.
    destruct R as (Hc2 & _ & _ & _ & Hn & _).
    destruct (sweep_spec _ Hc2) as (_ & _ & _ & _ & _ & Hs).
    rewrite Hs, Hn. lia.
Qed.

Lemma run_count_mono t frames :
  reachable t -> track_id_count t <= track_id_count (snd (run t frames)).
Proof.
  revert t. induction frames as [|dets frames IH]; intros t Hr; simpl;
    [lia|].
  pose proof (reach_update t dets Hr) as Hr'.
  pose proof (update_count_mono t dets (reachable_consistent t Hr)) as Hm.
  destruct (update t dets) as [out s]. simpl in Hr', Hm.
  specialize (IH s Hr'). destruct (run s frames). simpl in *. lia.
Qed.

(** What one call makes of a track that was live before it. *)
Lemma track_fate t detections k track track' :
  consistent t ->
  get k (tracks t) = Some track ->
  get k (tracks (snd (update t detections))) = Some track' ->
  (track' = aged track
   /\ (detections <> [] -> ~ In k (ids (fst (update t detections)))))
  \/ (detections <> []
      /\ (exists bbox score,
            track' = T.update (aged track) bbox score (frame_id t + 1))
      /\ In k (ids (fst (update t detections)))).
Proof.
  intros Hc Hg.
  assert (Hb : get k (tracks (begin_frame t)) = Some (aged track))
    by (rewrite begin_frame_get, Hg; reflexivity).
  destruct detections as [|d dets].
  - rewrite update_empty. cbn [fst snd].
    intros Hg'. left. rewrite Hb in Hg'. inversion Hg'; subst.
    split; [reflexivity|]. intros H; congruence.
  - rewrite update_rounds. cbn [fst snd].
    destruct (rounds_spec t (d :: dets) Hc) as (m & n & R). cbv zeta in R.
    destruct R as (Hc2 & _ & _ & _ & _ & _ & _ & Hin & Hm & _ & Hu & Hx & _).
    intros Hg'.
    destruct (sweep_spec _ Hc2) as (_ & _ & Hback & _).
    apply Hback in Hg'.
    destruct (in_dec Z.eq_dec k m) as [Hk|Hk].
    + right. destruct (Hu k track Hk Hg) as (b & sc & Hg2).
      rewrite Hg2 in Hg'. inversion Hg'; subst.
      split; [discriminate|]. split; [eauto|].
      apply Hin. auto.
    + left. rewrite (Hx k track Hk Hg) in Hg'. inversion Hg'; subst.
      split; [reflexivity|].
      intros _ Hout. apply Hin in Hout. destruct Hout as [Hout|Hout]; auto.
      apply ids_from_In in Hout.
      destruct Hc as [_ Hbel _ _]. unfold below in Hbel.
      rewrite Forall_forall in Hbel. apply get_keys in Hg.
      apply Hbel in Hg. lia.
Qed.

End UpdateFacts.

Section TrackerClaims.
Import Py PyFacts DictFacts TrackerSpec TrackerFacts UpdateFacts
       AdvancedMultiObjectTracker.

#[local] Open Scope Z_scope.





(** C8: the ids given to new tracks are the successive values of the id
    counter, hence strictly increasing; the counter never decreases; every
    id that was live or recorded as removed at any earlier moment is
    smaller than every id created later, so no id is used twice; a track
    that leaves the live table is recorded in [removed_tracks], and that
    record only grows. *)
Theorem track_ids_increase_and_are_never_reused t frames detections :
  reachable t ->
  let t1 := snd (run t frames) in
  let t2 := snd (update t1 detections) in
  created t1 detections
  = ids_from (track_id_count t1)
      (Z.to_nat (track_id_count t2 - track_id_count t1))
  /\ ascending (created t1 detections)
  /\ track_id_count t <= track_id_count t1 <= track_id_count t2
  /\ (forall k, In k (created t1 detections) ->
      forall k0, In k0 (keys (tracks t)) \/ In k0 (removed_tracks t) ->
                 k0 < k)
  /\ (forall k, In k (keys (tracks t1)) \/ In k (created t1 detections) ->
      In k (keys (tracks t2)) \/ In k (removed_tracks t2))
  /\ incl (removed_tracks t1) (removed_tracks t2).
Proof.
  intros Hr t1 t2.
  pose proof (run_reachable t frames Hr) as Hr1. fold t1 in Hr1.
  pose proof (run_count_mono t frames Hr) as Hmono. fold t1 in Hmono.
  pose proof (reachable_consistent t Hr) as Hc.
  pose proof (reachable_consistent t1 Hr1) as Hc1.
  assert (Hold : forall k0, In k0 (keys (tracks t)) \/ In k0 (removed_tracks t)
                            -> k0 < track_id_count t).
  { destruct Hc as [_ Hb Hrm _]. unfold below in *.
    rewrite Forall_forall in Hb, Hrm. intros k0 [H|H]; auto. }
  assert (Hmain :
            created t1 detections
            = ids_from (track_id_count t1)
                (Z.to_nat (track_id_count t2 - track_id_count t1))
            /\ track_id_count t1 <= track_id_count t2
            /\ (forall k, In k (keys (tracks t1))
                          \/ In k (created t1 detections) ->
                In k (keys (tracks t2)) \/ In k (removed_tracks t2))
            /\ incl (removed_tracks t1) (removed_tracks t2)).
  { subst t2. unfold created. destruct detections as [|d dets].
    - rewrite update_empty. cbn [fst snd].
      assert (E : filter (fun k => negb (mem k (keys (tracks t1))))
                    (ids (_predict_tracks (begin_frame t1))) = []).
      { apply filter_none. intros k Hk. apply negb_false_iff, mem_In.
        rewrite <- begin_frame_keys.
        eapply subseq_In; [apply predict_ids_subseq|exact Hk]. }
      rewrite E. replace (track_id_count (begin_frame t1))
        with (track_id_count t1) by reflexivity.
      rewrite Z.sub_diag.
      split; [reflexivity|]. split; [lia|]. split; [|apply incl_refl].
      intros k [Hk|[]]. left. rewrite begin_frame_keys. exact Hk.
    - rewrite update_rounds. cbn [fst snd].
      destruct (rounds_spec t1 (d :: dets) Hc1) as (m & n & R).
      cbv zeta in R.
      destruct R as (Hc2 & Hrm & _ & _ & Hn & Hk2 & _ & _ & _ & Hcr & _).
      destruct (sweep_spec _ Hc2) as (_ & _ & _ & Hincl & Hrec & Hcnt).
      rewrite Hcr, Hcnt, Hn.
      replace (track_id_count t1 + Z.of_nat n - track_id_count t1)
        with (Z.of_nat n) by lia.
      rewrite Nat2Z.id.
      split; [reflexivity|]. split; [lia|]. split; [|rewrite <- Hrm; exact Hincl].
      intros k Hk. apply Hrec. rewrite Hk2. apply in_or_app. tauto. }
  destruct Hmain as (H1 & H2 & H3 & H4).
  split; [exact H1|].
  split; [rewrite H1; apply ids_from_ascending|].
  split; [lia|].
  split; [|split; assumption].
  intros k Hk k0 Hk0. rewrite H1 in Hk. apply ids_from_In in Hk.
  apply Hold in Hk0. lia.
Qed.

Lemma track_ids_increase_and_are_never_reused_witness :
  let frames := [[Examples.Tracking.person_det]] in
  let detections :=
    [Examples.Tracking.person_det; Examples.Tracking.ball_det] in
  reachable default
  /\ ascending (created (snd (run default frames)) detections).
Proof.
  cbv zeta.
  assert (Hr : reachable default) by apply reach_init.
  split; [exact Hr|].
  exact (proj1 (proj2
           (track_ids_increase_and_are_never_reused default
              [[Examples.Tracking.person_det]]
              [Examples.Tracking.person_det; Examples.Tracking.ball_det]
              Hr))).
Defined.



(** A confirmed track stays confirmed while ten detections of confidence
    0.1 bring the mean of its samples down to 0.1. *)
Example confirmed_track_survives_low_confidence :
  let t := snd (run Examples.Tracking.warmed_up
                  (repeat [Examples.Tracking.faint_det] 10)) in
  exists track,
    get 0 (tracks t) = Some track
    /\ T.is_confirmed track = true
    /\ (mean (T.confidence_history track) == 1 # 10)%Q.
Proof.
  vm_compute. eexists. split; [reflexivity|]. split; reflexivity.
Qed.



(** C1, as the code has it: after a ball is seen once and eleven further
    frames each bring a detection, the ball track has gone 11 frames
    without a match, more than the 10 that [class_params] gives balls, and
    is still in the live table: the sweep compares with the tracker-wide
    [max_time_lost] of 15 and never reads the class value. *)
Theorem ball_track_outlives_its_class_horizon :
  let t := snd (run default Examples.Tracking.ball_then_players) in
  exists track,
    get 0 (tracks t) = Some track
    /\ T.class_name track = "ball"%string
    /\ T.time_since_update track = 11
    /\ class_max_time_lost t "ball" = 10
    /\ max_time_lost t = 15
    /\ removed_tracks t = [].
Proof.
  vm_compute. eexists. split; [reflexivity|]. repeat split.
Qed.

End TrackerClaims.

Section GeometryClaims.
Import Py PyFacts Geometry GeometryFacts.

(** C7, in exact arithmetic: for every pair of boxes [compute_iou] is
    defined and lies between 0 and 1; it is 0 whenever the union area is
    not positive; and it is 0 whenever a box has non-positive width or
    height, so that such a detection fails the acceptance test of the
    association, [iou > match_thresh and iou > best_iou], whose running
    best is never negative, and fails [iou > match_thresh] alone for every
    threshold that is not negative. *)
Theorem compute_iou_in_unit_interval (a b : BBox Q) :
  0 <= compute_iou a b <= 1
  /\ (union_area a b <= 0 -> compute_iou a b = 0)
  /\ (degenerate a \/ degenerate b ->
      compute_iou a b == 0
      /\ (forall match_thresh best_iou,
            0 <= best_iou ->
            Qltb match_thresh (1 - (1 - compute_iou a b))
            && Qltb best_iou (1 - (1 - compute_iou a b)) = false)
      /\ (forall match_thresh,
            0 <= match_thresh ->
            Qltb match_thresh (compute_iou a b) = false)).
Proof.
  split; [apply compute_iou_unit|].
  split; [apply compute_iou_guard|].
  intros Hd. pose proof (compute_iou_degenerate a b Hd) as Hz.
  split; [exact Hz|]. split.
  - intros th best Hbest. apply andb_false_iff. right.
    apply Qltb_ge. rewrite Hz. lra.
  - intros th Hth. apply Qltb_ge. rewrite Hz. exact Hth.
Qed.

Lemma compute_iou_in_unit_interval_witness :
  let a := Examples.Tracking.flat_box in
  let b := (mkBBox 100 100 50 80) in
  (degenerate a \/ degenerate b) /\ compute_iou a b == 0.
Proof.
  cbv zeta.
  assert (Hd : degenerate Examples.Tracking.flat_box
               \/ degenerate (mkBBox 100 100 50 80))
    by (left; left; vm_compute; discriminate).
  split; [exact Hd|].
  exact (proj1 (proj2 (proj2 (compute_iou_in_unit_interval
                                Examples.Tracking.flat_box
                                (mkBBox 100 100 50 80))) Hd)).
Defined.

(** C7 as stated fails in binary64: the IoU of the box
    [(0.1, 0.1, 0.2, 0.2)] with itself is computed as
    1.0000000000000004. *)
Lemma compute_iou_binary64_above_one :
  compute_iou Examples.Tracking.box64 Examples.Tracking.box64
  = 1.0000000000000004%float
  /\ PrimFloat.leb
       (compute_iou Examples.Tracking.box64 Examples.Tracking.box64)
       1%float = false.
Proof. split; vm_compute; reflexivity. Qed.

End GeometryClaims.

(* ================================================================== *)
(** * Properties of the possession analyzer                             *)
(* ================================================================== *)

Module AnalyzerFacts.
Import Py PyFacts BallPossessionAnalyzer.

Lemma time_of_set_time team v d : time_of team (set_time team v d) = v.
Proof.
  unfold time_of.
  induction d as [|[k v'] d IH]; simpl.
  - rewrite String.eqb_refl. reflexivity.
  - destruct (String.eqb k team) eqn:E; simpl; rewrite E; auto.
Qed.

Lemma time_of_set_time_other team team' v d :
  team' <> team -> time_of team' (set_time team v d) = time_of team' d.
Proof.
  intros Hne. unfold time_of.
  induction d as [|[k v'] d IH]; simpl.
  - destruct (String.eqb_spec team team'); [congruence|reflexivity].
  - destruct (String.eqb_spec k team); simpl.
    + subst. destruct (String.eqb_spec team team'); [congruence|reflexivity].
    + destruct (String.eqb k team'); auto.
Qed.

(** The pass detector leaves the possession log and the open span
    alone. *)
Lemma detect_pair_keeps self p q self' :
  detect_pair self p q = Some self' ->
  possession_events self' = possession_events self
  /\ current_possession self' = current_possession self
  /\ team_possession_time self' = team_possession_time self
  /\ total_possession_time self' = total_possession_time self
  /\ pass_threshold_frames self' = pass_threshold_frames self
  /\ pass_threshold_distance self' = pass_threshold_distance self.
Proof.
  unfold detect_pair, bind.
  destruct (end_frame p); [|discriminate].
  destruct (_ <=? _)%Z; [|intros E; inversion E; subst; tauto].
  destruct (from_end 0 (positions p)); [|discriminate].
  destruct (nth_error (positions q) 0); [|discriminate].
  destruct (root_le_const _ _); intros E; inversion E; subst; simpl; tauto.
Qed.

Lemma detect_pairs_keeps l : forall self self',
  detect_pairs self l = Some self' ->
  possession_events self' = possession_events self
  /\ current_possession self' = current_possession self
  /\ team_possession_time self' = team_possession_time self
  /\ total_possession_time self' = total_possession_time self.
Proof.
  induction l as [|p l IH]; intros self self'; simpl.
  - intros E; inversion E; subst; tauto.
  - destruct l as [|q l'].
    + intros E; inversion E; subst; tauto.
    + unfold bind at 1.
      destruct (detect_pair self p q) as [s1|] eqn:E1; [|discriminate].
      intros E. apply IH in E. apply detect_pair_keeps in E1.
      intuition congruence.
Qed.

Lemma detect_passes_keeps self frame self' :
  _detect_passes self frame = Some self' ->
  possession_events self' = possession_events self
  /\ current_possession self' = current_possession self
  /\ team_possession_time self' = team_possession_time self
  /\ total_possession_time self' = total_possession_time self.
Proof.
  unfold _detect_passes, bind.
  destruct (_ <? _)%Z; [intros E; inversion E; subst; tauto|].
  destruct (recent self frame (possession_events self)); [|discriminate].
  apply detect_pairs_keeps.
Qed.

End AnalyzerFacts.

Section AnalyzerClaims.
Import Py PyFacts BallPossessionAnalyzer AnalyzerFacts.

#[local] Open Scope Z_scope.

(** C2, as the code has it: player 1 holds the ball until frame 20, player
    2 takes it at frame 23 at 30 px from where player 1 last was, and both
    spans are logged; yet the pass log is empty after the last frame.  A
    span is logged when it ends, at least [frame_threshold] = 15 frames
    after it began, and by then the span before it ended 5 frames ago or
    more, so it is no longer among the recent spans that [_detect_passes]
    pairs up. *)
Theorem handover_within_thresholds_records_no_pass :
  exists self first second end_pos start_pos,
    run default Examples.Analytics.handover = Some self
    /\ possession_events self = [first; second]
    /\ player_id first = 1 /\ end_frame first = Some 20
    /\ player_id second = 2 /\ start_frame second = 20 + 3
    /\ from_end 0 (positions first) = Some end_pos
    /\ nth_error (positions second) 0 = Some start_pos
    /\ root_le_const (_calculate_distance end_pos start_pos) 50 = true
    /\ pass_events self = [].
Proof.
  vm_compute. do 5 eexists.
  split; [reflexivity|]. split; [reflexivity|]. repeat split.
Qed.

(** With a threshold of 3 frames the same defect shows the other way: one
    handover from player 1 to player 2 is in the pass log twice, appended
    at frame 7 and again at frame 8, while both spans are still recent. *)
Example quick_handover_is_recorded_twice :
  exists self first second,
    run Examples.Analytics.eager Examples.Analytics.quick_handover = Some self
    /\ possession_events self = [first; second]
    /\ map (fun p => (from_player p, to_player p, frame_id p))
           (pass_events self)
       = [(1, 2, 4); (1, 2, 4)].
Proof.
  vm_compute. do 3 eexists.
  split; [reflexivity|]. split; reflexivity.
Qed.




(** C6: whatever state the analyzer is in, in particular after any
    sequence of [update_tracks] calls, [reset] brings both statistics
    queries back to what a freshly constructed analyzer answers: the
    fixed fallback values. *)
Theorem reset_restores_initial_statistics env self fps0 threshold0 :
  get_possession_stats (reset self)
  = get_possession_stats (__init__ fps0 threshold0)
  /\ get_pass_stats env (reset self)
     = get_pass_stats env (__init__ fps0 threshold0)
  /\ get_possession_stats (reset self)
     = {| team_a_possession := 15; team_b_possession := 15;
          team_a_percentage := 50; team_b_percentage := 50;
          st_total_possession_time := 30;
          st_possession_events := 0; passes := 0;
          st_current_possession := None |}
  /\ get_pass_stats env (reset self)
     = {| total_passes := 8; successful_passes := 6;
          pass_success_rate := 75;
          team_a_passes := 4; team_b_passes := 4;
          recent_passes := [] |}.
Proof. repeat split. Qed.

End AnalyzerClaims.

(* ================================================================== *)
(** * Further properties: geometry                                      *)
(* ================================================================== *)

Module IouFacts.
Import Py PyFacts Geometry GeometryFacts Further.

Lemma max_case (a b : Q) :
  (a < b /\ Py.max a b = b) \/ (b <= a /\ Py.max a b = a).
Proof.
  unfold Py.max; simpl. destruct (Qltb a b) eqn:E.
  - left. apply Qltb_lt in E. auto.
  - right. apply Qltb_ge in E. auto.
Qed.

Lemma min_case (a b : Q) :
  (b < a /\ Py.min a b = b) \/ (a <= b /\ Py.min a b = a).
Proof.
  unfold Py.min; simpl. destruct (Qltb b a) eqn:E.
  - left. apply Qltb_lt in E. auto.
  - right. apply Qltb_ge in E. auto.
Qed.

Lemma max_comm (a b : Q) : Py.max a b == Py.max b a.
Proof.
  destruct (max_case a b) as [[? ->]|[? ->]],
           (max_case b a) as [[? ->]|[? ->]]; lra.
Qed.

Lemma min_comm (a b : Q) : Py.min a b == Py.min b a.
Proof.
  destruct (min_case a b) as [[? ->]|[? ->]],
           (min_case b a) as [[? ->]|[? ->]]; lra.
Qed.

Lemma max_compat (a a' b b' : Q) :
  a == a' -> b == b' -> Py.max a b == Py.max a' b'.
Proof.
  intros Ha Hb.
  destruct (max_case a b) as [[? ->]|[? ->]],
           (max_case a' b') as [[? ->]|[? ->]]; lra.
Qed.

Lemma max_zero_pos (v : Q) : 0 < Py.max 0 v <-> 0 < v.
Proof.
  destruct (max_case 0 v) as [[? ->]|[? ->]]; split; intros; lra.
Qed.

Lemma max_zero_of_pos (v : Q) : 0 < v -> Py.max 0 v = v.
Proof.
  intros Hv. destruct (max_case 0 v) as [[? ->]|[? ->]]; auto. lra.
Qed.

Lemma inter_area_sym (a b : BBox Q) : inter_area a b == inter_area b a.
Proof.
  rewrite !inter_area_eq.
  assert (Hw : Py.max 0 (Py.min (bx a + bw a) (bx b + bw b)
                         - Py.max (bx a) (bx b))
               == Py.max 0 (Py.min (bx b + bw b) (bx a + bw a)
                            - Py.max (bx b) (bx a))).
  { apply max_compat; [reflexivity|].
    rewrite (min_comm (bx a + bw a)), (max_comm (bx a)). reflexivity. }
  assert (Hh : Py.max 0 (Py.min (by_ a + bh a) (by_ b + bh b)
                         - Py.max (by_ a) (by_ b))
               == Py.max 0 (Py.min (by_ b + bh b) (by_ a + bh a)
                            - Py.max (by_ b) (by_ a))).
  { apply max_compat; [reflexivity|].
    rewrite (min_comm (by_ a + bh a)), (max_comm (by_ a)). reflexivity. }
  rewrite Hw, Hh. reflexivity.
Qed.

Lemma union_area_sym (a b : BBox Q) : union_area a b == union_area b a.
Proof. rewrite !union_area_eq, (inter_area_sym a b). ring. Qed.

Lemma inter_area_pos (a b : BBox Q) : 0 < inter_area a b <-> overlap a b.
Proof.
  rewrite inter_area_eq. unfold overlap.
  pose proof (iw_bounds a b) as (W0 & _).
  pose proof (ih_bounds a b) as (H0 & _).
  set (vw := Py.min (bx a + bw a) (bx b + bw b) - Py.max (bx a) (bx b)) in *.
  set (vh := Py.min (by_ a + bh a) (by_ b + bh b)
             - Py.max (by_ a) (by_ b)) in *.
  assert (Hvw : 0 < vw <-> (0 < bw a /\ 0 < bw b /\ bx a < bx b + bw b
                            /\ bx b < bx a + bw a)).
  { subst vw.
    destruct (min_case (bx a + bw a) (bx b + bw b)) as [[? ->]|[? ->]],
             (max_case (bx a) (bx b)) as [[? ->]|[? ->]];
      split; intros; repeat split; lra. }
  assert (Hvh : 0 < vh <-> (0 < bh a /\ 0 < bh b /\ by_ a < by_ b + bh b
                            /\ by_ b < by_ a + bh a)).
  { subst vh.
    destruct (min_case (by_ a + bh a) (by_ b + bh b)) as [[? ->]|[? ->]],
             (max_case (by_ a) (by_ b)) as [[? ->]|[? ->]];
      split; intros; repeat split; lra. }
  split.
  - intros Hpos.
    assert (Hw : 0 < Py.max 0 vw).
    { destruct (Qlt_le_dec 0 (Py.max 0 vw)) as [?|Hle]; auto.
      assert (Py.max 0 vw == 0) by lra.
      assert (Py.max 0 vw * Py.max 0 vh == 0) by (rewrite H; ring). lra. }
    assert (Hh : 0 < Py.max 0 vh).
    { destruct (Qlt_le_dec 0 (Py.max 0 vh)) as [?|Hle]; auto.
      assert (Py.max 0 vh == 0) by lra.
      assert (Py.max 0 vw * Py.max 0 vh == 0) by (rewrite H; ring). lra. }
    apply (proj1 (max_zero_pos vw)) in Hw.
    apply (proj1 (max_zero_pos vh)) in Hh.
    apply (proj1 Hvw) in Hw. apply (proj1 Hvh) in Hh. tauto.
  - intros Hov.
    assert (Hw : 0 < vw) by (apply Hvw; tauto).
    assert (Hh : 0 < vh) by (apply Hvh; tauto).
    apply Qmult_lt_0_compat;
      [apply (proj2 (max_zero_pos vw))|apply (proj2 (max_zero_pos vh))];
      assumption.
Qed.

End IouFacts.

Section IouProperties.
Import Py PyFacts Geometry GeometryFacts Further IouFacts.

(** X1: the IoU of two boxes does not depend on their order. *)
Theorem compute_iou_symmetric (a b : BBox Q) :
  compute_iou a b == compute_iou b a.
Proof.
  rewrite !compute_iou_eq.
  rewrite (Qltb_compat 0 0 (union_area a b) (union_area b a))
    by (try reflexivity; apply union_area_sym).
  destruct (Qltb 0 (union_area b a)); [|reflexivity].
  rewrite (inter_area_sym a b), (union_area_sym a b). reflexivity.
Qed.





End IouProperties.

(* ================================================================== *)
(** * Further properties: a single track                                *)
(* ================================================================== *)

Module SmoothingFacts.
Import Py PyFacts AdvancedTrack Further.

#[local] Open Scope Z_scope.

Lemma from_end_snoc {A} (l : list A) (x : A) n :
  from_end (S n) (l ++ [x]) = from_end n l.
Proof. unfold from_end. rewrite rev_app_distr. reflexivity. Qed.

Lemma from_end_last {A} (l : list A) (x : A) :
  from_end 0 (l ++ [x]) = Some x.
Proof. unfold from_end. rewrite rev_app_distr. reflexivity. Qed.

Lemma len_snoc_two {A} (l : list A) (x y : A) :
  from_end 0 l = Some y -> (2 <=? len (l ++ [x])) = true.
Proof.
  intros E. unfold len. rewrite length_app. simpl.
  destruct l; [discriminate|]. simpl. apply Z.leb_le. lia.
Qed.

(** The filter state after [update], by the sign of the frame step. *)
Lemma update_filter self b sc f pb ps pf :
  from_end 0 (history self) = Some (pb, ps, pf) ->
  if 0 <? f - pf then
    kf_x (update self b sc f)
    = (alpha * center_x b + (1 - alpha) * kf_x self)%Q
    /\ kf_y (update self b sc f)
       = (alpha * center_y b + (1 - alpha) * kf_y self)%Q
    /\ kf_vx (update self b sc f)
       = (alpha * (center_x b - center_x pb) / inject_Z (f - pf)
          + (1 - alpha) * kf_vx self)%Q
    /\ kf_vy (update self b sc f)
       = (alpha * (center_y b - center_y pb) / inject_Z (f - pf)
          + (1 - alpha) * kf_vy self)%Q
    /\ velocity (update self b sc f)
       = ((bx b - bx pb) / inject_Z (f - pf),
          (by_ b - by_ pb) / inject_Z (f - pf))%Q
  else
    kf_x (update self b sc f) = kf_x self
    /\ kf_y (update self b sc f) = kf_y self
    /\ kf_vx (update self b sc f) = kf_vx self
    /\ kf_vy (update self b sc f) = kf_vy self
    /\ velocity (update self b sc f) = velocity self.
Proof.
  intros Hlast. unfold update, _update_kalman.
  cbn [history frame_id with_velocity with_kalman].
  rewrite (len_snoc_two _ _ _ Hlast), from_end_snoc, Hlast.
  destruct (0 <? f - pf).
  - destruct (_ && _); cbn; repeat split.
  - destruct (_ && _); cbn; repeat split.
Qed.

Lemma update_last_frame self b sc f :
  last_frame (update self b sc f) = Some f.
Proof.
  unfold last_frame.
  assert (H : history (update self b sc f) = history self ++ [(b, sc, f)]).
  { TrackFacts.update_cases; reflexivity. }
  rewrite H, from_end_last. reflexivity.
Qed.

Lemma update_bbox self b sc f :
  bbox (update self b sc f) = b /\ score (update self b sc f) = sc
  /\ frame_id (update self b sc f) = f
  /\ last_update (update self b sc f) = f
  /\ track_id (update self b sc f) = track_id self
  /\ history (update self b sc f) = history self ++ [(b, sc, f)].
Proof. TrackFacts.update_cases; repeat split. Qed.

End SmoothingFacts.

Section TrackProperties.
Import Py PyFacts AdvancedTrack Further SmoothingFacts.

#[local] Open Scope Q_scope.



(** X5: the frame-step guard.  An [update] at a frame that is not later
    than the track's last one takes the new box and score, counts as a
    match (age grows, [time_since_update] is 0), but leaves the smoothed
    centre and both velocities as they were, so the reported box stays
    centred where it was. *)
Theorem update_without_frame_step_keeps_filter track bbox score start frame :
  last_frame track = Some start ->
  (frame <= start)%Z ->
  let track' := update track bbox score frame in
  AdvancedTrack.bbox track' = bbox
  /\ AdvancedTrack.score track' = score
  /\ age track' = (age track + 1)%Z
  /\ time_since_update track' = 0%Z
  /\ kf_x track' = kf_x track /\ kf_y track' = kf_y track
  /\ kf_vx track' = kf_vx track /\ kf_vy track' = kf_vy track
  /\ velocity track' = velocity track.
Proof.
  intros Hlast Hle. cbv zeta. unfold last_frame in Hlast.
  destruct (from_end 0 (history track)) as [[[pb ps] pf]|] eqn:E;
    [|discriminate].
  simpl in Hlast. inversion Hlast; subst pf.
  pose proof (update_filter track bbox score frame pb ps start E) as Hf.
  rewrite (proj2 (Z.ltb_ge 0 (frame - start))) in Hf by lia.
  destruct (update_bbox track bbox score frame) as (Hb & Hs & _).
  split; [exact Hb|]. split; [exact Hs|].
  split; [apply TrackFacts.update_age|].
  split; [apply TrackFacts.update_time_since_update|]. tauto.
Qed.

Lemma update_without_frame_step_keeps_filter_witness :
  let track := Examples.Tracking.first_track in
  let track' := update track FurtherExamples.left_box (9 # 10) 1 in
  last_frame track = Some 1%Z
  /\ (1 <= 1)%Z
  /\ kf_x track' = kf_x track /\ kf_y track' = kf_y track.
Proof.
  cbv zeta.
  assert (Hl : last_frame Examples.Tracking.first_track = Some 1%Z)
    by reflexivity.
  assert (Hle : (1 <= 1)%Z) by lia.
  split; [exact Hl|]. split; [exact Hle|].
  pose proof (update_without_frame_step_keeps_filter
                Examples.Tracking.first_track FurtherExamples.left_box
                (9 # 10) 1 1 Hl Hle) as H.
  cbv zeta in H. destruct H as (_ & _ & _ & _ & Hx & Hy & _).
  split; [exact Hx|exact Hy].
Defined.

End TrackProperties.

(* ================================================================== *)
(** * Further properties: the tracker's table                           *)
(* ================================================================== *)

Module TableFacts.
Import Py PyFacts DictFacts TrackerSpec TrackerFacts UpdateFacts Further
       SmoothingFacts AdvancedMultiObjectTracker.

#[local] Open Scope Z_scope.

Lemma sweep_frame_id s : frame_id (_handle_lost_tracks s) = frame_id s.
Proof.
  unfold _handle_lost_tracks.
  match goal with
  | |- context [fold_left remove_track ?l s] =>
      destruct (sweep_fold l s) as (_ & _ & _ & _ & _ & _ & _ & H)
  end.
  exact H.
Qed.

(** A property of track records that creation, ageing and matching
    keep holds of every live track of every reachable tracker. *)
Section Invariant.
Variable P : Z -> Z -> T.track -> Prop.
Hypothesis P_init : forall f k b sc c, P f k (T.__init__ k b sc f c).
Hypothesis P_aged : forall f k tr, P f k tr -> P (f + 1) k (aged tr).
Hypothesis P_update :
  forall f k tr b sc, P f k tr -> P f k (T.update tr b sc f).

Lemma live_tracks_satisfy t :
  reachable t ->
  forall k tr, get k (tracks t) = Some tr -> P (frame_id t) k tr.
Proof.
  induction 1 as [|t dets Hr IH]; [intros k tr; discriminate|].
  pose proof (reachable_consistent t Hr) as Hc.
  intros k tr. destruct dets as [|d dets].
  - rewrite update_empty. cbn [snd]. rewrite begin_frame_get.
    destruct (get k (tracks t)) as [tr0|] eqn:E; [|discriminate].
    intros Hg; inversion Hg; subst.
    change (frame_id (begin_frame t)) with (frame_id t + 1). auto.
  - rewrite update_rounds. cbn [snd]. rewrite sweep_frame_id.
    destruct (rounds_spec t (d :: dets) Hc) as (m & n & R).
    cbv zeta in R.
    destruct R as (Hc2 & _ & _ & Hf & _ & Hk2 & _ & _ & _ & _ & Hu & Hx
                   & Hnew).
    intros Hg. destruct (sweep_spec _ Hc2) as (_ & _ & Hback & _).
    apply Hback in Hg. rewrite Hf.
    pose proof (get_keys _ _ _ Hg) as Hk. rewrite Hk2 in Hk.
    apply in_app_or in Hk. destruct Hk as [Hk|Hk].
    + destruct (keys_get _ _ Hk) as [tr0 Hg0].
      destruct (in_dec Z.eq_dec k m) as [Hm|Hm].
      * destruct (Hu k tr0 Hm Hg0) as (b & sc & Hg2).
        rewrite Hg2 in Hg. inversion Hg; subst. auto.
      * rewrite (Hx k tr0 Hm Hg0) in Hg. inversion Hg; subst. auto.
    + destruct (Hnew k Hk) as (b & sc & c & Hg2).
      rewrite Hg2 in Hg. inversion Hg; subst. auto.
Qed.
End Invariant.

Lemma well_formed_init f k b sc c : well_formed f k (T.__init__ k b sc f c).
Proof.
  unfold well_formed; cbn. repeat split; try lia; try discriminate.
Qed.

Lemma well_formed_aged f k tr :
  well_formed f k tr -> well_formed (f + 1) k (aged tr).
Proof.
  unfold well_formed, aged; cbn. intros (?&?&?&?&?&?&?&?&?).
  repeat split; auto; lia.
Qed.

Lemma well_formed_update f k tr b sc :
  well_formed f k tr -> well_formed f k (T.update tr b sc f).
Proof.
  unfold well_formed. intros (H1&H2&H3&H4&H5&H6&H7&H8&H9).
  destruct (update_bbox tr b sc f) as (Eb & Es & Ef & El & Ei & Eh).
  rewrite TrackFacts.update_age, TrackFacts.update_time_since_update,
    TrackFacts.update_is_confirmed, TrackFacts.update_confidence_history,
    TrackFacts.update_age, Eb, Es, Ef, El, Ei, Eh, from_end_last.
  split; [exact H1|].
  split; [unfold len in *; rewrite length_app; simpl; lia|].
  split; [lia|].
  split.
  { unfold len. rewrite length_app. cbn [List.length].
    destruct (Z.ltb_spec 10
                (Z.of_nat (List.length (T.confidence_history tr) + 1))).
    - destruct (T.confidence_history tr); simpl in *;
        rewrite ?length_app; simpl; lia.
    - rewrite length_app. simpl. lia. }
  split; [lia|]. split; [lia|]. split; [reflexivity|].
  split; [reflexivity|].
  intros Hcf. apply orb_true_iff in Hcf. destruct Hcf as [Hcf|Hcf].
  - apply H9 in Hcf. lia.
  - apply andb_true_iff in Hcf. destruct Hcf as [Hage _].
    apply Z.leb_le in Hage. exact Hage.
Qed.

(** Ids that are not live and lie below the counter stay out of the
    table. *)
Lemma update_keys t dets k :
  consistent t ->
  In k (keys (tracks (snd (update t dets)))) ->
  In k (keys (tracks t)) \/ track_id_count t <= k.
Proof.
  intros Hc. destruct dets as [|d dets].
  - rewrite update_empty. cbn [snd]. rewrite begin_frame_keys. auto.
  - rewrite update_rounds. cbn [snd].
    destruct (rounds_spec t (d :: dets) Hc) as (m & n & R).
    cbv zeta in R. destruct R as (Hc2 & _ & _ & _ & _ & Hk2 & _).
    destruct (sweep_spec _ Hc2) as (Hsub & _).
    intros Hk. apply (subseq_In _ _ _ (subseq_map fst _ _ Hsub)) in Hk.
    fold (keys (tracks (snd (rounds t (d :: dets))))) in Hk.
    rewrite Hk2 in Hk. apply in_app_or in Hk. destruct Hk as [Hk|Hk]; auto.
    apply ids_from_In in Hk. right. lia.
Qed.

Lemma run_cons t dets frames :
  snd (run t (dets :: frames)) = snd (run (snd (update t dets)) frames).
Proof.
  cbn [run]. destruct (update t dets) as [out s]. cbn [snd].
  destruct (run s frames). reflexivity.
Qed.

Lemma gone_stays_gone frames : forall t k,
  reachable t ->
  k < track_id_count t ->
  ~ In k (keys (tracks t)) ->
  ~ In k (keys (tracks (snd (run t frames)))).
Proof.
  induction frames as [|dets frames IH]; intros t k Hr Hlt Hout; auto.
  rewrite run_cons. apply IH.
  - apply reach_update. exact Hr.
  - pose proof (update_count_mono t dets (reachable_consistent t Hr)). lia.
  - intros Hin.
    apply (update_keys t dets k (reachable_consistent t Hr)) in Hin.
    destruct Hin; [contradiction|lia].
Qed.

End TableFacts.

Section TableProperties.
Import Py PyFacts DictFacts TrackerSpec TrackerFacts UpdateFacts Further
       TableFacts AdvancedMultiObjectTracker.

#[local] Open Scope Z_scope.

(** X6: the record of every live track of a reachable tracker is well
    formed: it is stored under its own [track_id]; its age is the length of
    its history and at least 1; it keeps between 1 and 10 confidence
    samples; its [frame_id] is the frame of its last match, so that
    [frame_id + time_since_update] is the tracker's frame counter; the last
    history entry is its current box, score and frame; and it is confirmed
    only if its age is at least 3. *)
Theorem live_track_records_are_well_formed t k track :
  reachable t ->
  get k (tracks t) = Some track ->
  T.track_id track = k
  /\ T.age track = len (T.history track)
  /\ 1 <= T.age track
  /\ (1 <= List.length (T.confidence_history track) <= 10)%nat
  /\ T.frame_id track + T.time_since_update track = frame_id t
  /\ 0 <= T.time_since_update track
  /\ T.last_update track = T.frame_id track
  /\ from_end 0 (T.history track)
     = Some (T.bbox track, T.score track, T.frame_id track)
  /\ (T.is_confirmed track = true -> 3 <= T.age track).
Proof.
  intros Hr Hg.
  exact (live_tracks_satisfy well_formed well_formed_init well_formed_aged
           well_formed_update t Hr k track Hg).
Qed.

Lemma live_track_records_are_well_formed_witness :
  let t := Examples.Tracking.warmed_up in
  let track := Examples.Tracking.warm_track in
  reachable t
  /\ get 0 (tracks t) = Some track
  /\ T.age track = len (T.history track)
  /\ T.frame_id track + T.time_since_update track = frame_id t.
Proof.
  cbv zeta.
  assert (Hr : reachable Examples.Tracking.warmed_up)
    by (apply run_reachable, reach_init).
  assert (Hg : get 0 (tracks Examples.Tracking.warmed_up)
               = Some Examples.Tracking.warm_track)
    by (vm_compute; reflexivity).
  split; [exact Hr|]. split; [exact Hg|].
  destruct (live_track_records_are_well_formed Examples.Tracking.warmed_up 0
              Examples.Tracking.warm_track Hr Hg)
    as (_ & Ha & _ & _ & Hf & _).
  split; [exact Ha|exact Hf].
Defined.

(** X7: a track that has left the live table never comes back: an id below
    the id counter that is not live stays out of the table through every
    later sequence of calls. *)
Theorem removed_track_never_reappears t k frames :
  reachable t ->
  k < track_id_count t ->
  ~ In k (keys (tracks t)) ->
  get k (tracks (snd (run t frames))) = None.
Proof.
  intros Hr Hlt Hout. apply get_None.
  apply gone_stays_gone; assumption.
Qed.

Lemma removed_track_never_reappears_witness :
  let t := FurtherExamples.ball_gone in
  let frames := [[Examples.Tracking.ball_det]; [Examples.Tracking.ball_det]] in
  reachable t
  /\ 0 < track_id_count t
  /\ ~ In 0 (keys (tracks t))
  /\ get 0 (tracks (snd (run t frames))) = None.
Proof.
  cbv zeta.
  assert (Hr : reachable FurtherExamples.ball_gone)
    by (apply run_reachable, reach_init).
  assert (Hlt : 0 < track_id_count FurtherExamples.ball_gone)
    by (vm_compute; reflexivity).
  assert (Hout : ~ In 0 (keys (tracks FurtherExamples.ball_gone))).
  { vm_compute. intros [H|[]]. discriminate H. }
  split; [exact Hr|]. split; [exact Hlt|]. split; [exact Hout|].
  exact (removed_track_never_reappears FurtherExamples.ball_gone 0
           [[Examples.Tracking.ball_det]; [Examples.Tracking.ball_det]]
           Hr Hlt Hout).
Defined.

(** X8: a track keeps its class for life: whatever calls follow, as long
    as the id is live its record has the class it was created with. *)
Theorem track_class_is_fixed t k track frames track' :
  reachable t ->
  get k (tracks t) = Some track ->
  get k (tracks (snd (run t frames))) = Some track' ->
  T.class_name track' = T.class_name track.
Proof.
  revert t track. induction frames as [|dets frames IH];
    intros t track Hr Hg Hg'.
  - simpl in Hg'. congruence.
  - rewrite run_cons in Hg'.
    pose proof (reachable_consistent t Hr) as Hc.
    destruct (get k (tracks (snd (update t dets)))) as [tr1|] eqn:E1.
    + transitivity (T.class_name tr1).
      * apply (IH (snd (update t dets)) tr1); auto using reach_update.
      * destruct (track_fate t dets k track tr1 Hc Hg E1)
          as [(-> & _) | (_ & (b & sc & ->) & _)].
        -- reflexivity.
        -- rewrite TrackFacts.update_class_name. reflexivity.
    + exfalso. apply get_None in E1.
      apply (gone_stays_gone frames (snd (update t dets)) k) in E1.
      * apply E1. eapply get_keys; eauto.
      * apply reach_update; auto.
      * pose proof (update_count_mono t dets Hc).
        destruct Hc as [_ Hb _ _]. unfold below in Hb.
        rewrite Forall_forall in Hb. apply get_keys in Hg.
        apply Hb in Hg. lia.
Qed.

Lemma track_class_is_fixed_witness :
  let t := Examples.Tracking.one_player in
  let frames := [[Examples.Tracking.person_det]] in
  reachable t
  /\ get 0 (tracks t) = Some Examples.Tracking.first_track
  /\ get 0 (tracks (snd (run t frames))) = Some FurtherExamples.second_track
  /\ T.class_name FurtherExamples.second_track
     = T.class_name Examples.Tracking.first_track.
Proof.
  cbv zeta.
  assert (Hr : reachable Examples.Tracking.one_player)
    by (apply reach_update, reach_init).
  assert (Hg : get 0 (tracks Examples.Tracking.one_player)
               = Some Examples.Tracking.first_track)
    by (vm_compute; reflexivity).
  assert (Hg' : get 0 (tracks (snd (run Examples.Tracking.one_player
                                      [[Examples.Tracking.person_det]])))
                = Some FurtherExamples.second_track)
    by (vm_compute; reflexivity).
  split; [exact Hr|]. split; [exact Hg|]. split; [exact Hg'|].
  exact (track_class_is_fixed Examples.Tracking.one_player 0
           Examples.Tracking.first_track [[Examples.Tracking.person_det]]
           FurtherExamples.second_track Hr Hg Hg').
Defined.

End TableProperties.

(* ================================================================== *)
(** * Further properties: empty frames, the sweep, the id accounts      *)
(* ================================================================== *)

Module SweepFacts.
Import Py PyFacts DictFacts TrackerSpec TrackerFacts UpdateFacts Further
       TableFacts AdvancedMultiObjectTracker.

#[local] Open Scope Z_scope.

Lemma get_del_same {V} k (d : dict V) :
  NoDup (keys d) -> get k (del k d) = None.
Proof.
  intros HN. apply get_None.
  induction d as [|[k0 v0] d IH]; simpl; auto.
  inversion HN; subst.
  destruct (Z.eqb_spec k k0); simpl.
  - subst; auto.
  - intros [E|Hin]; [congruence|]. apply IH; auto.
Qed.

Lemma mem_false k l : mem k l = false <-> ~ In k l.
Proof.
  rewrite <- mem_In. destruct (mem k l); split; intros; congruence.
Qed.

Lemma predict_objects s (d : dict T.track) : forall acc,
  fold_left
    (fun tracked_objects (e : Z * T.track) =>
       let '(track_id, track) := e in
       if T.is_active track then
         tracked_objects
           ++ [ {| o_track_id := track_id;
                   o_bbox := T.predict track (frame_id s);
                   o_score := T.score track;
                   o_frame_id := frame_id s;
                   o_class := T.class_name track;
                   o_confidence := T.get_average_confidence track |} ]
       else tracked_objects)
    d acc
  = acc ++ map (fun e => predicted s (fst e) (snd e))
             (filter (fun e => T.is_active (snd e)) d).
Proof.
  induction d as [|[k tr] d IH]; intros acc; cbn [fold_left filter snd].
  - simpl. rewrite app_nil_r. reflexivity.
  - destruct (T.is_active tr).
    + rewrite IH, <- app_assoc. reflexivity.
    + apply IH.
Qed.

(** The sweep, when the ids to remove are live and not yet recorded. *)
Lemma sweep_exact (l : list Z) : forall s,
  NoDup l ->
  NoDup (keys (tracks s)) ->
  (forall k, In k l -> ~ In k (removed_tracks s)) ->
  let s' := fold_left remove_track l s in
  removed_tracks s' = removed_tracks s ++ l
  /\ forall k, get k (tracks s')
               = if mem k l then None else get k (tracks s).
Proof.
  induction l as [|k0 l IH]; intros s HNl HNk Hnew; cbn [fold_left].
  - simpl. rewrite app_nil_r. auto.
  - inversion HNl as [|? ? Hk0 HNl']; subst.
    assert (Hm : mem k0 (removed_tracks s) = false)
      by (apply mem_false, Hnew; left; reflexivity).
    assert (E : remove_track s k0
                = with_tracks (del k0 (tracks s))
                    (with_removed_tracks (removed_tracks s ++ [k0]) s)).
    { unfold remove_track, set_add. rewrite Hm. reflexivity. }
    rewrite E. set (s1 := with_tracks _ _).
    destruct (IH s1 HNl') as (R1 & G1).
    { subst s1; simpl.
      eapply subseq_NoDup; [apply subseq_map, del_subseq|exact HNk]. }
    { subst s1; simpl. intros k Hk Hin. apply in_app_or in Hin.
      destruct Hin as [Hin|[->|[]]].
      - apply (Hnew k); [right; exact Hk|exact Hin].
      - contradiction. }
    split.
    + rewrite R1. subst s1; simpl. rewrite <- app_assoc. reflexivity.
    + intros k. rewrite G1. subst s1; simpl.
      unfold mem at 2. cbn [existsb]. fold (mem k l).
      destruct (Z.eqb_spec k k0) as [->|Hne]; cbn [orb].
      * rewrite (proj2 (mem_false k0 l) Hk0). apply get_del_same, HNk.
      * destruct (mem k l); [reflexivity|].
        apply get_del_other. congruence.
Qed.

Lemma stale_spec t k :
  consistent t ->
  (In k (stale t) <->
   exists tr, get k (tracks t) = Some tr
              /\ max_time_lost t < T.time_since_update tr).
Proof.
  intros Hc. split.
  - apply to_remove_lost, Hc.
  - intros (tr & Hg & Hlt). unfold stale, keys.
    apply in_map_iff. exists (k, tr). split; [reflexivity|].
    apply filter_In. split; [apply get_In; exact Hg|].
    simpl. apply Z.ltb_lt. exact Hlt.
Qed.

Lemma handle_lost_exact t :
  consistent t ->
  (forall k, In k (keys (tracks t)) -> ~ In k (removed_tracks t)) ->
  removed_tracks (_handle_lost_tracks t) = removed_tracks t ++ stale t
  /\ forall k, get k (tracks (_handle_lost_tracks t))
               = match get k (tracks t) with
                 | Some tr =>
                     if max_time_lost t <? T.time_since_update tr
                     then None else Some tr
                 | None => None
                 end.
Proof.
  intros Hc Hdis.
  assert (HNk : NoDup (keys (tracks t))) by (apply consistent_NoDup, Hc).
  destruct (sweep_exact (stale t) t) as (R & G); auto.
  { eapply subseq_NoDup; [apply subseq_map, subseq_filter|exact HNk]. }
  { intros k Hk. apply Hdis. apply (stale_spec t k Hc) in Hk.
    destruct Hk as (tr & Hg & _). eauto using get_keys. }
  split; [exact R|].
  intros k. unfold _handle_lost_tracks. fold (stale t). rewrite G.
  destruct (get k (tracks t)) as [tr|] eqn:Eg.
  - destruct (Z.ltb_spec (max_time_lost t) (T.time_since_update tr)).
    + rewrite (proj2 (mem_In k (stale t))); [reflexivity|].
      apply stale_spec; eauto.
    + rewrite (proj2 (mem_false k (stale t))); [reflexivity|].
      intros Hin. apply (stale_spec t k Hc) in Hin.
      destruct Hin as (tr' & Hg' & Hlt). rewrite Eg in Hg'.
      inversion Hg'; subst. lia.
  - destruct (mem k (stale t)); reflexivity.
Qed.

Lemma in_keys_iff {V} k (d : dict V) : In k (keys d) <-> get k d <> None.
Proof.
  split.
  - intros Hin E. apply get_None in E. contradiction.
  - intros Hne. destruct (get k d) eqn:E; [|congruence].
    eapply get_keys; eauto.
Qed.

(** The accounts survive every step of a call. *)
Lemma accounted_begin_frame t : accounted t -> accounted (begin_frame t).
Proof.
  intros (H0 & HN & Hd & Hc). unfold accounted.
  rewrite begin_frame_keys. exact (conj H0 (conj HN (conj Hd Hc))).
Qed.

Lemma accounted_rounds t dets :
  consistent t -> accounted t -> accounted (snd (rounds t dets)).
Proof.
  intros Hc (H0 & HN & Hd & Hcov).
  destruct (rounds_spec t dets Hc) as (m & n & R). cbv zeta in R.
  destruct R as (Hc2 & Hrm & _ & _ & Hcnt & Hk2 & _).
  unfold accounted. rewrite Hrm, Hk2, Hcnt.
  destruct Hc as [_ _ Hr _]. unfold below in Hr.
  rewrite Forall_forall in Hr.
  split; [lia|]. split; [exact HN|]. split.
  - intros k Hk Hin. apply in_app_or in Hk. destruct Hk as [Hk|Hk].
    + exact (Hd k Hk Hin).
    + apply ids_from_In in Hk. apply Hr in Hin. lia.
  - intros k. rewrite in_app_iff, ids_from_In. specialize (Hcov k).
    split.
    + intros Hk. destruct (Z.lt_ge_cases k (track_id_count t)).
      * destruct (proj1 Hcov) as [H1|H1]; [lia|auto|auto].
      * left. right. lia.
    + intros [[Hk|Hk]|Hk].
      * assert (0 <= k < track_id_count t) by tauto. lia.
      * lia.
      * assert (0 <= k < track_id_count t) by tauto. lia.
Qed.

Lemma accounted_sweep s :
  consistent s -> accounted s -> accounted (_handle_lost_tracks s).
Proof.
  intros Hc (H0 & HN & Hd & Hcov).
  destruct (handle_lost_exact s Hc Hd) as (R & G).
  destruct (sweep_spec s Hc) as (_ & _ & _ & _ & _ & Hcnt).
  assert (Hk : forall k, In k (keys (tracks (_handle_lost_tracks s)))
                         <-> In k (keys (tracks s)) /\ ~ In k (stale s)).
  { intros k. rewrite !in_keys_iff, G, (stale_spec s k Hc).
    destruct (get k (tracks s)) as [tr|] eqn:E.
    - destruct (Z.ltb_spec (max_time_lost s) (T.time_since_update tr)).
      + split; [congruence|]. intros [_ Hn]. exfalso. apply Hn. eauto.
      + split; [|congruence]. intros _. split; [congruence|].
        intros (tr' & E' & Hlt). inversion E'; subst. lia.
    - split; [congruence|]. intros [Hn _]. congruence. }
  assert (Hst : forall k, In k (stale s) -> In k (keys (tracks s))).
  { intros k Hin. apply (stale_spec s k Hc) in Hin.
    destruct Hin as (tr & Hg & _). eauto using get_keys. }
  unfold accounted. rewrite R, Hcnt.
  split; [exact H0|]. split.
  { apply NoDup_app; auto.
    - eapply subseq_NoDup;
        [apply subseq_map, subseq_filter|apply consistent_NoDup, Hc].
    - intros k Hin Hs. exact (Hd k (Hst k Hs) Hin). }
  split.
  - intros k Hin Hr. apply Hk in Hin. destruct Hin as [Hin Hn].
    apply in_app_or in Hr. destruct Hr as [Hr|Hr]; [|contradiction].
    exact (Hd k Hin Hr).
  - intros k. rewrite (Hcov k), Hk, in_app_iff.
    pose proof (Hst k).
    destruct (in_dec Z.eq_dec k (stale s)); tauto.
Qed.

Lemma reachable_accounted t : reachable t -> accounted t.
Proof.
  induction 1 as [|t dets Hr IH].
  - unfold accounted; simpl. split; [lia|]. split; [constructor|].
    split; [intros k []|]. intros k; split; [lia|intros [[]|[]]].
  - pose proof (reachable_consistent t Hr) as Hc.
    destruct dets as [|d dets].
    + rewrite update_empty. cbn [snd]. apply accounted_begin_frame, IH.
    + rewrite update_rounds. cbn [snd].
      destruct (rounds_spec t (d :: dets) Hc) as (m & n & R).
      cbv zeta in R. destruct R as (Hc2 & _).
      apply accounted_sweep; [exact Hc2|].
      apply accounted_rounds; auto.
Qed.

Lemma ids_from_NoDup n k : NoDup (ids_from n k).
Proof. apply ascending_NoDup, ids_from_ascending. Qed.

Lemma ids_from_length n k : List.length (ids_from n k) = k.
Proof. unfold ids_from. rewrite length_map, length_seq. reflexivity. Qed.

Lemma accounted_count t :
  consistent t -> accounted t ->
  len (tracks t) + len (removed_tracks t) = track_id_count t.
Proof.
  intros Hc (H0 & HN & Hd & Hcov).
  assert (HP : Permutation (keys (tracks t) ++ removed_tracks t)
                 (ids_from 0 (Z.to_nat (track_id_count t)))).
  { apply NoDup_Permutation.
    - apply NoDup_app; auto. apply consistent_NoDup, Hc.
    - apply ids_from_NoDup.
    - intros k. rewrite in_app_iff, ids_from_In, <- (Hcov k). lia. }
  apply Permutation_length in HP.
  rewrite length_app, ids_from_length in HP.
  unfold keys in HP. rewrite length_map in HP. unfold len. lia.
Qed.

(** ** Empty frames *)

Lemma filter_aged (d : dict T.track) :
  (forall e, In e d -> 1 <= T.age (snd e)) ->
  filter (fun e => T.is_active (snd e))
    (map (fun e : Z * T.track => (fst e, aged (snd e))) d)
  = map (fun e : Z * T.track => (fst e, aged (snd e)))
      (filter (fun e => T.time_since_update (snd e) <? 9) d).
Proof.
  induction d as [|[k tr] d IH]; intros Hage; [reflexivity|].
  cbn [map filter fst snd].
  assert (E : T.is_active (aged tr) = (T.time_since_update tr <? 9)).
  { unfold T.is_active, aged. cbn.
    pose proof (Hage (k, tr) (or_introl eq_refl)) as H1. cbn in H1.
    destruct (Z.ltb_spec (T.time_since_update tr + 1) 10),
      (Z.ltb_spec (T.time_since_update tr) 9),
      (Z.ltb_spec 0 (T.age tr)); try reflexivity; lia. }
  rewrite E, IH by (intros e He; apply Hage; right; exact He).
  destruct (T.time_since_update tr <? 9); reflexivity.
Qed.

Lemma predict_aged f tr :
  T.frame_id tr + T.time_since_update tr = f ->
  0 <= T.time_since_update tr ->
  T.predict (aged tr) (f + 1)
  = extrapolated tr (T.time_since_update tr + 1).
Proof.
  intros Hf H0. unfold T.predict, aged, extrapolated. cbn.
  replace (f + 1 - T.frame_id tr) with (T.time_since_update tr + 1) by lia.
  destruct (Z.ltb_spec 0 (T.time_since_update tr + 1)); [reflexivity|lia].
Qed.

End SweepFacts.

Section SweepProperties.
Import Py PyFacts DictFacts TrackerSpec TrackerFacts UpdateFacts Further
       TableFacts SweepFacts AdvancedMultiObjectTracker.

#[local] Open Scope Z_scope.

(** X9: a frame without detections creates and removes nothing (live ids,
    id counter and removed set are as before) and reports exactly the live
    tracks that had gone fewer than 9 frames without a match, in table
    order; each is reported with its stored score and class and with its
    box moved from the filtered centre along the filtered velocity over
    the number of frames since its last match, never with its raw box. *)
Theorem empty_frame_extrapolates_recent_tracks t :
  reachable t ->
  let out := fst (update t []) in
  let t' := snd (update t []) in
  keys (tracks t') = keys (tracks t)
  /\ track_id_count t' = track_id_count t
  /\ removed_tracks t' = removed_tracks t
  /\ ids out
     = keys (filter (fun e => T.time_since_update (snd e) <? 9) (tracks t))
  /\ forall o, In o out ->
       exists track,
         get (o_track_id o) (tracks t) = Some track
         /\ T.time_since_update track < 9
         /\ o_frame_id o = frame_id t + 1
         /\ o_score o = T.score track
         /\ o_class o = T.class_name track
         /\ o_confidence o = T.get_average_confidence track
         /\ o_bbox o = extrapolated track (T.time_since_update track + 1).
Proof.
  intros Hr. cbv zeta. rewrite update_empty. cbn [fst snd].
  pose proof (reachable_consistent t Hr) as Hc.
  assert (Hwf : forall k tr, get k (tracks t) = Some tr ->
                             well_formed (frame_id t) k tr).
  { exact (live_tracks_satisfy well_formed well_formed_init well_formed_aged
             well_formed_update t Hr). }
  assert (HN : NoDup (keys (tracks t))) by (apply consistent_NoDup, Hc).
  assert (Hage : forall e, In e (tracks t) -> 1 <= T.age (snd e)).
  { intros [k tr] Hin. apply (In_get _ _ _ HN) in Hin.
    destruct (Hwf k tr Hin) as (_ & _ & H & _). exact H. }
  assert (Eout : _predict_tracks (begin_frame t)
                 = map (fun e => predicted (begin_frame t) (fst e)
                                   (aged (snd e)))
                     (filter (fun e => T.time_since_update (snd e) <? 9)
                        (tracks t))).
  { unfold _predict_tracks. rewrite predict_objects. cbn [app].
    change (tracks (begin_frame t))
      with (map (fun e : Z * T.track => (fst e, aged (snd e))) (tracks t)).
    rewrite (filter_aged _ Hage), map_map. reflexivity. }
  split; [apply begin_frame_keys|]. split; [reflexivity|].
  split; [reflexivity|]. split.
  - rewrite Eout. unfold ids, keys. rewrite map_map. reflexivity.
  - intros o Hin. rewrite Eout in Hin. apply in_map_iff in Hin.
    destruct Hin as ([k tr] & <- & Hin). apply filter_In in Hin.
    destruct Hin as [Hin Hrec]. cbn [fst snd] in *.
    apply (In_get _ _ _ HN) in Hin.
    destruct (Hwf k tr Hin) as (_ & _ & _ & _ & Hf & H0 & _).
    exists tr. cbn [predicted o_track_id o_frame_id o_score o_class
                      o_confidence o_bbox].
    split; [exact Hin|]. split; [apply Z.ltb_lt; exact Hrec|].
    split; [reflexivity|]. split; [reflexivity|]. split; [reflexivity|].
    split; [reflexivity|].
    change (frame_id (begin_frame t)) with (frame_id t + 1).
    apply predict_aged; assumption.
Qed.

Lemma empty_frame_extrapolates_recent_tracks_witness :
  let t := Examples.Tracking.one_player in
  reachable t
  /\ keys (tracks (snd (update t []))) = keys (tracks t)
  /\ ids (fst (update t []))
     = keys (filter (fun e => T.time_since_update (snd e) <? 9) (tracks t)).
Proof.
  cbv zeta.
  assert (Hr : reachable Examples.Tracking.one_player)
    by (apply reach_update, reach_init).
  split; [exact Hr|].
  destruct (empty_frame_extrapolates_recent_tracks
              Examples.Tracking.one_player Hr) as (Hk & _ & _ & Hi & _).
  split; [exact Hk|exact Hi].
Defined.

(** X10: the sweep that ends a call with detections removes exactly the
    tracks that have then gone more than [max_time_lost] frames without a
    match, whatever their class: every track live after the call has
    [time_since_update] at most [max_time_lost]; a track that was live
    before the call and is not reported by it stays live exactly when its
    [time_since_update], raised by one, is at most [max_time_lost], and is
    recorded as removed otherwise. *)
Theorem sweep_removes_exactly_the_stale_tracks t detections :
  reachable t ->
  detections <> [] ->
  let out := fst (update t detections) in
  let t' := snd (update t detections) in
  (forall k track', get k (tracks t') = Some track' ->
     T.time_since_update track' <= max_time_lost t)
  /\ (forall k track,
        get k (tracks t) = Some track -> ~ In k (ids out) ->
        if T.time_since_update track + 1 <=? max_time_lost t
        then get k (tracks t') = Some (aged track)
             /\ ~ In k (removed_tracks t')
        else get k (tracks t') = None /\ In k (removed_tracks t')).
Proof.
  intros Hr Hne. destruct detections as [|d dets]; [congruence|].
  cbv zeta. rewrite update_rounds. cbn [fst snd].
  pose proof (reachable_consistent t Hr) as Hc.
  pose proof (reachable_accounted t Hr) as Hacc.
  pose proof (accounted_rounds t (d :: dets) Hc Hacc) as Hacc2.
  destruct (rounds_spec t (d :: dets) Hc) as (m & n & R). cbv zeta in R.
  destruct R as (Hc2 & Hrm & Hml & _ & _ & Hk2 & _ & Hout & _ & _ & _ & Hx
                 & _).
  pose proof Hacc2 as (_ & _ & Hd2 & _).
  destruct (handle_lost_exact _ Hc2 Hd2) as (R & G).
  pose proof (accounted_sweep _ Hc2 Hacc2) as (_ & _ & Hd3 & _).
  split.
  - intros k tr' Hg. rewrite G in Hg.
    destruct (get k (tracks (snd (rounds t (d :: dets))))) as [tr|];
      [|discriminate].
    destruct (Z.ltb_spec (max_time_lost (snd (rounds t (d :: dets))))
                (T.time_since_update tr)); [discriminate|].
    inversion Hg; subst. lia.
  - intros k tr Hg Hnot.
    assert (Hm : ~ In k m) by (intros Hm; apply Hnot, Hout; auto).
    pose proof (Hx k tr Hm Hg) as Hg2.
    assert (Hget := G k). rewrite Hg2, Hml in Hget.
    change (T.time_since_update (aged tr))
      with (T.time_since_update tr + 1) in Hget.
    destruct (Z.leb_spec (T.time_since_update tr + 1) (max_time_lost t)).
    + destruct (Z.ltb_spec (max_time_lost t) (T.time_since_update tr + 1));
        [lia|].
      split; [exact Hget|]. apply Hd3. eapply get_keys; eauto.
    + destruct (Z.ltb_spec (max_time_lost t) (T.time_since_update tr + 1));
        [|lia].
      split; [exact Hget|]. rewrite R. apply in_or_app. right.
      apply stale_spec; [exact Hc2|]. exists (aged tr).
      split; [exact Hg2|]. rewrite Hml. exact H0.
Qed.

Lemma sweep_removes_exactly_the_stale_tracks_witness :
  let t := Examples.Tracking.one_player in
  let detections := [Examples.Tracking.ball_det] in
  reachable t
  /\ detections <> []
  /\ forall k track',
       get k (tracks (snd (update t detections))) = Some track' ->
       T.time_since_update track' <= max_time_lost t.
Proof.
  cbv zeta.
  assert (Hr : reachable Examples.Tracking.one_player)
    by (apply reach_update, reach_init).
  assert (Hne : [Examples.Tracking.ball_det] <> []) by discriminate.
  split; [exact Hr|]. split; [exact Hne|].
  exact (proj1 (sweep_removes_exactly_the_stale_tracks
                  Examples.Tracking.one_player [Examples.Tracking.ball_det]
                  Hr Hne)).
Defined.

(** X11: the id accounts balance: in every reachable tracker the live
    tracks and the recorded removals are disjoint and together are exactly
    the ids handed out so far, so that in [get_track_statistics] the number
    of active tracks plus the size of the removed set is the total number
    of tracks created, and the confirmed tracks are at most the active
    ones. *)
Theorem track_statistics_balance t :
  reachable t ->
  let '(active_tracks, confirmed_tracks, total_tracks_created) :=
    get_track_statistics t in
  active_tracks + len (removed_tracks t) = total_tracks_created
  /\ 0 <= confirmed_tracks <= active_tracks
  /\ (forall k, In k (keys (tracks t)) -> ~ In k (removed_tracks t))
  /\ (forall k, 0 <= k < total_tracks_created <->
                In k (keys (tracks t)) \/ In k (removed_tracks t)).
Proof.
  intros Hr. unfold get_track_statistics.
  pose proof (reachable_consistent t Hr) as Hc.
  pose proof (reachable_accounted t Hr) as Hacc.
  split; [apply accounted_count; assumption|].
  split.
  - unfold len. split; [lia|]. apply inj_le, filter_length_le.
  - destruct Hacc as (_ & _ & Hd & Hcov). auto.
Qed.

Lemma track_statistics_balance_witness :
  let t := FurtherExamples.ball_gone in
  reachable t
  /\ len (tracks t) + len (removed_tracks t) = track_id_count t.
Proof.
  cbv zeta.
  assert (Hr : reachable FurtherExamples.ball_gone)
    by (apply run_reachable, reach_init).
  split; [exact Hr|].
  pose proof (track_statistics_balance FurtherExamples.ball_gone Hr) as H.
  unfold get_track_statistics in H. exact (proj1 H).
Defined.

End SweepProperties.

(* ================================================================== *)
(** * Further properties: the association partitions the detections    *)
(* ================================================================== *)

Module MatchFacts.
Import Py PyFacts DictFacts TrackerSpec TrackerFacts Further
       AdvancedMultiObjectTracker.

#[local] Open Scope Q_scope.

(** What the inner loop returns is a candidate above the threshold and
    above zero. *)
Lemma best_match_for_fold cm th i (pool : list nat) :
  forall (l : list nat) (b : option nat) (v : Q),
    incl l pool ->
    0 <= v ->
    (forall j, b = Some j ->
       In j pool /\ th < 1 - cell cm i j /\ 0 < 1 - cell cm i j) ->
    forall j,
      fst (fold_left
             (fun (best : option nat * Q) (j : nat) =>
                let iou := 1 - cell cm i j in
                if Qltb th iou && Qltb (snd best) iou
                then (Some j, iou) else best)
             l (b, v)) = Some j ->
      In j pool /\ th < 1 - cell cm i j /\ 0 < 1 - cell cm i j.
Proof.
  induction l as [|x l IH]; intros b v Hl Hv Hb j; cbn [fold_left fst].
  - apply Hb.
  - cbv zeta. cbn [snd].
    destruct (Qltb th (1 - cell cm i x) && Qltb v (1 - cell cm i x)) eqn:E.
    + apply andb_true_iff in E. destruct E as [E1 E2].
      apply Qltb_lt in E1, E2.
      apply IH.
      * intros y Hy. apply Hl. right. exact Hy.
      * lra.
      * intros j' Ej. inversion Ej; subst.
        split; [apply Hl; left; reflexivity|]. split; [exact E1|lra].
    + apply IH; auto. intros y Hy. apply Hl. right. exact Hy.
Qed.

Lemma best_match_for_spec cm th i pool j :
  fst (best_match_for cm th i pool) = Some j ->
  In j pool /\ th < 1 - cell cm i j /\ 0 < 1 - cell cm i j.
Proof.
  unfold best_match_for.
  apply (best_match_for_fold cm th i pool pool None 0).
  - apply incl_refl.
  - lra.
  - discriminate.
Qed.

Lemma remove_perm j (u : list nat) :
  In j u -> Permutation (j :: remove j u) u.
Proof.
  induction u as [|y u IH]; simpl; [tauto|].
  destruct (Nat.eqb_spec j y) as [->|Hne]; intros Hin.
  - reflexivity.
  - destruct Hin as [E|Hin]; [congruence|].
    rewrite perm_swap. constructor. apply IH, Hin.
Qed.

Lemma match_fold_partition cm th (its : list (nat * Z)) : forall m u,
  let r := fold_left (match_step cm th) its (m, u) in
  Permutation (map snd (fst r) ++ snd r) (map snd m ++ u)
  /\ subseq (snd r) u
  /\ forall k j, In (k, j) (fst r) ->
       In (k, j) m
       \/ exists i, In (i, k) its
                    /\ th < 1 - cell cm i j /\ 0 < 1 - cell cm i j.
Proof.
  induction its as [|[i k] its IH]; intros m u; cbn [fold_left].
  - cbn [fst snd]. split; [reflexivity|]. split; [apply subseq_refl|auto].
  - destruct (fst (best_match_for cm th i u)) as [j|] eqn:E.
    + assert (Es : match_step cm th (m, u) (i, k)
                   = (m ++ [(k, j)], remove j u))
        by (unfold match_step; rewrite E; reflexivity).
      rewrite Es.
      destruct (best_match_for_spec cm th i u j E) as (Hin & H1 & H2).
      destruct (IH (m ++ [(k, j)]) (remove j u)) as (P & S & M).
      cbv zeta. split; [|split].
      * rewrite P, map_app, <- app_assoc. cbn [map snd app].
        apply Permutation_app_head, remove_perm, Hin.
      * eapply subseq_trans; [exact S|apply remove_subseq].
      * intros k' j' Hm. destruct (M k' j' Hm) as [Hm'|(i' & Hi & Hth)].
        -- apply in_app_or in Hm'. destruct Hm' as [Hm'|[Eq|[]]]; auto.
           inversion Eq; subst. right. exists i. simpl. auto.
        -- right. exists i'. simpl. auto.
    + assert (Es : match_step cm th (m, u) (i, k) = (m, u))
        by (unfold match_step; rewrite E; reflexivity).
      rewrite Es.
      destruct (IH m u) as (P & S & M). cbv zeta.
      split; [exact P|]. split; [exact S|].
      intros k' j' Hm. destruct (M k' j' Hm) as [Hm'|(i' & Hi & Hth)]; auto.
      right. exists i'. simpl. auto.
Qed.

(** An entry of the cost matrix is one minus the IoU of the row's
    smoothed track box with the column's detection. *)
Lemma cell_iou (d : dict T.track) bbs i k j tr :
  nth_error (keys d) i = Some k ->
  get k d = Some tr ->
  (j < List.length bbs)%nat ->
  1 - cell (map (cost_row d bbs) (keys d)) i j == smoothed_iou tr bbs j.
Proof.
  intros Hi Hg Hj. unfold cell.
  assert (E : nth i (map (cost_row d bbs) (keys d)) []
              = cost_row d bbs k).
  { apply nth_error_nth. rewrite nth_error_map, Hi. reflexivity. }
  rewrite E. unfold cost_row. rewrite Hg. cbv zeta.
  rewrite (nth_indep _ 0
             (1 - compute_iou (T.get_smoothed_bbox tr) default_bbox))
    by (rewrite length_map; exact Hj).
  rewrite (map_nth
             (fun det_bbox =>
                1 - compute_iou (T.get_smoothed_bbox tr) det_bbox)).
  unfold smoothed_iou. ring.
Qed.

Lemma match_tracks_perm self (d : dict T.track) bbs scs c :
  Permutation
    (map snd (fst (_match_tracks self d bbs scs c))
     ++ snd (_match_tracks self d bbs scs c))
    (seq 0 (List.length bbs)).
Proof.
  unfold _match_tracks. destruct d as [|e0 d0]; [reflexivity|].
  match goal with
  | |- context [fold_left (match_step ?cm ?th) ?its ?a] =>
      destruct (match_fold_partition cm th its (fst a) (snd a))
        as (P & _ & _)
  end.
  exact P.
Qed.

End MatchFacts.

Section MatchProperties.
Import Py PyFacts DictFacts TrackerSpec TrackerFacts Further MatchFacts
       AssociationFacts AdvancedMultiObjectTracker.


End MatchProperties.

(* ================================================================== *)
(** * Further properties: what a reported object says                  *)
(* ================================================================== *)

Module ReportFacts.
Import Py PyFacts DictFacts TrackerSpec TrackerFacts UpdateFacts Further
       SmoothingFacts TableFacts AdvancedMultiObjectTracker.

#[local] Open Scope Z_scope.

Lemma reported_as_transfer c s s' o :
  frame_id s' = frame_id s ->
  get (o_track_id o) (tracks s') = get (o_track_id o) (tracks s) ->
  reported_as c s o -> reported_as c s' o.
Proof.
  intros Hf Hg (tr & G & E & Hc & Ht & Hfr).
  exists tr. rewrite Hg, Hf. unfold report in *. rewrite Hf. auto.
Qed.

Lemma matched_reports c bbs scs (ms : list (Z * nat)) : forall out s,
  NoDup (map fst ms) ->
  (forall k, In k (map fst ms) -> ~ In k (ids out)) ->
  (forall k, In k (map fst ms) ->
     exists tr, get k (tracks s) = Some tr /\ T.class_name tr = c) ->
  Forall (reported_as c s) out ->
  let r := fold_left (update_matched c bbs scs) ms (out, s) in
  Forall (reported_as c (snd r)) (fst r).
Proof.
  induction ms as [|[k j] ms IH]; intros out s HN Hfresh Hcl Hout;
    cbn [fold_left]; [exact Hout|].
  cbn [map fst] in HN, Hfresh, Hcl. inversion HN as [|? ? Hk HN']; subst.
  destruct (Hcl k (or_introl eq_refl)) as (tr & Hg & Hc).
  set (tr' := T.update tr (nth j bbs default_bbox) (nth j scs 0%Q)
                (frame_id s)).
  set (s1 := with_tracks (set k tr' (tracks s)) s).
  assert (Es : update_matched c bbs scs (out, s) (k, j)
               = (out ++ [report s k tr' c], s1))
    by (unfold update_matched; rewrite Hg; reflexivity).
  rewrite Es. apply IH; auto.
  - intros k' Hk' Hin. unfold ids in Hin. rewrite map_app in Hin.
    apply in_app_or in Hin. destruct Hin as [Hin|[E|[]]].
    + exact (Hfresh k' (or_intror Hk') Hin).
    + simpl in E. congruence.
  - intros k' Hk'. destruct (Hcl k' (or_intror Hk')) as (tr0 & G0 & C0).
    exists tr0. split; [|exact C0]. subst s1. cbn [tracks with_tracks].
    rewrite get_set_other; [exact G0|congruence].
  - apply Forall_app. split.
    + rewrite Forall_forall in *. intros o Ho.
      apply (reported_as_transfer c s s1 o); auto.
      subst s1. cbn [tracks with_tracks].
      apply get_set_other. intros E.
      apply (Hfresh k (or_introl eq_refl)). rewrite E.
      apply in_map. exact Ho.
    + constructor; [|constructor].
      exists tr'. cbn [report o_track_id]. subst s1.
      cbn [tracks with_tracks]. rewrite get_set_same.
      split; [reflexivity|]. split; [reflexivity|]. subst tr'.
      rewrite TrackFacts.update_class_name,
        TrackFacts.update_time_since_update.
      destruct (update_bbox tr (nth j bbs default_bbox) (nth j scs 0%Q)
                  (frame_id s)) as (_ & _ & Ef & _).
      rewrite Ef. auto.
Qed.

Lemma create_reports {X} (fb : X -> BBox Q) (fs : X -> Q) c (l : list X) :
  forall out s,
    below (track_id_count s) (keys (tracks s)) ->
    Forall (reported_as c s) out ->
    let r := fold_left (fun acc x => create_track c acc (fb x) (fs x)) l
               (out, s) in
    Forall (reported_as c (snd r)) (fst r).
Proof.
  induction l as [|x l IH]; intros out s Hb Hout; cbn [fold_left];
    [exact Hout|].
  destruct (Qltb (track_thresh s) (fs x)) eqn:Eq.
  2:{ assert (Es : create_track c (out, s) (fb x) (fs x) = (out, s))
        by (unfold create_track; rewrite Eq; reflexivity).
      rewrite Es. apply IH; assumption. }
  set (k := track_id_count s).
  set (tr := T.__init__ k (fb x) (fs x) (frame_id s) c).
  set (s1 := with_tracks (set k tr (tracks s))
               (with_track_id_count (k + 1) s)).
  assert (Es : create_track c (out, s) (fb x) (fs x)
               = (out ++ [report s1 k tr c], s1))
    by (unfold create_track; rewrite Eq; reflexivity).
  rewrite Es.
  assert (Hk : ~ In k (keys (tracks s))) by (apply below_notin, Hb).
  apply IH.
  - subst s1. cbn [tracks with_tracks track_id_count with_track_id_count].
    rewrite (set_notin _ _ _ Hk), keys_app. apply Forall_app. split.
    + eapply below_weaken; [|exact Hb]. lia.
    + constructor; [|constructor]. simpl. fold k. lia.
  - apply Forall_app. split.
    + rewrite Forall_forall in *. intros o Ho.
      destruct (Hout o Ho) as (tr0 & G0 & E0 & R0).
      apply (reported_as_transfer c s s1 o);
        [reflexivity| |exact (Hout o Ho)].
      subst s1. cbn [tracks with_tracks with_track_id_count].
      apply get_set_other. intros E. apply Hk. rewrite E.
      eapply get_keys; eauto.
    + constructor; [|constructor].
      exists tr. subst s1.
      cbn [report o_track_id tracks with_tracks with_track_id_count].
      rewrite get_set_same. repeat split; reflexivity.
Qed.

Lemma class_round_reports t dets c :
  consistent t ->
  let r := _update_class_tracks t dets c in
  Forall (reported_as c (snd r)) (fst r).
Proof.
  intros Hc. cbv zeta. unfold _update_class_tracks.
  destruct dets as [|d0 dets]; [constructor|].
  fold (class_tracks t c).
  destruct (class_tracks t c) as [|e0 ct] eqn:Ect.
  - apply (create_reports d_bbox d_score c (d0 :: dets) [] t);
      [apply Hc|constructor].
  - rewrite <- Ect.
    pose proof (match_tracks_subseq t (class_tracks t c)
                  (map d_bbox (d0 :: dets)) (map d_score (d0 :: dets)) c)
      as Hsub.
    destruct (_match_tracks t (class_tracks t c) (map d_bbox (d0 :: dets))
                (map d_score (d0 :: dets)) c) as [ms um].
    cbn [fst] in Hsub.
    assert (HN : NoDup (map fst ms)).
    { eapply subseq_NoDup; [exact Hsub|].
      eapply subseq_NoDup;
        [apply subseq_map, class_tracks_subseq
        |apply consistent_NoDup, Hc]. }
    assert (Hcl : forall k, In k (map fst ms) ->
              exists tr, get k (tracks t) = Some tr
                         /\ T.class_name tr = c).
    { intros k Hk. apply class_tracks_get; auto.
      eapply subseq_In; eauto. }
    pose proof (matched_reports c (map d_bbox (d0 :: dets))
                  (map d_score (d0 :: dets)) ms [] t HN
                  (fun _ _ H => H) Hcl (Forall_nil _)) as Hrep.
    cbv zeta in Hrep.
    destruct (matched_fold c (map d_bbox (d0 :: dets))
                (map d_score (d0 :: dets)) ms [] t HN)
      as (out1 & s1 & E1 & _ & A2 & _ & _ & A5 & _).
    { intros k Hk. destruct (Hcl k Hk) as (tr & G & _).
      eapply get_keys; eauto. }
    rewrite E1 in Hrep |- *. cbn [fst snd] in Hrep.
    apply (create_reports
             (fun det_idx => nth det_idx (map d_bbox (d0 :: dets))
                               default_bbox)
             (fun det_idx => nth det_idx (map d_score (d0 :: dets)) 0%Q)
             c um out1 s1); [|exact Hrep].
    rewrite A2, A5. apply Hc.
Qed.

Lemma reported_as_kept c c' s dets o :
  consistent s -> c <> c' ->
  reported_as c s o ->
  reported_as c (snd (_update_class_tracks s dets c')) o.
Proof.
  intros Hc Hne Hrep.
  destruct (class_round s dets c' Hc)
    as (out & s' & matched & news & E & _ & Hsub & _ & _ & _ & _ & Hkeep
        & _ & Hsame).
  rewrite E. cbn [snd].
  destruct Hsame as (_ & _ & _ & _ & Hf & _).
  pose proof Hrep as (tr & G & _ & Hcl & _).
  apply (reported_as_transfer c s s' o); auto.
  apply Hkeep; [eapply get_keys; eauto|].
  intros Hm. apply (subseq_In _ _ _ Hsub) in Hm.
  destruct (class_tracks_get s c' _ Hc Hm) as (tr' & G' & Hcl').
  rewrite G in G'. inversion G'; subst. congruence.
Qed.

Lemma rounds_report t dets :
  consistent t ->
  Forall (fun o => reported_as "person" (snd (rounds t dets)) o
                   \/ reported_as "ball" (snd (rounds t dets)) o)
    (fst (rounds t dets)).
Proof.
  intros Hc. unfold rounds. cbv zeta. cbn [fst snd].
  set (r1 := _update_class_tracks (begin_frame t)
               (filter (has_class "person") dets) "person").
  assert (Hc0 : consistent (begin_frame t))
    by (apply begin_frame_consistent; exact Hc).
  assert (Hc1 : consistent (snd r1))
    by (apply class_round_consistent; exact Hc0).
  apply Forall_app. split.
  - pose proof (class_round_reports (begin_frame t)
                  (filter (has_class "person") dets) "person" Hc0) as H1.
    cbv zeta in H1. fold r1 in H1.
    eapply Forall_impl; [|exact H1]. intros o Ho. left.
    apply reported_as_kept; auto. discriminate.
  - pose proof (class_round_reports (snd r1)
                  (filter (has_class "ball") dets) "ball" Hc1) as H2.
    cbv zeta in H2.
    eapply Forall_impl; [|exact H2]. intros o Ho. right. exact Ho.
Qed.

End ReportFacts.

Section ReportProperties.
Import Py PyFacts DictFacts TrackerSpec TrackerFacts UpdateFacts Further
       TableFacts ReportFacts AdvancedMultiObjectTracker.

#[local] Open Scope Z_scope.

(** X13: what a call with detections reports is what it stores: when
    [max_time_lost] is not negative, every reported object carries the id
    of a track that is live after the call, and its box, score, class and
    confidence are the smoothed box, the score, the class and the average
    confidence of that track's record; the record was matched or created
    in this very frame; and the class is person or ball. *)
Theorem reported_objects_describe_live_tracks t detections o :
  reachable t ->
  0 <= max_time_lost t ->
  detections <> [] ->
  In o (fst (update t detections)) ->
  let t' := snd (update t detections) in
  exists track,
    get (o_track_id o) (tracks t') = Some track
    /\ o_bbox o = T.get_smoothed_bbox track
    /\ o_score o = T.score track
    /\ o_class o = T.class_name track
    /\ o_confidence o = T.get_average_confidence track
    /\ o_frame_id o = frame_id t + 1
    /\ T.frame_id track = frame_id t + 1
    /\ T.time_since_update track = 0
    /\ (o_class o = "person"%string \/ o_class o = "ball"%string).
Proof.
  intros Hr Hml Hne Hin. destruct detections as [|d dets]; [congruence|].
  cbv zeta. rewrite update_rounds in Hin |- *. cbn [fst snd] in Hin |- *.
  pose proof (reachable_consistent t Hr) as Hc.
  destruct (rounds_spec t (d :: dets) Hc) as (m & n & R). cbv zeta in R.
  destruct R as (Hc2 & _ & Hml2 & Hf2 & _).
  destruct (sweep_spec _ Hc2) as (_ & Hstay & _).
  pose proof (rounds_report t (d :: dets) Hc) as Hrep.
  rewrite Forall_forall in Hrep.
  assert (Hone : forall c, reported_as c (snd (rounds t (d :: dets))) o ->
            exists track,
              get (o_track_id o)
                (tracks (_handle_lost_tracks (snd (rounds t (d :: dets)))))
              = Some track
              /\ o_bbox o = T.get_smoothed_bbox track
              /\ o_score o = T.score track
              /\ o_class o = T.class_name track
              /\ o_confidence o = T.get_average_confidence track
              /\ o_frame_id o = frame_id t + 1
              /\ T.frame_id track = frame_id t + 1
              /\ T.time_since_update track = 0
              /\ o_class o = c).
  { intros c (tr & G & E & Hcl & Ht & Hfr). exists tr.
    split; [apply Hstay; [exact G|rewrite Ht, Hml2; exact Hml]|].
    rewrite E. cbn [report o_bbox o_score o_class o_confidence o_frame_id].
    rewrite Hfr, Hf2, Hcl. repeat split; auto. }
  destruct (Hrep o Hin) as [H|H]; apply Hone in H;
    destruct H as (tr & H1 & H2 & H3 & H4 & H5 & H6 & H7 & H8 & H9);
    exists tr; repeat (split; [assumption|]); auto.
Qed.

Lemma reported_objects_describe_live_tracks_witness :
  let t := Examples.Tracking.one_player in
  let detections := [Examples.Tracking.person_det] in
  let o := FurtherExamples.second_report in
  reachable t
  /\ 0 <= max_time_lost t
  /\ detections <> []
  /\ In o (fst (update t detections))
  /\ exists track,
       get (o_track_id o) (tracks (snd (update t detections))) = Some track
       /\ o_bbox o = T.get_smoothed_bbox track.
Proof.
  cbv zeta.
  assert (Hr : reachable Examples.Tracking.one_player)
    by (apply reach_update, reach_init).
  assert (Hml : 0 <= max_time_lost Examples.Tracking.one_player)
    by (vm_compute; discriminate).
  assert (Hne : [Examples.Tracking.person_det] <> []) by discriminate.
  assert (Hin : In FurtherExamples.second_report
                  (fst (update Examples.Tracking.one_player
                          [Examples.Tracking.person_det])))
    by (vm_compute; left; reflexivity).
  split; [exact Hr|]. split; [exact Hml|]. split; [exact Hne|].
  split; [exact Hin|].
  destruct (reported_objects_describe_live_tracks
              Examples.Tracking.one_player [Examples.Tracking.person_det]
              FurtherExamples.second_report Hr Hml Hne Hin)
    as (track & Hg & Hb & _).
  exists track. split; [exact Hg|exact Hb].
Defined.

End ReportProperties.

(* ================================================================== *)
(** * Further properties: one object per detection                     *)
(* ================================================================== *)

Module CountFacts.
Import Py PyFacts DictFacts TrackerSpec TrackerFacts UpdateFacts Further
       MatchFacts AdvancedMultiObjectTracker.

Lemma create_length {X} (fb : X -> BBox Q) (fs : X -> Q) c (l : list X) :
  forall out s,
    let r := fold_left (fun acc x => create_track c acc (fb x) (fs x)) l
               (out, s) in
    List.length (fst r)
    = (List.length out
       + List.length (filter (fun x => Qltb (track_thresh s) (fs x)) l))%nat.
Proof.
  induction l as [|x l IH]; intros out s; cbn [fold_left filter].
  - cbn. lia.
  - destruct (Qltb (track_thresh s) (fs x)) eqn:Eq.
    + set (k := track_id_count s).
      set (tr := T.__init__ k (fb x) (fs x) (frame_id s) c).
      set (s1 := with_tracks (set k tr (tracks s))
                   (with_track_id_count (k + 1)%Z s)).
      assert (Es : create_track c (out, s) (fb x) (fs x)
                   = (out ++ [report s1 k tr c], s1))
        by (unfold create_track; rewrite Eq; reflexivity).
      rewrite Es. cbv zeta. rewrite (IH _ s1).
      change (track_thresh s1) with (track_thresh s).
      rewrite length_app. cbn [List.length]. lia.
    + assert (Es : create_track c (out, s) (fb x) (fs x) = (out, s))
        by (unfold create_track; rewrite Eq; reflexivity).
      rewrite Es. apply IH.
Qed.

Lemma nth_seq_map {A} (l : list A) d :
  map (fun j => nth j l d) (seq 0 (List.length l)) = l.
Proof.
  induction l as [|x l IH]; [reflexivity|].
  cbn [List.length seq map nth]. f_equal.
  rewrite <- seq_shift, map_map. exact IH.
Qed.

Lemma index_count {A} (P : A -> bool) (l : list A) d :
  List.length (filter (fun j => P (nth j l d)) (seq 0 (List.length l)))
  = List.length (filter P l).
Proof.
  transitivity
    (List.length
       (filter P (map (fun j => nth j l d) (seq 0 (List.length l))))).
  - rewrite filter_map_swap, length_map. reflexivity.
  - rewrite nth_seq_map. reflexivity.
Qed.

Lemma perm_count {A} (P : A -> bool) (l l' : list A) :
  Permutation l l' ->
  List.length (filter P l) = List.length (filter P l').
Proof.
  induction 1 as [|x l l' _ IH|x y l|l l' l'' _ IH1 _ IH2];
    cbn [filter]; try lia.
  - destruct (P x); cbn [List.length]; lia.
  - destruct (P x), (P y); cbn [List.length]; lia.
Qed.

Lemma filter_le {A} (P : A -> bool) (l : list A) :
  (List.length (filter P l) <= List.length l)%nat.
Proof.
  induction l as [|x l IH]; cbn [filter List.length]; [lia|].
  destruct (P x); cbn [List.length]; lia.
Qed.

Lemma count_scores th (dets : list Detection) :
  List.length (filter (fun d => Qltb th (d_score d)) dets)
  = List.length (filter (Qltb th) (map d_score dets)).
Proof.
  induction dets as [|d dets IH]; [reflexivity|].
  cbn [map filter]. destruct (Qltb th (d_score d)); cbn [List.length]; lia.
Qed.

(** One class round reports every detection above [track_thresh], and at
    most one object per detection. *)
Lemma class_round_count t dets c :
  consistent t ->
  (List.length (confident t dets)
   <= List.length (fst (_update_class_tracks t dets c))
   <= List.length dets)%nat.
Proof.
  intros Hc. unfold confident, _update_class_tracks.
  destruct dets as [|d0 dets]; [cbn; lia|].
  set (ds := d0 :: dets).
  fold (class_tracks t c).
  destruct (class_tracks t c) as [|e0 ct] eqn:Ect.
  - pose proof (create_length d_bbox d_score c ds [] t) as Hl.
    cbv zeta in Hl. rewrite Hl. cbn [List.length plus].
    split; [lia|apply filter_le].
  - rewrite <- Ect.
    pose proof (match_tracks_subseq t (class_tracks t c)
                  (map d_bbox ds) (map d_score ds) c) as Hsub.
    pose proof (match_tracks_perm t (class_tracks t c)
                  (map d_bbox ds) (map d_score ds) c) as Hperm.
    destruct (_match_tracks t (class_tracks t c) (map d_bbox ds)
                (map d_score ds) c) as [ms um].
    cbn [fst snd] in Hsub, Hperm.
    assert (HN : NoDup (map fst ms)).
    { eapply subseq_NoDup; [exact Hsub|].
      eapply subseq_NoDup;
        [apply subseq_map, class_tracks_subseq
        |apply consistent_NoDup, Hc]. }
    destruct (matched_fold c (map d_bbox ds) (map d_score ds) ms [] t HN)
      as (out1 & s1 & E1 & A1 & _ & _ & _ & _ & Hs).
    { intros k Hk.
      apply (subseq_In _ _ _ (subseq_map fst _ _ (class_tracks_subseq t c))).
      eapply subseq_In; eauto. }
    rewrite E1.
    pose proof (create_length
                  (fun det_idx => nth det_idx (map d_bbox ds) default_bbox)
                  (fun det_idx => nth det_idx (map d_score ds) 0%Q)
                  c um out1 s1) as Hl.
    cbv zeta in Hl. rewrite Hl.
    assert (Hth : track_thresh s1 = track_thresh t) by apply Hs.
    rewrite Hth.
    assert (Hout : List.length out1 = List.length ms).
    { apply (f_equal (@List.length Z)) in A1. unfold ids in A1.
      cbn [map app] in A1. rewrite !length_map in A1. exact A1. }
    rewrite Hout.
    set (P := fun j : nat =>
                Qltb (track_thresh t) (nth j (map d_score ds) 0%Q)).
    assert (Hall : List.length
                     (filter (fun d => Qltb (track_thresh t) (d_score d))
                        ds)
                   = (List.length (filter P (map snd ms))
                      + List.length (filter P um))%nat).
    { rewrite count_scores.
      rewrite <- (index_count (Qltb (track_thresh t)) (map d_score ds) 0%Q).
      rewrite <- length_app, <- filter_app.
      symmetry. apply perm_count.
      replace (List.length (map d_score ds))
        with (List.length (map d_bbox ds))
        by (rewrite !length_map; reflexivity).
      exact Hperm. }
    assert (Hn : (List.length ms + List.length um = List.length ds)%nat).
    { apply Permutation_length in Hperm.
      rewrite length_app, !length_map, length_seq in Hperm. exact Hperm. }
    pose proof (filter_le P (map snd ms)) as H1.
    rewrite length_map in H1.
    pose proof (filter_le P um) as H2.
    fold P. lia.
Qed.

Lemma classes_apart d :
  has_class "person" d = true -> has_class "ball" d = false.
Proof.
  unfold has_class. destruct (d_class d) as [c|]; [|discriminate].
  intros E. apply String.eqb_eq in E. subst c. reflexivity.
Qed.

Lemma split_count (P : Detection -> bool) (l : list Detection) :
  (List.length (filter P (filter (has_class "person") l))
   + List.length (filter P (filter (has_class "ball") l))
   = List.length (filter P (filter tracked_class l)))%nat.
Proof.
  unfold tracked_class.
  induction l as [|d l IH]; [reflexivity|]. cbn [filter].
  destruct (has_class "person" d) eqn:Ep.
  - rewrite (classes_apart d Ep). cbn [orb filter].
    destruct (P d); cbn [List.length]; lia.
  - cbn [orb]. destruct (has_class "ball" d); cbn [filter]; [|exact IH].
    destruct (P d); cbn [List.length]; lia.
Qed.

Lemma filter_true {A} (l : list A) : filter (fun _ => true) l = l.
Proof. induction l; cbn; congruence. Qed.

End CountFacts.

Section CountProperties.
Import Py PyFacts DictFacts TrackerSpec TrackerFacts UpdateFacts Further
       CountFacts AdvancedMultiObjectTracker.

(** X14: a call with detections reports every person or ball detection
    whose score exceeds [track_thresh], matched or not, and never more
    objects than there are person and ball detections: each such
    detection gives one reported object at most (a matched one whatever
    its score), and detections of other classes give none. *)
Theorem update_reports_each_confident_detection t detections :
  reachable t ->
  detections <> [] ->
  let out := fst (update t detections) in
  let relevant := filter tracked_class detections in
  (List.length (confident t relevant) <= List.length out
   <= List.length relevant)%nat.
Proof.
  intros Hr Hne. destruct detections as [|d dets]; [congruence|].
  cbv zeta. rewrite update_rounds. cbn [fst]. unfold rounds. cbv zeta.
  cbn [fst]. set (ds := d :: dets).
  pose proof (reachable_consistent t Hr) as Hc.
  assert (Hc0 : consistent (begin_frame t))
    by (apply begin_frame_consistent; exact Hc).
  set (r1 := _update_class_tracks (begin_frame t)
               (filter (has_class "person") ds) "person").
  assert (Hc1 : consistent (snd r1))
    by (apply class_round_consistent; exact Hc0).
  assert (Hth1 : track_thresh (snd r1) = track_thresh t).
  { destruct (class_round (begin_frame t) (filter (has_class "person") ds)
                "person" Hc0) as (o1 & s1 & m1 & n1 & E & R).
    subst r1. rewrite E. cbn [snd].
    destruct R as (_ & _ & _ & _ & _ & _ & _ & _ & Hs). apply Hs. }
  pose proof (class_round_count (begin_frame t)
                (filter (has_class "person") ds) "person" Hc0) as H1.
  fold r1 in H1.
  pose proof (class_round_count (snd r1) (filter (has_class "ball") ds)
                "ball" Hc1) as H2.
  unfold confident in *. rewrite Hth1 in H2.
  change (track_thresh (begin_frame t)) with (track_thresh t) in H1.
  rewrite length_app.
  pose proof (split_count (fun d => Qltb (track_thresh t) (d_score d)) ds)
    as Hs1.
  pose proof (split_count (fun _ => true) ds) as Hs2.
  rewrite !filter_true in Hs2. lia.
Qed.

Lemma update_reports_each_confident_detection_witness :
  let t := Examples.Tracking.one_player in
  let detections :=
    [Examples.Tracking.person_det; Examples.Tracking.ball_det] in
  reachable t
  /\ detections <> []
  /\ (List.length (confident t (filter tracked_class detections))
      <= List.length (fst (update t detections)))%nat.
Proof.
  cbv zeta.
  assert (Hr : reachable Examples.Tracking.one_player)
    by (apply reach_update, reach_init).
  assert (Hne : [Examples.Tracking.person_det; Examples.Tracking.ball_det]
                <> []) by discriminate.
  split; [exact Hr|]. split; [exact Hne|].
  exact (proj1 (update_reports_each_confident_detection
                  Examples.Tracking.one_player
                  [Examples.Tracking.person_det; Examples.Tracking.ball_det]
                  Hr Hne)).
Defined.

End CountProperties.

(* ================================================================== *)
(** * Further properties: the possession log                           *)
(* ================================================================== *)

Module PossessionFacts.
Import Py PyFacts BallPossessionAnalyzer AnalyzerFacts PossessionSpec.

#[local] Open Scope Z_scope.

(** ** Teams *)

Lemma get_player_team_cases self k :
  (exists p, In p (player_tracks self) /\ s_track_id p = k) ->
  on_a_team (_get_player_team self k).
Proof.
  intros (p & Hin & Hk). unfold _get_player_team, on_a_team.
  destruct (map s_center
              (filter (fun p => s_track_id p =? k) (player_tracks self)))
    as [|c cs] eqn:E.
  - exfalso.
    assert (Hf : In p (filter (fun p => s_track_id p =? k)
                         (player_tracks self)))
      by (apply filter_In; split; [exact Hin|apply Z.eqb_eq; exact Hk]).
    apply (in_map s_center) in Hf. rewrite E in Hf. exact Hf.
  - cbv zeta. destruct (Qltb _ _); auto.
Qed.

Lemma get_player_team_ext s s' k :
  player_tracks s' = player_tracks s ->
  _get_player_team s' k = _get_player_team s k.
Proof. intros E. unfold _get_player_team. rewrite E. reflexivity. Qed.

(** ** The scan for the closest player *)

Lemma closest_fold c f (l : list Sample) : forall seen acc,
  scanned c f seen acc ->
  scanned c f (seen ++ l)
    (fold_left
       (fun (acc : option Sample * option Root) player =>
          if s_frame_id player =? f then
            let distance := _calculate_distance c (s_center player) in
            match snd acc with
            | Some min_distance =>
                if root_ltb distance min_distance
                then (Some player, Some distance) else acc
            | None => (Some player, Some distance)
            end
          else acc)
       l acc).
Proof.
  induction l as [|x l IH]; intros seen acc Hinv; cbn [fold_left].
  - rewrite app_nil_r. exact Hinv.
  - replace (seen ++ x :: l) with ((seen ++ [x]) ++ l)
      by (rewrite <- app_assoc; reflexivity).
    apply IH. destruct acc as [b d]. cbn [snd]. unfold scanned in *.
    destruct (Z.eqb_spec (s_frame_id x) f) as [Ef|Ef].
    + cbv zeta. destruct b as [p|], d as [r|]; try contradiction.
      * destruct Hinv as (Hr & Hin & Hf & Hmin).
        unfold root_ltb.
        destruct (Qltb (radicand (_calculate_distance c (s_center x)))
                    (radicand r)) eqn:El.
        -- apply Qltb_lt in El. split; [reflexivity|].
           split; [apply in_or_app; right; left; reflexivity|].
           split; [exact Ef|].
           intros q Hq Hqf. unfold sq_dist.
           apply in_app_or in Hq. destruct Hq as [Hq|[<-|[]]].
           ++ specialize (Hmin q Hq Hqf). unfold sq_dist in Hmin.
              rewrite <- Hr in Hmin. lra.
           ++ lra.
        -- apply Qltb_ge in El. split; [exact Hr|].
           split; [apply in_or_app; left; exact Hin|].
           split; [exact Hf|].
           intros q Hq Hqf. apply in_app_or in Hq.
           destruct Hq as [Hq|[<-|[]]]; [auto|].
           unfold sq_dist. rewrite <- Hr. exact El.
      * split; [reflexivity|].
        split; [apply in_or_app; right; left; reflexivity|].
        split; [exact Ef|].
        intros q Hq Hqf. apply in_app_or in Hq.
        destruct Hq as [Hq|[<-|[]]].
        -- exfalso. exact (Hinv q Hq Hqf).
        -- unfold sq_dist. lra.
    + destruct b as [p|], d as [r|]; try contradiction.
      * destruct Hinv as (Hr & Hin & Hf & Hmin). split; [exact Hr|].
        split; [apply in_or_app; left; exact Hin|]. split; [exact Hf|].
        intros q Hq Hqf. apply in_app_or in Hq.
        destruct Hq as [Hq|[<-|[]]]; [auto|congruence].
      * intros q Hq. apply in_app_or in Hq.
        destruct Hq as [Hq|[<-|[]]]; auto.
Qed.

Lemma closest_spec c f players :
  scanned c f players (closest c f players).
Proof.
  unfold closest.
  apply (closest_fold c f players [] (None, None)). intros q [].
Qed.

(** ** One possession analysis *)

Lemma kept_refl s : kept s s.
Proof. unfold kept. tauto. Qed.

Lemma end_shape s f :
  ~ (fps s == 0)%Q ->
  exists s',
    _end_possession s f = Some s'
    /\ current_possession s' = None
    /\ kept s s'
    /\ log_step s f s'.
Proof.
  intros Hfps. unfold _end_possession.
  destruct (current_possession s) as [cur|] eqn:Ec.
  - change (duration (closed cur f)) with (f - start_frame cur).
    destruct (Z.leb_spec (frame_threshold s) (f - start_frame cur)).
    + destruct (Qeq_bool (fps s) 0) eqn:E;
        [apply Qeq_bool_iff in E; contradiction|].
      eexists. split; [reflexivity|]. cbn.
      split; [reflexivity|]. split; [unfold kept; cbn; tauto|].
      right. exists cur. cbn. rewrite Ec. tauto.
    + eexists. split; [reflexivity|]. cbn.
      split; [reflexivity|]. split; [unfold kept; cbn; tauto|].
      left. cbn. tauto.
  - exists s. split; [reflexivity|]. split; [exact Ec|].
    split; [apply kept_refl|]. left. tauto.
Qed.

Lemma open_step_same s f : open_step s f s.
Proof.
  unfold open_step. destruct (current_possession s) as [cur|] eqn:Ec; auto.
  right. exists cur. tauto.
Qed.

Lemma open_step_none s f s' : current_possession s' = None -> open_step s f s'.
Proof. intros E. unfold open_step. rewrite E. exact I. Qed.

Lemma analyze_shape s f :
  ~ (fps s == 0)%Q ->
  exists s',
    _analyze_possession s f = Some s'
    /\ kept s s' /\ log_step s f s' /\ open_step s f s'.
Proof.
  intros Hfps. unfold _analyze_possession.
  assert (Hsame : exists s', Some s = Some s'
                    /\ kept s s' /\ log_step s f s' /\ open_step s f s').
  { exists s. split; [reflexivity|]. split; [apply kept_refl|].
    split; [left; tauto|apply open_step_same]. }
  destruct (from_end 0 (ball_tracks s)) as [ball|]; [|exact Hsame].
  destruct (player_tracks s) as [|p0 ps] eqn:Ep; [exact Hsame|].
  rewrite <- Ep. clear Ep p0 ps. cbv zeta.
  assert (Hlost : exists s',
            match current_possession s with
            | Some _ => _end_possession s f
            | None => Some s
            end = Some s'
            /\ kept s s' /\ log_step s f s' /\ open_step s f s').
  { destruct (current_possession s) as [cur|] eqn:Ec.
    - destruct (end_shape s f Hfps) as (s' & E & Hn & Hk & Hl).
      exists s'. split; [exact E|]. split; [exact Hk|].
      split; [exact Hl|apply open_step_none; exact Hn].
    - exists s. split; [reflexivity|]. split; [apply kept_refl|].
      split; [left; tauto|apply open_step_none; exact Ec]. }
  pose proof (closest_spec (s_center ball) f (player_tracks s)) as Hcl.
  destruct (closest (s_center ball) f (player_tracks s)) as [[cp|] [md|]];
    try exact Hlost.
  destruct Hcl as (_ & Hin & _).
  destruct (root_lt_const md 80); [|exact Hlost].
  destruct (current_possession s) as [cur|] eqn:Ec.
  - destruct (Z.eqb_spec (player_id cur) (s_track_id cp)) as [Eid|Eid];
      cbn [negb].
    + eexists. split; [reflexivity|].
      unfold _update_possession. rewrite Ec.
      destruct (find _ (player_tracks s)) as [player|].
      * split; [unfold kept; cbn; tauto|]. split; [left; cbn; tauto|].
        unfold open_step. cbn. right. exists cur.
        split; [exact Ec|]. repeat split; auto.
        intros _ E. apply app_eq_nil in E. destruct E as [_ E].
        discriminate E.
      * split; [apply kept_refl|]. split; [left; tauto|].
        apply open_step_same.
    + destruct (end_shape s f Hfps) as (s1 & E & Hn & Hk & Hl).
      unfold bind. rewrite E.
      eexists. split; [reflexivity|].
      destruct Hk as (K1 & K2 & K3 & K4 & K5 & K6 & K7 & K8).
      split; [unfold kept; cbn; tauto|].
      split.
      * destruct Hl as [(L1 & L2 & L3)|(c & L1 & L2 & L3 & L4 & L5)].
        -- left. cbn. tauto.
        -- right. exists c. cbn. tauto.
      * unfold open_step. cbn. left. exists cp. split; [exact Hin|].
        unfold started. rewrite (get_player_team_ext s s1 _ K6).
        reflexivity.
  - eexists. split; [reflexivity|].
    split; [unfold kept; cbn; tauto|]. split; [left; cbn; tauto|].
    unfold open_step. cbn. left. exists cp. split; [exact Hin|reflexivity].
Qed.

(** ** The invariants through one analysis *)

Lemma time_sum_snoc fps0 l p :
  (time_sum fps0 (l ++ [p])
   == time_sum fps0 l + inject_Z (duration p) / fps0)%Q.
Proof.
  induction l as [|x l IH]; simpl.
  - ring.
  - rewrite IH. ring.
Qed.

Lemma safe_quiet s s' :
  quiet s s' -> safe s ->
  Forall (sound_pass s') (pass_events s') -> safe s'.
Proof.
  intros (Q1 & Q2 & Q3 & Q4 & Q5 & Q6 & Q7 & Q8 & Q9) [H1 H2 H3 H4 H5] Hp.
  constructor; rewrite ?Q1, ?Q2, ?Q5, ?Q6, ?Q7, ?Q8; auto.
Qed.

Lemma timely_quiet now s s' : quiet s s' -> timely now s -> timely now s'.
Proof.
  intros (Q1 & Q2 & Q3 & Q4 & Q5 & Q6 & Q7 & Q8 & Q9) [H1 H2 H3].
  constructor; rewrite ?Q5, ?Q6; auto.
Qed.

Lemma sound_pass_kept s s' e :
  pass_threshold_distance s' = pass_threshold_distance s ->
  sound_pass s e -> sound_pass s' e.
Proof. unfold sound_pass. intros ->. auto. Qed.

Lemma safe_analyze s f s' :
  safe s -> kept s s' -> log_step s f s' -> open_step s f s' -> safe s'.
Proof.
  intros [H1 H2 H3 H4 H5] (K1 & K2 & K3 & K4 & K5 & K6 & K7 & K8) Hlog Hopen.
  assert (Hheld : forall cur, current_possession s' = Some cur -> held cur).
  { intros cur' Ec'. unfold open_step in Hopen. rewrite Ec' in Hopen.
    destruct Hopen as [(p & Hin & ->)|(cur & Ec & _ & _ & _ & He & Ht & Hp)].
    - unfold held, started. cbn. split; [reflexivity|].
      split; [discriminate|]. apply get_player_team_cases. eauto.
    - destruct (H2 cur Ec) as (A1 & A2 & A3). unfold held.
      rewrite He, Ht. auto. }
  assert (Hpass : Forall (sound_pass s') (pass_events s')).
  { rewrite K7. eapply Forall_impl; [|exact H5].
    intros e. apply sound_pass_kept. exact K3. }
  destruct Hlog as [(L1 & L2 & L3)|(cur & Ec & Hle & L1 & L2 & L3)].
  - constructor; rewrite ?K1, ?K2, ?L1, ?L2, ?L3; auto.
  - destruct (H2 cur Ec) as (A1 & A2 & A3).
    constructor; auto.
    + rewrite K2, L1. apply Forall_app. split; [exact H1|].
      constructor; [|constructor].
      unfold logged, end_of. cbn. repeat split; auto.
    + rewrite K1, L1, L2, time_sum_snoc, H3. cbn. reflexivity.
    + rewrite L2, L3, <- H4. unfold add_time.
      destruct A3 as [Ea|Eb].
      * rewrite Ea, time_of_set_time.
        rewrite time_of_set_time_other by discriminate. ring.
      * rewrite Eb, time_of_set_time.
        rewrite time_of_set_time_other by discriminate. ring.
Qed.

Lemma ordered_snoc {A} (R : A -> A -> Prop) l x :
  ForallOrdPairs R l -> Forall (fun p => R p x) l ->
  ForallOrdPairs R (l ++ [x]).
Proof.
  induction 1 as [|a l Ha Hl IH]; intros HF; simpl.
  - constructor; constructor.
  - inversion HF; subst. constructor; [|auto].
    apply Forall_app. split; [exact Ha|]. constructor; auto.
Qed.

Lemma timely_analyze now s f s' :
  timely now s -> now <= f ->
  kept s s' -> log_step s f s' -> open_step s f s' -> timely f s'.
Proof.
  intros [H1 H2 H3] Hle _ Hlog Hopen.
  assert (Hpast : Forall (fun p => end_of p <= f) (possession_events s')).
  { destruct Hlog as [(L1 & _)|(cur & Ec & _ & L1 & _)]; rewrite L1.
    - eapply Forall_impl; [|exact H2]. simpl. intros; lia.
    - apply Forall_app. split.
      + eapply Forall_impl; [|exact H2]. simpl. intros; lia.
      + constructor; [|constructor]. unfold end_of. cbn. lia. }
  constructor.
  - destruct Hlog as [(L1 & _)|(cur & Ec & _ & L1 & _)]; rewrite L1; auto.
    apply ordered_snoc; auto. apply (H3 cur Ec).
  - exact Hpast.
  - intros cur' Ec'. unfold open_step in Hopen. rewrite Ec' in Hopen.
    destruct Hopen as [(p & Hin & ->)|(cur & Ec & Ev & _ & Hs & _)].
    + cbn. split; [lia|exact Hpast].
    + destruct (H3 cur Ec) as (A1 & A2). rewrite Hs, Ev.
      split; [lia|exact A2].
Qed.

(** ** The pass detector *)

Lemma recent_filter s f (l : list Possession) :
  Forall (fun p => end_frame p = Some (end_of p)) l ->
  recent s f l
  = Some (filter (fun p => f - end_of p <? pass_threshold_frames s) l).
Proof.
  induction 1 as [|p l Hp _ IH]; [reflexivity|].
  cbn [recent filter]. unfold bind. rewrite Hp, IH. reflexivity.
Qed.

Lemma from_end_nonempty {A} (l : list A) :
  l <> [] -> exists x, from_end 0 l = Some x.
Proof.
  intros Hne. unfold from_end.
  destruct (rev l) as [|x r] eqn:E.
  - exfalso. apply Hne. apply (f_equal (@rev A)) in E.
    rewrite rev_involutive in E. exact E.
  - exists x. reflexivity.
Qed.

Lemma detect_pair_shape self th p q :
  logged th p -> logged th q ->
  exists self',
    detect_pair self p q = Some self'
    /\ quiet self self'
    /\ ball_tracks self' = ball_tracks self
    /\ player_tracks self' = player_tracks self
    /\ (Forall (sound_pass self) (pass_events self) ->
        Forall (sound_pass self') (pass_events self')).
Proof.
  intros (P1 & _ & _ & P4 & P5) (_ & _ & _ & Q4 & Q5).
  unfold detect_pair, bind. rewrite P1.
  assert (Hsame : exists self',
            Some self = Some self'
            /\ quiet self self'
            /\ ball_tracks self' = ball_tracks self
            /\ player_tracks self' = player_tracks self
            /\ (Forall (sound_pass self) (pass_events self) ->
                Forall (sound_pass self') (pass_events self'))).
  { exists self. unfold quiet. tauto. }
  destruct (_ <=? _); [|exact Hsame].
  destruct (from_end_nonempty (positions p) P4) as [end_pos ->].
  destruct (positions q) as [|start_pos rest]; [congruence|].
  cbn [nth_error].
  destruct (root_le_const _ _) eqn:Ed; [|exact Hsame].
  eexists. split; [reflexivity|]. unfold quiet. cbn.
  split; [tauto|]. split; [reflexivity|]. split; [reflexivity|].
  intros HF. apply Forall_app. split.
  - eapply Forall_impl; [|exact HF]. intros e.
    apply sound_pass_kept. reflexivity.
  - constructor; [|constructor]. unfold sound_pass. cbn. auto.
Qed.

Lemma quiet_refl s : quiet s s.
Proof. unfold quiet. tauto. Qed.

Lemma quiet_trans s1 s2 s3 : quiet s1 s2 -> quiet s2 s3 -> quiet s1 s3.
Proof. unfold quiet. intuition congruence. Qed.

Lemma detect_pairs_shape th (l : list Possession) : forall self,
  Forall (logged th) l ->
  exists self',
    detect_pairs self l = Some self'
    /\ quiet self self'
    /\ ball_tracks self' = ball_tracks self
    /\ player_tracks self' = player_tracks self
    /\ (Forall (sound_pass self) (pass_events self) ->
        Forall (sound_pass self') (pass_events self')).
Proof.
  induction l as [|p l IH]; intros self HF.
  - exists self. split; [reflexivity|]. split; [apply quiet_refl|]. tauto.
  - destruct l as [|q l'].
    + exists self. split; [reflexivity|]. split; [apply quiet_refl|].
      tauto.
    + inversion HF as [|? ? Hp HF']; subst.
      inversion HF' as [|? ? Hq _]; subst.
      destruct (detect_pair_shape self th p q Hp Hq)
        as (s1 & E1 & Q1 & B1 & P1 & S1).
      destruct (IH s1 HF') as (s2 & E2 & Q2 & B2 & P2 & S2).
      exists s2. cbn [detect_pairs]. unfold bind. rewrite E1.
      split; [exact E2|]. split; [eapply quiet_trans; eauto|].
      split; [congruence|]. split; [congruence|]. auto.
Qed.

Lemma logged_filter th (p : Possession -> bool) l :
  Forall (logged th) l -> Forall (logged th) (filter p l).
Proof.
  intros HF. rewrite Forall_forall in *. intros x Hx.
  apply filter_In in Hx. apply HF, Hx.
Qed.

Lemma detect_passes_shape s f :
  safe s ->
  exists s',
    _detect_passes s f = Some s'
    /\ quiet s s'
    /\ ball_tracks s' = ball_tracks s
    /\ player_tracks s' = player_tracks s
    /\ Forall (sound_pass s') (pass_events s')
    /\ ((List.length
           (filter (fun p => (f - end_of p <? pass_threshold_frames s)%Z)
              (possession_events s)) <= 1)%nat ->
        pass_events s' = pass_events s).
Proof.
  intros [H1 H2 H3 H4 H5]. unfold _detect_passes.
  destruct (len (possession_events s) <? 2).
  - exists s. split; [reflexivity|]. split; [apply quiet_refl|]. tauto.
  - rewrite recent_filter
      by (eapply Forall_impl; [|exact H1]; intros p Hp; apply Hp).
    unfold bind.
    set (r := filter _ (possession_events s)).
    destruct (detect_pairs_shape (frame_threshold s) r s)
      as (s' & E & Q & B & P & S).
    { apply logged_filter. exact H1. }
    exists s'. split; [exact E|]. split; [exact Q|].
    split; [exact B|]. split; [exact P|]. split; [auto|].
    intros Hlen. destruct r as [|p [|q r']]; simpl in Hlen; try lia;
      simpl in E; inversion E; reflexivity.
Qed.

(** Of two logged spans the later ends at least a threshold after the
    earlier, so at most one of them is recent. *)
Lemma at_most_one_recent th ptf f (l : list Possession) :
  ForallOrdPairs (fun p q => end_of p <= start_frame q) l ->
  Forall (logged th) l ->
  Forall (fun p => end_of p <= f) l ->
  ptf <= th ->
  (List.length (filter (fun p => (f - end_of p <? ptf)%Z) l) <= 1)%nat.
Proof.
  intros Hord Hlog Hpast Hth.
  induction Hord as [|p l Hp Hl IH]; [simpl; lia|].
  inversion Hlog as [|? ? Lp Hlog']; subst.
  inversion Hpast as [|? ? Pp Hpast']; subst.
  cbn [filter].
  destruct (Z.ltb_spec (f - end_of p) ptf) as [Hrec|Hrec]; [|auto].
  destruct l as [|q l']; [simpl; lia|]. exfalso.
  inversion Hp as [|? ? Hpq _]; subst.
  inversion Hlog' as [|? ? (_ & Q2 & Q3 & _) _]; subst.
  inversion Hpast' as [|? ? Pq _]; subst.
  lia.
Qed.

(** ** One call of [update_tracks] *)

Lemma players_fold f (l : list Obj) : forall s0,
  let s2 :=
    fold_left
      (fun self player =>
         with_player_tracks (player_tracks self ++ [sample f player]) self)
      l s0 in
  quiet s0 s2 /\ pass_events s2 = pass_events s0
  /\ ball_tracks s2 = ball_tracks s0
  /\ player_tracks s2 = player_tracks s0 ++ map (sample f) l.
Proof.
  induction l as [|o l IH]; intros s0; cbn [fold_left map].
  - rewrite app_nil_r. split; [apply quiet_refl|]. tauto.
  - destruct (IH (with_player_tracks (player_tracks s0 ++ [sample f o]) s0))
      as (Q & P & B & L).
    cbv zeta. rewrite L, P, B. cbn. rewrite <- app_assoc.
    split; [|tauto]. unfold quiet in *. cbn in Q. tauto.
Qed.

Lemma appends_quiet s objs f :
  let s1 :=
    match max_by_score (filter (has_class "ball") objs) with
    | Some best_ball =>
        with_ball_tracks (ball_tracks s ++ [sample f best_ball]) s
    | None => s
    end in
  let s2 :=
    fold_left
      (fun self player =>
         with_player_tracks (player_tracks self ++ [sample f player]) self)
      (filter (has_class "person") objs) s1 in
  quiet s s2 /\ pass_events s2 = pass_events s
  /\ ball_tracks s2
     = ball_tracks s
       ++ match max_by_score (filter (has_class "ball") objs) with
          | Some best_ball => [sample f best_ball]
          | None => []
          end
  /\ player_tracks s2
     = player_tracks s
       ++ map (sample f) (filter (has_class "person") objs).
Proof.
  cbv zeta.
  set (s1 := match max_by_score _ with Some _ => _ | None => s end).
  destruct (players_fold f (filter (has_class "person") objs) s1)
    as (Q & P & B & L).
  rewrite P, B, L.
  assert (H1 : quiet s s1 /\ pass_events s1 = pass_events s
               /\ ball_tracks s1
                  = ball_tracks s
                    ++ match max_by_score (filter (has_class "ball") objs)
                       with
                       | Some best_ball => [sample f best_ball]
                       | None => []
                       end
               /\ player_tracks s1 = player_tracks s).
  { subst s1. destruct (max_by_score _); unfold quiet; cbn;
      rewrite ?app_nil_r; tauto. }
  destruct H1 as (Q1 & P1 & B1 & L1). rewrite P1, B1, L1.
  split; [eapply quiet_trans; eauto|]. tauto.
Qed.

Lemma update_tracks_step s objs f :
  ~ (fps s == 0)%Q ->
  safe s ->
  exists s',
    update_tracks s objs f = Some s'
    /\ safe s'
    /\ fps s' = fps s
    /\ frame_threshold s' = frame_threshold s
    /\ pass_threshold_frames s' = pass_threshold_frames s
    /\ pass_threshold_distance s' = pass_threshold_distance s
    /\ (forall now,
          timely now s -> now <= f ->
          timely f s'
          /\ (pass_threshold_frames s <= frame_threshold s ->
              pass_events s' = pass_events s))
    /\ ball_tracks s'
       = ball_tracks s
         ++ match max_by_score (filter (has_class "ball") objs) with
            | Some best_ball => [sample f best_ball]
            | None => []
            end
    /\ player_tracks s'
       = player_tracks s
         ++ map (sample f) (filter (has_class "person") objs).
Proof.
  intros Hfps Hsafe. unfold update_tracks.
  pose proof (appends_quiet s objs f) as Hq. cbv zeta in Hq.
  set (s2 := fold_left _ _ _) in *.
  destruct Hq as (Q2 & P2 & B2 & L2).
  assert (Hsafe2 : safe s2).
  { apply (safe_quiet s s2 Q2 Hsafe). rewrite P2.
    eapply Forall_impl; [|apply Hsafe]. intros e.
    apply sound_pass_kept. apply Q2. }
  pose proof Q2 as (F2 & T2 & D2 & N2 & _).
  assert (Hfps2 : ~ (fps s2 == 0)%Q) by (rewrite F2; exact Hfps).
  destruct (analyze_shape s2 f Hfps2) as (s3 & E3 & K3 & L3 & O3).
  unfold bind. rewrite E3.
  pose proof (safe_analyze s2 f s3 Hsafe2 K3 L3 O3) as Hsafe3.
  destruct (detect_passes_shape s3 f Hsafe3)
    as (s4 & E4 & Q4 & B4 & L4 & S4 & P4).
  exists s4. split; [exact E4|].
  pose proof K3 as (F3 & T3 & D3 & N3 & B3 & L3' & P3 & _).
  pose proof Q4 as (F4 & T4 & D4 & N4 & _).
  split; [exact (safe_quiet s3 s4 Q4 Hsafe3 S4)|].
  split; [congruence|]. split; [congruence|]. split; [congruence|].
  split; [congruence|].
  split; [|split; congruence].
  intros now Htime Hle.
  pose proof (timely_quiet now s s2 Q2 Htime) as Htime2.
  pose proof (timely_analyze now s2 f s3 Htime2 Hle K3 L3 O3) as Htime3.
  split; [exact (timely_quiet f s3 s4 Q4 Htime3)|].
  intros Hth. rewrite P4; [congruence|].
  destruct Htime3 as [A1 A2 A3]. destruct Hsafe3 as [B1 _ _ _ _].
  apply (at_most_one_recent (frame_threshold s3)); auto.
  rewrite N3, T3, N2, T2. exact Hth.
Qed.

(** ** Sequences of calls *)

Lemma init_safe fps0 threshold : safe (__init__ fps0 threshold).
Proof.
  constructor; cbn; try constructor; try discriminate.
Qed.

Lemma init_timely now fps0 threshold :
  timely now (__init__ fps0 threshold).
Proof. constructor; cbn; try constructor; discriminate. Qed.

Lemma run_safe frames : forall s,
  ~ (fps s == 0)%Q ->
  safe s ->
  exists s',
    run s frames = Some s'
    /\ safe s'
    /\ fps s' = fps s
    /\ frame_threshold s' = frame_threshold s.
Proof.
  induction frames as [|[objs f] frames IH]; intros s Hfps Hsafe.
  - exists s. auto.
  - destruct (update_tracks_step s objs f Hfps Hsafe)
      as (s1 & E1 & S1 & F1 & T1 & _).
    destruct (IH s1) as (s2 & E2 & S2 & F2 & T2);
      [rewrite F1; exact Hfps|exact S1|].
    exists s2. cbn [run]. unfold bind. rewrite E1.
    split; [exact E2|]. split; [exact S2|]. split; congruence.
Qed.

Lemma run_timely frames : forall s now,
  ~ (fps s == 0)%Q ->
  safe s ->
  timely now s ->
  in_order now frames ->
  exists s' now',
    run s frames = Some s'
    /\ timely now' s'
    /\ (pass_threshold_frames s <= frame_threshold s ->
        pass_events s' = pass_events s).
Proof.
  induction frames as [|[objs f] frames IH]; intros s now Hfps Hsafe Ht Ho.
  - exists s, now. auto.
  - destruct Ho as [Hle Ho].
    destruct (update_tracks_step s objs f Hfps Hsafe)
      as (s1 & E1 & S1 & F1 & T1 & N1 & _ & Hstep & _).
    destruct (Hstep now Ht Hle) as (Ht1 & Hp1).
    destruct (IH s1 f) as (s2 & now2 & E2 & Ht2 & Hp2);
      [rewrite F1; exact Hfps|exact S1|exact Ht1|exact Ho|].
    exists s2, now2. cbn [run]. unfold bind. rewrite E1.
    split; [exact E2|]. split; [exact Ht2|].
    intros Hth. rewrite Hp2 by (rewrite N1, T1; exact Hth). auto.
Qed.

Lemma sorted_in_order (frames : list (list Obj * Z)) :
  Sorted Z.le (map snd frames) ->
  forall now,
    match frames with
    | [] => True
    | (_, f) :: _ => now <= f
    end ->
    in_order now frames.
Proof.
  induction frames as [|[objs f] frames IH]; intros HS now Hnow;
    [exact I|].
  cbn [map snd] in HS. inversion HS as [|? ? HS' Hd]; subst.
  cbn [in_order]. split; [exact Hnow|].
  apply IH; [exact HS'|].
  destruct frames as [|[objs' f'] frames']; [exact I|].
  cbn [map snd] in Hd. inversion Hd; subst. assumption.
Qed.

(** ** The settings *)

Lemma update_tracks_threshold s objs f s' :
  ~ (fps s == 0)%Q -> safe s ->
  update_tracks s objs f = Some s' ->
  possession_threshold s' = possession_threshold s.
Proof.
  intros Hfps Hsafe. unfold update_tracks.
  pose proof (appends_quiet s objs f) as Hq. cbv zeta in Hq.
  set (s2 := fold_left _ _ _) in *.
  destruct Hq as (Q2 & P2 & _).
  assert (Hsafe2 : safe s2).
  { apply (safe_quiet s s2 Q2 Hsafe). rewrite P2.
    eapply Forall_impl; [|apply Hsafe]. intros e.
    apply sound_pass_kept. apply Q2. }
  assert (Hfps2 : ~ (fps s2 == 0)%Q)
    by (rewrite (proj1 Q2); exact Hfps).
  destruct (analyze_shape s2 f Hfps2) as (s3 & E3 & K3 & L3 & O3).
  unfold bind. rewrite E3.
  pose proof (safe_analyze s2 f s3 Hsafe2 K3 L3 O3) as Hsafe3.
  destruct (detect_passes_shape s3 f Hsafe3) as (s4 & E4 & Q4 & _).
  rewrite E4. intros E. inversion E; subst s4.
  unfold quiet, kept in *. intuition congruence.
Qed.

Lemma run_config frames : forall s s',
  ~ (fps s == 0)%Q -> safe s ->
  run s frames = Some s' ->
  fps s' = fps s
  /\ possession_threshold s' = possession_threshold s
  /\ frame_threshold s' = frame_threshold s
  /\ pass_threshold_distance s' = pass_threshold_distance s
  /\ pass_threshold_frames s' = pass_threshold_frames s.
Proof.
  induction frames as [|[objs f] frames IH]; intros s s' Hfps Hsafe;
    cbn [run].
  - intros E; inversion E; subst. tauto.
  - destruct (update_tracks_step s objs f Hfps Hsafe)
      as (s1 & E1 & S1 & F1 & T1 & N1 & D1 & _).
    pose proof (update_tracks_threshold s objs f s1 Hfps Hsafe E1) as P1.
    unfold bind. rewrite E1. intros E.
    destruct (IH s1 s') as (A1 & A2 & A3 & A4 & A5); auto.
    + rewrite F1. exact Hfps.
    + repeat split; congruence.
Qed.

(** ** The statistics *)

Lemma activity_fold (l : list (Z * Z)) : forall a b n,
  (a + b == inject_Z n)%Q ->
  let r :=
    fold_left
      (fun (acc : Q * Q * Z) (frame_data : Z * Z) =>
         let '(a_act, b_act, n) := acc in
         let total_players := fst frame_data + snd frame_data in
         if 0 <? total_players then
           ((a_act + inject_Z (fst frame_data) / inject_Z total_players)%Q,
            (b_act + inject_Z (snd frame_data) / inject_Z total_players)%Q,
            n + 1)
         else acc)
      l (a, b, n) in
  (fst (fst r) + snd (fst r) == inject_Z (snd r))%Q.
Proof.
  induction l as [|[x y] l IH]; intros a b n Hinv; cbn [fold_left].
  - exact Hinv.
  - cbn [fst snd]. destruct (Z.ltb_spec 0 (x + y)) as [Hpos|Hpos].
    + apply IH. rewrite !inject_Z_plus.
      assert (Hne : ~ (inject_Z x + inject_Z y == 0)%Q).
      { rewrite <- inject_Z_plus. intros H.
        assert (H' : (inject_Z 0 < inject_Z (x + y))%Q)
          by (rewrite <- Zlt_Qlt; exact Hpos).
        rewrite H in H'. apply (Qlt_irrefl 0). exact H'. }
      setoid_replace
        (a + inject_Z x / (inject_Z x + inject_Z y)
         + (b + inject_Z y / (inject_Z x + inject_Z y)))%Q
        with (a + b + 1)%Q by (field; exact Hne).
      rewrite Hinv. reflexivity.
    + apply IH. exact Hinv.
Qed.

Lemma stats_add_up self :
  (time_of "team_a" (team_possession_time self)
   + time_of "team_b" (team_possession_time self)
   == total_possession_time self)%Q ->
  (team_a_percentage (get_possession_stats self)
   + team_b_percentage (get_possession_stats self) == 100)%Q
  /\ (team_a_possession (get_possession_stats self)
      + team_b_possession (get_possession_stats self)
      == st_total_possession_time (get_possession_stats self))%Q.
Proof.
  intros Hsum. unfold get_possession_stats.
  destruct (Qltb 0 (total_possession_time self)) eqn:Et.
  - apply Qltb_lt in Et. cbn. split; [|exact Hsum].
    setoid_replace
      (time_of "team_a" (team_possession_time self)
       / total_possession_time self * 100
       + time_of "team_b" (team_possession_time self)
         / total_possession_time self * 100)%Q
      with ((time_of "team_a" (team_possession_time self)
             + time_of "team_b" (team_possession_time self))
            / total_possession_time self * 100)%Q
      by (field; lra).
    rewrite Hsum. field. lra.
  - destruct (0 <? len (player_tracks self));
      [|cbn; split; reflexivity].
    pose proof (activity_fold
                  (values (fold_left (count_frame self)
                             (lastn 100 (player_tracks self)) []))
                  0%Q 0%Q 0 ltac:(reflexivity)) as Hact.
    cbv zeta in Hact.
    destruct (fold_left _ (values _) _) as [[a b] n].
    cbn [fst snd] in Hact.
    destruct (Z.ltb_spec 0 n) as [Hn|Hn]; [|cbn; split; reflexivity].
    assert (Hq : (0 < inject_Z n)%Q)
      by (change 0%Q with (inject_Z 0); rewrite <- Zlt_Qlt; exact Hn).
    cbn. split.
    + setoid_replace (a / inject_Z n * 100 + b / inject_Z n * 100)%Q
        with ((a + b) / inject_Z n * 100)%Q by (field; lra).
      rewrite Hact. field. lra.
    + setoid_replace (30 * (a / inject_Z n) + 30 * (b / inject_Z n))%Q
        with (30 * ((a + b) / inject_Z n))%Q by (field; lra).
      rewrite Hact. field. lra.
Qed.

Lemma team_counts (l : list PassEvent) :
  Forall (fun e => on_a_team (from_team e)) l ->
  len (filter (fun p => String.eqb (from_team p) "team_a") l)
  + len (filter (fun p => String.eqb (from_team p) "team_b") l)
  = len l.
Proof.
  unfold len. induction 1 as [|e l He _ IH]; [reflexivity|].
  cbn [filter]. destruct He as [-> | ->]; cbn [String.eqb Ascii.eqb Bool.eqb];
    cbn [List.length]; lia.
Qed.

Lemma all_successful (l : list PassEvent) :
  Forall (fun e => successful e = true) l -> filter successful l = l.
Proof.
  induction 1 as [|e l He _ IH]; [reflexivity|].
  cbn [filter]. rewrite He, IH. reflexivity.
Qed.

Lemma pass_stats_add_up env self :
  Forall (sound_pass self) (pass_events self) ->
  team_a_passes (get_pass_stats env self)
  + team_b_passes (get_pass_stats env self)
  = total_passes (get_pass_stats env self)
  /\ (pass_events self <> [] ->
      total_passes (get_pass_stats env self) = len (pass_events self)
      /\ successful_passes (get_pass_stats env self)
         = total_passes (get_pass_stats env self)
      /\ (pass_success_rate (get_pass_stats env self) == 100)%Q).
Proof.
  intros HF. unfold get_pass_stats.
  destruct (pass_events self) as [|e l] eqn:El.
  - split; [|congruence].
    destruct (0 <? len (player_tracks self)); [|reflexivity].
    destruct (2 <=? _); [|reflexivity]. cbn. lia.
  - rewrite <- El in *. clear El e l.
    assert (Hs : filter successful (pass_events self) = pass_events self).
    { apply all_successful. eapply Forall_impl; [|exact HF].
      intros e He. apply He. }
    cbn. split.
    + apply team_counts. eapply Forall_impl; [|exact HF].
      intros e He. apply He.
    + intros Hne. rewrite Hs. split; [reflexivity|]. split; [reflexivity|].
      assert (Hpos : (0 < inject_Z (len (pass_events self)))%Q).
      { change 0%Q with (inject_Z 0). rewrite <- Zlt_Qlt. unfold len.
        destruct (pass_events self); [congruence|]. cbn [List.length]. lia. }
      field. lra.
Qed.

End PossessionFacts.

Section PossessionProperties.
Import Py PyFacts BallPossessionAnalyzer AnalyzerFacts PossessionSpec
       PossessionFacts.

#[local] Open Scope Z_scope.



(** X16: when the frame ids never go back, the possession log is in
    chronological order and its spans do not overlap: a span that comes
    earlier in the log ended at or before the frame at which any later one
    started, and the open span, if any, started at or after the end of
    every logged one. *)
Theorem logged_spans_never_overlap fps0 threshold frames :
  ~ (fps0 == 0)%Q ->
  Sorted Z.le (map snd frames) ->
  exists self,
    run (__init__ fps0 threshold) frames = Some self
    /\ ForallOrdPairs (fun p q => end_of p <= start_frame q)
         (possession_events self)
    /\ forall cur, current_possession self = Some cur ->
         Forall (fun p => end_of p <= start_frame cur)
           (possession_events self).
Proof.
  intros Hfps Hsorted.
  set (now := match frames with [] => 0 | (_, f) :: _ => f end).
  assert (Ho : in_order now frames).
  { apply sorted_in_order; [exact Hsorted|].
    subst now. destruct frames as [|[objs f] frames']; [exact I|lia]. }
  destruct (run_timely frames (__init__ fps0 threshold) now Hfps
              (init_safe fps0 threshold) (init_timely now fps0 threshold) Ho)
    as (self & now' & E & [A1 A2 A3] & _).
  exists self. split; [exact E|]. split; [exact A1|].
  intros cur Hc. apply (A3 cur Hc).
Qed.

Lemma logged_spans_never_overlap_witness :
  ~ (30 == 0)%Q
  /\ Sorted Z.le (map snd Examples.Analytics.handover)
  /\ exists self,
      run (__init__ 30 (1 # 2)) Examples.Analytics.handover = Some self
      /\ ForallOrdPairs (fun p q => end_of p <= start_frame q)
           (possession_events self).
Proof.
  assert (Hfps : ~ (30 == 0)%Q) by (intros H; discriminate H).
  assert (Hs : Sorted Z.le (map snd Examples.Analytics.handover))
    by (vm_compute; repeat (constructor; try (intros H; discriminate H))).
  split; [exact Hfps|]. split; [exact Hs|].
  destruct (logged_spans_never_overlap 30 (1 # 2)
              Examples.Analytics.handover Hfps Hs) as (self & E & Ho & _).
  exists self. split; [exact E|exact Ho].
Defined.

(** X17: at the usual frame rates no pass is ever recorded.  When the
    frame ids never go back and [frame_threshold] is at least the 5 frames
    of [pass_threshold_frames] (with the default 0.5 s: from 10 fps on),
    by the time a span is logged the span before it ended
    [frame_threshold] frames ago or more and is no longer recent, so
    [pass_events] stays empty and the possession statistics report 0
    passes. *)
Theorem no_pass_is_recorded_from_threshold_5 fps0 threshold frames :
  ~ (fps0 == 0)%Q ->
  Sorted Z.le (map snd frames) ->
  5 <= int (threshold * fps0) ->
  exists self,
    run (__init__ fps0 threshold) frames = Some self
    /\ pass_events self = []
    /\ passes (get_possession_stats self) = 0.
Proof.
  intros Hfps Hsorted Hth.
  set (now := match frames with [] => 0 | (_, f) :: _ => f end).
  assert (Ho : in_order now frames).
  { apply sorted_in_order; [exact Hsorted|].
    subst now. destruct frames as [|[objs f] frames']; [exact I|lia]. }
  destruct (run_timely frames (__init__ fps0 threshold) now Hfps
              (init_safe fps0 threshold) (init_timely now fps0 threshold) Ho)
    as (self & now' & E & _ & Hp).
  specialize (Hp Hth). cbn in Hp.
  exists self. split; [exact E|]. split; [exact Hp|].
  unfold get_possession_stats.
  destruct (Qltb 0 (total_possession_time self));
    [cbn; rewrite Hp; reflexivity|].
  destruct (0 <? len (player_tracks self)); [|reflexivity].
  destruct (fold_left _ (values _) _) as [[a b] n].
  destruct (0 <? n); [cbn; rewrite Hp; reflexivity|reflexivity].
Qed.

Lemma no_pass_is_recorded_from_threshold_5_witness :
  ~ (30 == 0)%Q
  /\ Sorted Z.le (map snd Examples.Analytics.handover)
  /\ 5 <= int ((1 # 2) * 30)
  /\ exists self,
      run (__init__ 30 (1 # 2)) Examples.Analytics.handover = Some self
      /\ pass_events self = [].
Proof.
  assert (Hfps : ~ (30 == 0)%Q) by (intros H; discriminate H).
  assert (Hs : Sorted Z.le (map snd Examples.Analytics.handover))
    by (vm_compute; repeat (constructor; try (intros H; discriminate H))).
  assert (Hth : 5 <= int ((1 # 2) * 30)) by (vm_compute; discriminate).
  split; [exact Hfps|]. split; [exact Hs|]. split; [exact Hth|].
  destruct (no_pass_is_recorded_from_threshold_5 30 (1 # 2)
              Examples.Analytics.handover Hfps Hs Hth)
    as (self & E & Hp & _).
  exists self. split; [exact E|exact Hp].
Defined.





(** X20: the pass statistics add up.  After any run with a non-zero frame
    rate, the passes credited to team A and to team B add up to the total,
    on real data (every logged pass starts from a span of team A or team
    B), on made-up figures and on the fallback alike; and whenever the
    pass log is not empty, every pass in it is marked successful, so the
    success rate reported is 100. *)
Theorem pass_statistics_add_up env fps0 threshold frames self :
  ~ (fps0 == 0)%Q ->
  run (__init__ fps0 threshold) frames = Some self ->
  let stats := get_pass_stats env self in
  team_a_passes stats + team_b_passes stats = total_passes stats
  /\ (pass_events self <> [] ->
      total_passes stats = len (pass_events self)
      /\ successful_passes stats = total_passes stats
      /\ (pass_success_rate stats == 100)%Q).
Proof.
  intros Hfps Hrun.
  destruct (run_safe frames (__init__ fps0 threshold) Hfps
              (init_safe fps0 threshold)) as (self' & E & Hsafe & _).
  rewrite Hrun in E. inversion E; subst self'. clear E.
  cbv zeta. apply pass_stats_add_up. apply Hsafe.
Qed.

Lemma pass_statistics_add_up_witness :
  let self := FurtherExamples.after_quick_handover in
  let env := mkEnv 0 (fun _ _ _ => 0%Q) (fun l => l) in
  ~ (30 == 0)%Q
  /\ run (__init__ 30 (1 # 10)) Examples.Analytics.quick_handover = Some self
  /\ pass_events self <> []
  /\ team_a_passes (get_pass_stats env self)
     + team_b_passes (get_pass_stats env self)
     = total_passes (get_pass_stats env self)
  /\ (pass_success_rate (get_pass_stats env self) == 100)%Q.
Proof.
  cbv zeta.
  assert (Hfps : ~ (30 == 0)%Q) by (intros H; discriminate H).
  assert (Hrun : run (__init__ 30 (1 # 10)) Examples.Analytics.quick_handover
                 = Some FurtherExamples.after_quick_handover)
    by (vm_compute; reflexivity).
  assert (Hne : pass_events FurtherExamples.after_quick_handover <> [])
    by (vm_compute; discriminate).
  split; [exact Hfps|]. split; [exact Hrun|]. split; [exact Hne|].
  destruct (pass_statistics_add_up (mkEnv 0 (fun _ _ _ => 0%Q) (fun l => l))
              30 (1 # 10) Examples.Analytics.quick_handover
              FurtherExamples.after_quick_handover Hfps Hrun)
    as (Hsum & Hreal).
  split; [exact Hsum|]. exact (proj2 (proj2 (Hreal Hne))).
Defined.

(** X21: after any run with a non-zero frame rate, [reset] gives back
    exactly the analyzer the constructor built: all samples, logs, times
    and the open span are cleared, and the frame rate, both thresholds of
    the pass detector, the possession threshold and the frame threshold
    derived from it are what they were at construction, since no call ever
    changes them. *)
Theorem reset_restores_the_constructed_analyzer fps0 threshold frames self :
  ~ (fps0 == 0)%Q ->
  run (__init__ fps0 threshold) frames = Some self ->
  reset self = __init__ fps0 threshold.
Proof.
  intros Hfps Hrun.
  destruct (run_config frames (__init__ fps0 threshold) self Hfps
              (init_safe fps0 threshold) Hrun)
    as (A1 & A2 & A3 & A4 & A5).
  unfold reset. rewrite A1, A2, A3, A4, A5. reflexivity.
Qed.

Lemma reset_restores_the_constructed_analyzer_witness :
  let self := FurtherExamples.after_handover in
  ~ (30 == 0)%Q
  /\ run (__init__ 30 (1 # 2)) Examples.Analytics.handover = Some self
  /\ reset self = __init__ 30 (1 # 2).
Proof.
  cbv zeta.
  assert (Hfps : ~ (30 == 0)%Q) by (intros H; discriminate H).
  assert (Hrun : run (__init__ 30 (1 # 2)) Examples.Analytics.handover
                 = Some FurtherExamples.after_handover)
    by (vm_compute; reflexivity).
  split; [exact Hfps|]. split; [exact Hrun|].
  exact (reset_restores_the_constructed_analyzer 30 (1 # 2)
           Examples.Analytics.handover FurtherExamples.after_handover
           Hfps Hrun).
Defined.

End PossessionProperties.

(* ================================================================== *)
(** * Further properties: the processing loop                          *)
(* ================================================================== *)

Module ServerFacts.
Import Py PyFacts DictFacts TrackerSpec TrackerFacts UpdateFacts Further
       SweepFacts PossessionSpec PossessionFacts Server.

#[local] Open Scope Z_scope.

(** The ids a call reports have been handed out by the tracker. *)
Lemma reported_ids_in_range t dets o :
  reachable t ->
  In o (fst (Tr.update t dets)) ->
  0 <= Tr.o_track_id o < Tr.track_id_count (snd (Tr.update t dets)).
Proof.
  intros Hr Hin.
  pose proof (reachable_consistent t Hr) as Hc.
  pose proof (reachable_accounted t Hr) as (H0 & _ & _ & Hcov).
  assert (Hid : In (Tr.o_track_id o) (ids (fst (Tr.update t dets))))
    by (apply in_map; exact Hin).
  clear Hin. destruct dets as [|d dets].
  - rewrite update_empty in *. cbn [fst snd] in *.
    apply (subseq_In _ _ _ (predict_ids_subseq _)) in Hid.
    rewrite begin_frame_keys in Hid.
    change (Tr.track_id_count (Tr.begin_frame t))
      with (Tr.track_id_count t).
    apply Hcov. left. exact Hid.
  - rewrite update_rounds in *. cbn [fst snd] in *.
    destruct (rounds_spec t (d :: dets) Hc) as (m & n & R).
    cbv zeta in R.
    destruct R as (Hc2 & _ & _ & _ & Hcnt & _ & _ & Hout & Hm & _).
    destruct (sweep_spec _ Hc2) as (_ & _ & _ & _ & _ & Hs).
    rewrite Hs, Hcnt. apply Hout in Hid. destruct Hid as [Hid|Hid].
    + apply Hm in Hid.
      assert (0 <= Tr.o_track_id o < Tr.track_id_count t)
        by (apply Hcov; left; exact Hid).
      lia.
    + apply ids_from_In in Hid. lia.
Qed.

Lemma max_by_score_In (l : list An.Obj) b :
  An.max_by_score l = Some b -> In b l.
Proof.
  unfold An.max_by_score. destruct l as [|x l]; [discriminate|].
  intros E. inversion E as [E']. clear E E'.
  assert (H : forall l0 x0,
            In (fold_left
                  (fun best y =>
                     if Qltb (An.obj_score best) (An.obj_score y)
                     then y else best) l0 x0) (x0 :: l0)).
  { induction l0 as [|y l0 IH]; intros x0; cbn [fold_left].
    - left. reflexivity.
    - destruct (Qltb _ _).
      + right. apply IH.
      + destruct (IH x0) as [H|H]; [left; exact H|right; right; exact H]. }
  apply H.
Qed.

Lemma sample_of_object f o :
  An.s_track_id (An.sample f (as_obj o)) = Tr.o_track_id o
  /\ An.s_frame_id (An.sample f (as_obj o)) = f.
Proof. split; reflexivity. Qed.

(** One turn of the loop. *)
Lemma process_frame_step j detections now :
  reachable (tracker j) ->
  ~ (An.fps (possession_analyzer j) == 0)%Q ->
  safe (possession_analyzer j) ->
  timely now (possession_analyzer j) ->
  now <= frame_count j ->
  in_range j ->
  exists j',
    process_frame j detections = Some j'
    /\ tracker j' = snd (Tr.update (tracker j) detections)
    /\ frame_count j' = frame_count j + 1
    /\ An.fps (possession_analyzer j') = An.fps (possession_analyzer j)
    /\ An.frame_threshold (possession_analyzer j')
       = An.frame_threshold (possession_analyzer j)
    /\ An.pass_threshold_frames (possession_analyzer j')
       = An.pass_threshold_frames (possession_analyzer j)
    /\ safe (possession_analyzer j')
    /\ timely (frame_count j) (possession_analyzer j')
    /\ (An.pass_threshold_frames (possession_analyzer j)
        <= An.frame_threshold (possession_analyzer j) ->
        An.pass_events (possession_analyzer j')
        = An.pass_events (possession_analyzer j))
    /\ in_range j'.
Proof.
  intros Hr Hfps Hsafe Htime Hnow (Hfc & Hrange).
  unfold process_frame.
  pose proof (reported_ids_in_range (tracker j) detections) as Hids.
  pose proof (update_count_mono (tracker j) detections
                (reachable_consistent _ Hr)) as Hmono.
  destruct (Tr.update (tracker j) detections) as [out t'].
  cbn [fst snd] in *.
  destruct (update_tracks_step (possession_analyzer j) (map as_obj out)
              (frame_count j) Hfps Hsafe)
    as (a' & E & Hsafe' & F & T & N & _ & Hstep & Hball & Hplayers).
  destruct (Hstep now Htime Hnow) as (Htime' & Hpass).
  rewrite E. eexists. split; [reflexivity|]. cbn.
  split; [reflexivity|]. split; [reflexivity|]. split; [exact F|].
  split; [exact T|]. split; [exact N|]. split; [exact Hsafe'|].
  split; [exact Htime'|]. split; [exact Hpass|].
  assert (Hnew : forall o',
            In o' (map as_obj out) ->
            0 <= An.s_track_id (An.sample (frame_count j) o')
              < Tr.track_id_count t'
            /\ 0 <= An.s_frame_id (An.sample (frame_count j) o')
               < frame_count j + 1).
  { intros o' Ho'. apply in_map_iff in Ho'. destruct Ho' as (o & <- & Ho).
    destruct (sample_of_object (frame_count j) o) as (-> & ->).
    split; [apply Hids; [exact Hr|exact Ho]|lia]. }
  assert (Hold : forall smp,
            In smp (An.ball_tracks (possession_analyzer j))
            \/ In smp (An.player_tracks (possession_analyzer j)) ->
            0 <= An.s_track_id smp < Tr.track_id_count t'
            /\ 0 <= An.s_frame_id smp < frame_count j + 1).
  { intros smp Hs. destruct (Hrange smp Hs). lia. }
  unfold in_range. cbn [tracker possession_analyzer frame_count].
  split; [lia|].
  intros smp [Hs|Hs].
  - rewrite Hball in Hs. apply in_app_or in Hs. destruct Hs as [Hs|Hs].
    + apply Hold. left. exact Hs.
    + destruct (An.max_by_score (filter (An.has_class "ball")
                                   (map as_obj out))) as [b|] eqn:Eb;
        [|destruct Hs].
      destruct Hs as [<-|[]]. apply Hnew.
      apply max_by_score_In in Eb. apply filter_In in Eb. apply Eb.
  - rewrite Hplayers in Hs. apply in_app_or in Hs. destruct Hs as [Hs|Hs].
    + apply Hold. right. exact Hs.
    + apply in_map_iff in Hs. destruct Hs as (o' & <- & Ho').
      apply Hnew. apply filter_In in Ho'. apply Ho'.
Qed.

Lemma process_spec video : forall j now,
  reachable (tracker j) ->
  ~ (An.fps (possession_analyzer j) == 0)%Q ->
  safe (possession_analyzer j) ->
  timely now (possession_analyzer j) ->
  now <= frame_count j ->
  in_range j ->
  exists j' now',
    process j video = Some j'
    /\ tracker j' = snd (Tr.run (tracker j) video)
    /\ frame_count j' = frame_count j + len video
    /\ safe (possession_analyzer j')
    /\ timely now' (possession_analyzer j')
    /\ (An.pass_threshold_frames (possession_analyzer j)
        <= An.frame_threshold (possession_analyzer j) ->
        An.pass_events (possession_analyzer j')
        = An.pass_events (possession_analyzer j))
    /\ in_range j'.
Proof.
  induction video as [|dets video IH];
    intros j now Hr Hfps Hsafe Htime Hnow Hrange.
  - exists j, now. cbn. unfold len; cbn.
    split; [reflexivity|]. split; [reflexivity|]. split; [lia|]. auto.
  - destruct (process_frame_step j dets now Hr Hfps Hsafe Htime Hnow Hrange)
      as (j1 & E1 & Ht1 & Hc1 & F1 & T1 & N1 & S1 & Tm1 & P1 & R1).
    destruct (IH j1 (frame_count j)) as (j2 & now2 & E2 & Ht2 & Hc2 & S2
                                         & Tm2 & P2 & R2); auto.
    + rewrite Ht1. apply reach_update. exact Hr.
    + rewrite F1. exact Hfps.
    + lia.
    + exists j2, now2. cbn [process]. rewrite E1.
      split; [exact E2|]. split.
      * rewrite Ht2, Ht1. symmetry. apply TableFacts.run_cons.
      * split.
        -- rewrite Hc2, Hc1. unfold len. cbn [List.length]. lia.
        -- split; [exact S2|]. split; [exact Tm2|]. split; [|exact R2].
           intros Hth. rewrite P2 by (rewrite N1, T1; exact Hth). auto.
Qed.

Lemma half_of_ten_or_more (fps0 : Q) :
  (10 <= fps0)%Q -> 5 <= int ((1 # 2) * fps0).
Proof.
  intros H. unfold int. destruct fps0 as [n d]. unfold Qle in H.
  cbn [Qnum Qden Qmult] in *. rewrite Z.mul_1_r in H.
  change (Z.pos (2 * d)) with (2 * Z.pos d).
  apply Z.quot_le_lower_bound; lia.
Qed.

End ServerFacts.

Section ServerProperties.
Import Py PyFacts DictFacts TrackerSpec TrackerFacts UpdateFacts Further
       PossessionSpec PossessionFacts Server ServerFacts.

#[local] Open Scope Z_scope.

(** X22: the loop of [process_video] runs through.  For a video of any
    length and any detections, with a non-zero frame rate, no turn of the
    loop raises in the tracker or the analyzer; the frame counter ends at
    the number of frames; every ball or player sample the analyzer holds
    carries an id the tracker has handed out (never the default -1) and
    the number of a processed frame; the possession log is in
    chronological order without overlap; and from 10 fps on its pass log
    is empty. *)
Theorem process_video_runs_through fps0 video :
  ~ (fps0 == 0)%Q ->
  exists j,
    process_video fps0 video = Some j
    /\ frame_count j = len video
    /\ tracker j = snd (Tr.run Tr.default video)
    /\ (forall smp,
          In smp (An.ball_tracks (possession_analyzer j))
          \/ In smp (An.player_tracks (possession_analyzer j)) ->
          0 <= An.s_track_id smp < Tr.track_id_count (tracker j)
          /\ 0 <= An.s_frame_id smp < len video)
    /\ ForallOrdPairs (fun p q => end_of p <= An.start_frame q)
         (An.possession_events (possession_analyzer j))
    /\ ((10 <= fps0)%Q -> An.pass_events (possession_analyzer j) = []).
Proof.
  intros Hfps. unfold process_video.
  destruct (process_spec video (start fps0) 0) as (j & now & E & Ht & Hc & _
                                                   & [Ho _ _] & Hp & Hr).
  - apply reach_init.
  - exact Hfps.
  - apply init_safe.
  - apply init_timely.
  - cbn. lia.
  - split; [cbn; lia|]. intros smp [[]|[]].
  - exists j. split; [exact E|]. cbn in Hc.
    split; [exact Hc|]. split; [exact Ht|]. split.
    + destruct Hr as (_ & Hr). rewrite <- Hc. exact Hr.
    + split; [exact Ho|]. intros H10. apply Hp. cbn.
      apply half_of_ten_or_more. exact H10.
Qed.

Lemma process_video_runs_through_witness :
  let video := Examples.Tracking.ball_then_players in
  ~ (30 == 0)%Q
  /\ exists j,
      process_video 30 video = Some j
      /\ frame_count j = len video
      /\ An.pass_events (possession_analyzer j) = [].
Proof.
  cbv zeta.
  assert (Hfps : ~ (30 == 0)%Q) by (intros H; discriminate H).
  split; [exact Hfps|].
  destruct (process_video_runs_through 30 Examples.Tracking.ball_then_players
              Hfps) as (j & E & Hc & _ & _ & _ & Hp).
  exists j. split; [exact E|]. split; [exact Hc|].
  apply Hp. intros H. discriminate H.
Defined.

End ServerProperties.
